(** * PaperSiliconFloorplanner: the geometric core ([utils.ts]) over IEEE-754 doubles

    A JavaScript [number] is a binary64 float; it is embedded as Rocq's
    primitive [float], whose operations are the same correctly rounded
    IEEE-754 operations.  The definitions follow [utils.ts] and [types.ts]
    statement by statement; those of the application around the core follow
    the components that hold them. *)

From Stdlib Require Import List String Ascii ZArith Bool Lia Floats Permutation.
Import ListNotations.

Local Open Scope float_scope.

#[local] Set Warnings "-register-all,-inexact-float".

(** ** JavaScript number semantics *)

Module JS.

(** [x] is falsy as a number: [0], [-0] or [NaN]. *)
Definition falsy (x : float) : bool := is_nan x || (x =? 0).

(** [x || d] on numbers. *)
Definition or_num (x d : float) : float := if falsy x then d else x.

(** [Math.max(a, b)]: [NaN] when either argument is, and [+0] above [-0]. *)
Definition max (a b : float) : float :=
  match a ?= b with
  | FNotComparable => nan
  | FLt => b
  | FGt => a
  | FEq => match classify a with NZero => b | _ => a end
  end.

(** [Math.min(a, b)]: [NaN] when either argument is, and [-0] below [+0]. *)
Definition min (a b : float) : float :=
  match a ?= b with
  | FNotComparable => nan
  | FLt => a
  | FGt => b
  | FEq => match classify a with PZero => b | _ => a end
  end.

(** [a > b]. *)
Definition gt (a b : float) : bool := b <? a.

(** [2^46]: from here on a double is within half an ulp of its own
    two-decimal rendering. *)
Definition two46 : Z := 70368744177664.

(** The integer [n] for which [n / 100 - m * 2^e] is as close to zero as
    possible, the larger [n] on a tie (step 10.a of Number.prototype.toFixed). *)
Definition hundredths (m : positive) (e : Z) : Z :=
  match e with
  | Zneg k => (2 * 100 * Zpos m + 2 ^ Zpos k) / (2 ^ (Zpos k + 1))
  | _ => 100 * Zpos m * 2 ^ e
  end.

(** Whether [m * 2^e >= 2^46]. *)
Definition at_least_two46 (m : positive) (e : Z) : bool :=
  match e with
  | Zneg k => (two46 * 2 ^ Zpos k <=? Zpos m)%Z
  | _ => (two46 <=? Zpos m * 2 ^ e)%Z
  end.

(** [Number(x.toFixed(2))].  [toFixed] writes [NaN], the infinities and
    every [|x| >= 1e21] the way [toString] does, which [Number] reads back
    as [x]; otherwise it writes the nearest multiple of [0.01] and
    [Number] reads the nearest double to it, which is the correctly rounded
    quotient [n / 100] (and [x] itself from [2^46] on). *)
Definition toFixed2 (x : float) : float :=
  match Prim2SF x with
  | S754_nan | S754_infinity _ => x
  | S754_zero _ => 0
  | S754_finite s m e =>
      if at_least_two46 m e then x
      else
        let q := of_uint63 (Uint63.of_Z (hundredths m e)) / 100 in
        if s then - q else q
  end.

End JS.

(** ** Data model ([types.ts]) *)

Inductive ModuleNode : Type := mkModuleNode {
  n_id : string;
  n_name : string;
  registers : float;
  memoryBits : float;
  logicGates : float;
  n_x : float;
  n_y : float;
  internalX : float;
  internalY : float;
  aspectRatio : float;
  internalAspectRatio : float;
  isRatioLinked : bool;
  children : list ModuleNode;
  color : option string
}.

Record TechNodeConfig : Type := mkTechNodeConfig {
  cfg_name : string;
  dffArea : float;
  gateArea : float;
  sramAreaPerBit : float;
  utilization : float
}.

Record AreaBreakdown : Type := mkAreaBreakdown {
  s_id : string;
  s_name : string;
  localArea : float;
  childrenArea : float;
  totalArea : float;
  regArea : float;
  memArea : float;
  logicArea : float;
  utilizationOverhead : float;
  calculatedWidth : float;
  calculatedHeight : float;
  idealWidth : float;
  idealHeight : float;
  minFeasibleRatio : float;
  maxFeasibleRatio : float
}.

Record OverlapMarker : Type := mkOverlapMarker {
  m_x : float;
  m_y : float;
  m_w : float;
  m_h : float;
  ids : string * string
}.

(** The result of [calculatePhysicalSize]: [{ w, h, stats }]. *)
Record PhysicalSize : Type := mkPhysicalSize {
  sz_w : float;
  sz_h : float;
  stats : AreaBreakdown
}.

(** ** Constants *)

Definition GLOBAL_MARGIN : float := 24.
Definition GLOBAL_HEADER : float := 36.
Definition INTER_MODULE_GAP : float := 16.

(** ** The Area Calculator *)

(** [node.isRatioLinked ? node.aspectRatio : (node.internalAspectRatio || 1.0)],
    the expression every function of the file starts from. *)
Definition effectiveInternalAR (node : ModuleNode) : float :=
  if isRatioLinked node then aspectRatio node
  else JS.or_num (internalAspectRatio node) 1.

(** Lines 47-53: the far corner of the local-logic block, sized [wL] by [hL],
    and of every child: [(maxContentX, maxContentY)]. *)
Definition contentExtent (node : ModuleNode) (wL hL : float)
    (childrenInfo : list (ModuleNode * PhysicalSize)) : float * float :=
  fold_left
    (fun m c =>
       (JS.max (fst m) (JS.or_num (n_x (fst c)) 0 + sz_w (snd c)),
        JS.max (snd m) (JS.or_num (n_y (fst c)) 0 + sz_h (snd c))))
    childrenInfo
    (JS.or_num (internalX node) 0 + wL, JS.or_num (internalY node) 0 + hL).

(** The body of [calculatePhysicalSize] once the children have been sized:
    [childrenInfo] pairs each child with its own result. *)
Definition sizeWith (node : ModuleNode) (config : TechNodeConfig)
    (childrenInfo : list (ModuleNode * PhysicalSize)) : PhysicalSize :=
  let regArea' := JS.or_num (registers node) 0 * dffArea config in
  let memArea' := JS.or_num (memoryBits node) 0 * sramAreaPerBit config in
  let logicArea' := JS.or_num (logicGates node) 0 * gateArea config in
  let rawLocalArea := regArea' + memArea' + logicArea' in
  let localArea' := rawLocalArea / utilization config in
  let childrenAreaSum :=
    fold_left (fun acc c => acc + sz_w (snd c) * sz_h (snd c)) childrenInfo 0 in
  let totalContentArea := localArea' + childrenAreaSum in
  let effectiveAR := effectiveInternalAR node in
  let ratio := JS.or_num (aspectRatio node) 1 in
  let idealH := PrimFloat.sqrt (totalContentArea / ratio) in
  let idealW := idealH * ratio in
  let hL := PrimFloat.sqrt (localArea' / effectiveAR) in
  let wL := hL * effectiveAR in
  let extent := contentExtent node wL hL childrenInfo in
  let maxContentX := fst extent in
  let maxContentY := snd extent in
  let finalW := JS.max idealW (maxContentX + GLOBAL_MARGIN * 2) in
  let finalH := JS.max idealH (maxContentY + GLOBAL_MARGIN * 2 + GLOBAL_HEADER) in
  let W_min := maxContentX + GLOBAL_MARGIN * 2 in
  let H_min := maxContentY + GLOBAL_MARGIN * 2 + GLOBAL_HEADER in
  let minFeasible := (W_min * W_min) / totalContentArea in
  let maxFeasible := totalContentArea / (H_min * H_min) in
  {| sz_w := finalW;
     sz_h := finalH;
     stats :=
       {| s_id := n_id node;
          s_name := n_name node;
          localArea := localArea';
          childrenArea := childrenAreaSum;
          totalArea := finalW * finalH;
          regArea := regArea';
          memArea := memArea';
          logicArea := logicArea';
          utilizationOverhead := (finalW * finalH * utilization config) - rawLocalArea;
          calculatedWidth := finalW;
          calculatedHeight := finalH;
          idealWidth := idealW;
          idealHeight := idealH;
          minFeasibleRatio := JS.min minFeasible maxFeasible;
          maxFeasibleRatio := JS.max minFeasible maxFeasible |} |}.

Fixpoint calculatePhysicalSize (node : ModuleNode) (config : TechNodeConfig)
    {struct node} : PhysicalSize :=
  sizeWith node config
    (map (fun c => (c, calculatePhysicalSize c config)) (children node)).

(** [childrenInfo] of a node. *)
Definition childrenInfoOf (node : ModuleNode) (config : TechNodeConfig)
  : list (ModuleNode * PhysicalSize) :=
  map (fun c => (c, calculatePhysicalSize c config)) (children node).

(** The local-logic block of a node, sized from [stats.localArea]:
    [(localW, localH)]. *)
Definition localBlock (node : ModuleNode) (config : TechNodeConfig) : float * float :=
  let localH :=
    PrimFloat.sqrt (localArea (stats (calculatePhysicalSize node config))
                    / effectiveInternalAR node) in
  (localH * effectiveInternalAR node, localH).

(** [totalContentArea] of a node (line 36). *)
Definition totalContentArea (node : ModuleNode) (config : TechNodeConfig) : float :=
  let st := stats (calculatePhysicalSize node config) in
  localArea st + childrenArea st.

(** [(W_min, H_min)] of a node (lines 59-60): the envelope its content needs. *)
Definition minEnvelope (node : ModuleNode) (config : TechNodeConfig) : float * float :=
  let extent :=
    contentExtent node (fst (localBlock node config)) (snd (localBlock node config))
      (childrenInfoOf node config) in
  (fst extent + GLOBAL_MARGIN * 2,
   snd extent + GLOBAL_MARGIN * 2 + GLOBAL_HEADER).

(** ** The Overlap Detector *)

(** An element of [blocks]: [{ id, name, x, y, w, h }]. *)
Record Block : Type := mkBlock {
  b_id : string;
  b_name : string;
  b_x : float;
  b_y : float;
  b_w : float;
  b_h : float
}.

Definition blocksOf (node : ModuleNode) (config : TechNodeConfig) : list Block :=
  let '(localW, localH) := localBlock node config in
  {| b_id := "internal"; b_name := "[Local Logic]";
     b_x := JS.or_num (internalX node) 0; b_y := JS.or_num (internalY node) 0;
     b_w := localW; b_h := localH |}
  :: map (fun c =>
            let size := calculatePhysicalSize c config in
            {| b_id := n_id c; b_name := n_name c;
               b_x := JS.or_num (n_x c) 0; b_y := JS.or_num (n_y c) 0;
               b_w := sz_w size; b_h := sz_h size |})
         (children node).

Definition xOverlap (a b : Block) : float :=
  JS.max 0 (JS.min (b_x a + b_w a) (b_x b + b_w b) - JS.max (b_x a) (b_x b)).

Definition yOverlap (a b : Block) : float :=
  JS.max 0 (JS.min (b_y a + b_h a) (b_y b + b_h b) - JS.max (b_y a) (b_y b)).

Definition markerOf (a b : Block) : OverlapMarker :=
  {| m_x := JS.max (b_x a) (b_x b); m_y := JS.max (b_y a) (b_y b);
     m_w := xOverlap a b; m_h := yOverlap a b; ids := (b_id a, b_id b) |}.

(** The body of the inner loop at indices [i] and [j]: what it pushes. *)
Definition checkPair (blocks : list Block) (i j : nat) : list OverlapMarker :=
  match nth_error blocks i, nth_error blocks j with
  | Some a, Some b =>
      if JS.gt (xOverlap a b) 0 && JS.gt (yOverlap a b) 0
      then [markerOf a b] else []
  | _, _ => []
  end.

(** [for (i = 0; i < length; i++) for (j = i + 1; j < length; j++)]. *)
Definition checkBlocks (blocks : list Block) : list OverlapMarker :=
  flat_map
    (fun i => flat_map (checkPair blocks i) (seq (i + 1) (List.length blocks - (i + 1))))
    (seq 0 (List.length blocks)).

Definition checkOverlapsInModule (node : ModuleNode) (config : TechNodeConfig)
  : list OverlapMarker :=
  checkBlocks (blocksOf node config).

(** ** Tree-rewrite helpers *)

(** [Partial<ModuleNode>]: every field optional. *)
Record PartialModuleNode : Type := mkPartialModuleNode {
  u_id : option string;
  u_name : option string;
  u_registers : option float;
  u_memoryBits : option float;
  u_logicGates : option float;
  u_x : option float;
  u_y : option float;
  u_internalX : option float;
  u_internalY : option float;
  u_aspectRatio : option float;
  u_internalAspectRatio : option float;
  u_isRatioLinked : option bool;
  u_children : option (list ModuleNode);
  u_color : option (option string)
}.

Definition override {A : Type} (old : A) (new : option A) : A :=
  match new with Some v => v | None => old end.

(** [{ ...root, ...updates }]. *)
Definition spread (root : ModuleNode) (updates : PartialModuleNode) : ModuleNode :=
  {| n_id := override (n_id root) (u_id updates);
     n_name := override (n_name root) (u_name updates);
     registers := override (registers root) (u_registers updates);
     memoryBits := override (memoryBits root) (u_memoryBits updates);
     logicGates := override (logicGates root) (u_logicGates updates);
     n_x := override (n_x root) (u_x updates);
     n_y := override (n_y root) (u_y updates);
     internalX := override (internalX root) (u_internalX updates);
     internalY := override (internalY root) (u_internalY updates);
     aspectRatio := override (aspectRatio root) (u_aspectRatio updates);
     internalAspectRatio :=
       override (internalAspectRatio root) (u_internalAspectRatio updates);
     isRatioLinked := override (isRatioLinked root) (u_isRatioLinked updates);
     children := override (children root) (u_children updates);
     color := override (color root) (u_color updates) |}.

(** [{ ...root, children: cs }]. *)
Definition withChildren (root : ModuleNode) (cs : list ModuleNode) : ModuleNode :=
  {| n_id := n_id root; n_name := n_name root; registers := registers root;
     memoryBits := memoryBits root; logicGates := logicGates root;
     n_x := n_x root; n_y := n_y root;
     internalX := internalX root; internalY := internalY root;
     aspectRatio := aspectRatio root;
     internalAspectRatio := internalAspectRatio root;
     isRatioLinked := isRatioLinked root; children := cs; color := color root |}.

Fixpoint updateNodeInTree (root : ModuleNode) (id : string)
    (updates : PartialModuleNode) {struct root} : ModuleNode :=
  if String.eqb (n_id root) id then spread root updates
  else withChildren root
         (map (fun child => updateNodeInTree child id updates) (children root)).

(** [.filter(c => c !== null)] on the mapped children. *)
Definition dropNull {A : Type} (l : list (option A)) : list A :=
  flat_map (fun c => match c with Some v => [v] | None => [] end) l.

Fixpoint deleteNodeInTree (root : ModuleNode) (id : string) {struct root}
  : option ModuleNode :=
  if String.eqb (n_id root) id then None
  else Some (withChildren root
               (dropNull (map (fun child => deleteNodeInTree child id) (children root)))).

Fixpoint addNodeToParent (root : ModuleNode) (pId : string) (newNode : ModuleNode)
    {struct root} : ModuleNode :=
  if String.eqb (n_id root) pId then withChildren root (children root ++ [newNode])
  else withChildren root
         (map (fun child => addNodeToParent child pId newNode) (children root)).

(** The ids occurring in a tree. *)
Fixpoint treeIds (node : ModuleNode) : list string :=
  n_id node :: flat_map treeIds (children node).

(** ** The Compactor *)

(** An element of [entities].  The object literal of the local-logic block
    has [isLocal: true] and no [original]; a child's has [isLocal: false] and
    the child as [original]. *)
Inductive EntityKind : Type :=
  | Local
  | Child (original : ModuleNode).

Record Entity : Type := mkEntity {
  e_kind : EntityKind;
  e_id : string;
  e_x : float;
  e_y : float;
  e_w : float;
  e_h : float
}.

Definition isLocal (e : Entity) : bool :=
  match e_kind e with Local => true | Child _ => false end.

Definition setY (e : Entity) (v : float) : Entity :=
  {| e_kind := e_kind e; e_id := e_id e; e_x := e_x e; e_y := v;
     e_w := e_w e; e_h := e_h e |}.

Definition setX (e : Entity) (v : float) : Entity :=
  {| e_kind := e_kind e; e_id := e_id e; e_x := v; e_y := e_y e;
     e_w := e_w e; e_h := e_h e |}.

Definition entitiesOf (node : ModuleNode) (config : TechNodeConfig) : list Entity :=
  let '(localW, localH) := localBlock node config in
  {| e_kind := Local; e_id := "internal";
     e_x := JS.or_num (internalX node) 0; e_y := JS.or_num (internalY node) 0;
     e_w := localW; e_h := localH |}
  :: map (fun c =>
            let size := calculatePhysicalSize c config in
            {| e_kind := Child c; e_id := n_id c;
               e_x := JS.or_num (n_x c) 0; e_y := JS.or_num (n_y c) 0;
               e_w := sz_w size; e_h := sz_h size |})
         (children node).

(** [Array.prototype.sort] is stable and orders [a] after [b] when the
    comparator is positive on [(a, b)] (a [NaN] result counts as 0): each
    element, taken from the right, is inserted after the elements it compares
    positive against.  For a comparator that is a consistent order this is
    the one result the language allows. *)
Section Sort.
Variable cmp : Entity -> Entity -> float.

Fixpoint insertSorted (a : Entity) (l : list Entity) : list Entity :=
  match l with
  | [] => [a]
  | b :: l' => if JS.gt (cmp a b) 0 then b :: insertSorted a l' else a :: l
  end.

Definition sortBy (l : list Entity) : list Entity :=
  fold_right insertSorted [] l.
End Sort.

(** [(a, b) => a.y - b.y || a.x - b.x] *)
Definition byYX (a b : Entity) : float := JS.or_num (e_y a - e_y b) (e_x a - e_x b).

(** [(a, b) => a.x - b.x || a.y - b.y] *)
Definition byXY (a b : Entity) : float := JS.or_num (e_x a - e_x b) (e_y a - e_y b).

(** The inner loop of the vertical pass for [entity]: [others] are the
    entities before it in the array, already moved. *)
Definition bestY (others : list Entity) (entity : Entity) : float :=
  fold_left
    (fun best other =>
       let xOverlap := JS.min (e_x entity + e_w entity) (e_x other + e_w other)
                       - JS.max (e_x entity) (e_x other) in
       if JS.gt xOverlap 1
       then JS.max best (e_y other + e_h other + INTER_MODULE_GAP)
       else best)
    others 0.

Definition bestX (others : list Entity) (entity : Entity) : float :=
  fold_left
    (fun best other =>
       let yOverlap := JS.min (e_y entity + e_h entity) (e_y other + e_h other)
                       - JS.max (e_y entity) (e_y other) in
       if JS.gt yOverlap 1
       then JS.max best (e_x other + e_w other + INTER_MODULE_GAP)
       else best)
    others 0.

(** [entities.forEach(entity => { ...; entity.y = bestY })]: the entities are
    updated in place, in array order, so each one sees the new position of
    those before it. *)
Definition sweepY (entities : list Entity) : list Entity :=
  fold_left (fun done entity => done ++ [setY entity (bestY done entity)]) entities [].

Definition sweepX (entities : list Entity) : list Entity :=
  fold_left (fun done entity => done ++ [setX entity (bestX done entity)]) entities [].

(** Both passes: sort, sweep, sort, sweep. *)
Definition compact (entities : list Entity) : list Entity :=
  sweepX (sortBy byXY (sweepY (sortBy byYX entities))).

(** [{ ...e.original, x: e.x, y: e.y }] for the entities that are not local. *)
Definition updatedChildrenOf (entities : list Entity) : list ModuleNode :=
  flat_map
    (fun e =>
       match e_kind e with
       | Local => []
       | Child original =>
           [spread original
              {| u_id := None; u_name := None; u_registers := None;
                 u_memoryBits := None; u_logicGates := None;
                 u_x := Some (e_x e); u_y := Some (e_y e);
                 u_internalX := None; u_internalY := None;
                 u_aspectRatio := None; u_internalAspectRatio := None;
                 u_isRatioLinked := None; u_children := None; u_color := None |}]
       end)
    entities.

Definition organizeChildrenMosaic (node : ModuleNode) (config : TechNodeConfig)
  : ModuleNode :=
  match children node with
  | [] =>
      spread node
        {| u_id := None; u_name := None; u_registers := None;
           u_memoryBits := None; u_logicGates := None; u_x := None; u_y := None;
           u_internalX := Some 0; u_internalY := Some 0;
           u_aspectRatio := None; u_internalAspectRatio := None;
           u_isRatioLinked := None; u_children := None; u_color := None |}
  | _ :: _ =>
      let entities := compact (entitiesOf node config) in
      (* [entities.find(e => e.isLocal)!]: the local entity is always there
         ([find_local_compact]); the second branch is never taken. *)
      let localLogic :=
        match find isLocal entities with
        | Some e => e
        | None => hd (mkEntity Local "internal" 0 0 0 0) (entitiesOf node config)
        end in
      let updatedChildren := updatedChildrenOf entities in
      let extent :=
        fold_left
          (fun m c =>
             let size := calculatePhysicalSize c config in
             (JS.max (fst m) (n_x c + sz_w size), JS.max (snd m) (n_y c + sz_h size)))
          updatedChildren
          (e_x localLogic + e_w localLogic, e_y localLogic + e_h localLogic) in
      let maxX := fst extent in
      let maxY := snd extent in
      let finalContentW := maxX + GLOBAL_MARGIN * 2 in
      let finalContentH := maxY + GLOBAL_MARGIN * 2 + GLOBAL_HEADER in
      let actualRatio := JS.toFixed2 (finalContentW / finalContentH) in
      spread node
        {| u_id := None; u_name := None; u_registers := None;
           u_memoryBits := None; u_logicGates := None; u_x := None; u_y := None;
           u_internalX := Some (e_x localLogic);
           u_internalY := Some (e_y localLogic);
           u_aspectRatio := Some actualRatio;
           u_internalAspectRatio :=
             Some (if isRatioLinked node then actualRatio
                   else internalAspectRatio node);
           u_isRatioLinked := None;
           u_children := Some updatedChildren; u_color := None |}
  end.

(** [optimizeLayoutRecursive]: the children first, then the node. *)
Fixpoint optimizeLayoutRecursive (node : ModuleNode) (config : TechNodeConfig)
    {struct node} : ModuleNode :=
  organizeChildrenMosaic
    (withChildren node
       (map (fun child => optimizeLayoutRecursive child config) (children node)))
    config.

(** ** Valid inputs *)

Definition nonnegFinite (x : float) : bool := (0 <=? x) && is_finite x.

Definition posFinite (x : float) : bool := (0 <? x) && is_finite x.

(** Unit areas that are finite and not negative, and [0 < utilization <= 1]. *)
Definition validConfig (config : TechNodeConfig) : bool :=
  nonnegFinite (dffArea config) && nonnegFinite (sramAreaPerBit config)
  && nonnegFinite (gateArea config)
  && posFinite (utilization config) && (utilization config <=? 1).

(** Throughout the tree: resource counts that are finite and not negative,
    an [aspectRatio] and an effective internal ratio that are finite and
    positive, and stored positions that are not negative. *)
Fixpoint validNode (node : ModuleNode) : bool :=
  nonnegFinite (registers node) && nonnegFinite (memoryBits node)
  && nonnegFinite (logicGates node)
  && posFinite (aspectRatio node) && posFinite (effectiveInternalAR node)
  && (0 <=? n_x node) && (0 <=? n_y node)
  && (0 <=? internalX node) && (0 <=? internalY node)
  && forallb validNode (children node).


(** ** Sample inputs *)

(** A technology with unit areas and full utilization. *)
Definition unitTech : TechNodeConfig :=
  {| cfg_name := "unit"; dffArea := 1; gateArea := 1; sramAreaPerBit := 1;
     utilization := 1 |}.

(** A module without resources or children, unlinked, with both ratios 1:
    its footprint is its margins, [(internalX + 48) x (internalY + 84)]. *)
Definition emptyModule (id : string) (x y ix iy : float) : ModuleNode :=
  {| n_id := id; n_name := id; registers := 0; memoryBits := 0; logicGates := 0;
     n_x := x; n_y := y; internalX := ix; internalY := iy;
     aspectRatio := 1; internalAspectRatio := 1; isRatioLinked := false;
     children := []; color := None |}.

(** A module with [regs] registers and the children [cs], at the origin,
    unlinked, with both ratios 1. *)
Definition container (id : string) (regs : float) (cs : list ModuleNode) : ModuleNode :=
  {| n_id := id; n_name := id; registers := regs; memoryBits := 0; logicGates := 0;
     n_x := 0; n_y := 0; internalX := 0; internalY := 0;
     aspectRatio := 1; internalAspectRatio := 1; isRatioLinked := false;
     children := cs; color := None |}.

(** Two siblings of 100 x 100 at (0, 0) and (50, 50). *)
Definition twoSiblings : ModuleNode :=
  container "top" 0 [emptyModule "a" 0 0 52 16; emptyModule "b" 50 50 52 16].

(** The update [{ internalAspectRatio: v }]. *)
Definition justInternalAspectRatio (v : float) : PartialModuleNode :=
  {| u_id := None; u_name := None; u_registers := None; u_memoryBits := None;
     u_logicGates := None; u_x := None; u_y := None; u_internalX := None;
     u_internalY := None; u_aspectRatio := None; u_internalAspectRatio := Some v;
     u_isRatioLinked := None; u_children := None; u_color := None |}.

(** An unlinked module of 100 registers whose stored internal ratio is -2. *)
Definition negativeInternalRatio : ModuleNode :=
  spread (container "m" 100 []) (justInternalAspectRatio (-2)).

(** A technology whose utilization is 0. *)
Definition zeroUtilization : TechNodeConfig :=
  {| cfg_name := "zero"; dffArea := 1; gateArea := 1; sramAreaPerBit := 1;
     utilization := 0 |}.

(** A technology whose area per register is negative. *)
Definition negativeDffArea : TechNodeConfig :=
  {| cfg_name := "negative"; dffArea := -1; gateArea := 1; sramAreaPerBit := 1;
     utilization := 1 |}.

(** Three modules that do not overlap: [C] (150 x 100) at (0, 0), [D]
    (300 x 84) at (0, 200) above it, and [A] (48 x 116.5) at (400, 0) to the
    right of both. *)
Definition sliverLayout : ModuleNode :=
  container "top" 0
    [emptyModule "C" 0 0 102 16; emptyModule "D" 0 200 252 0;
     emptyModule "A" 400 0 0 32.5].

(** A linked container of 10000 registers (a local-logic block of 100 x 100)
    with one module of 48 x 392 at (0, 150), above the block. *)
Definition linkedLayout : ModuleNode :=
  spread (container "top" 10000 [emptyModule "a" 0 150 0 308])
    {| u_id := None; u_name := None; u_registers := None; u_memoryBits := None;
       u_logicGates := None; u_x := None; u_y := None; u_internalX := None;
       u_internalY := None; u_aspectRatio := None; u_internalAspectRatio := None;
       u_isRatioLinked := Some true; u_children := None; u_color := None |}.

(** Three modules that do not overlap: [C] (50 x 84) at (46, 0), and above
    it [A] (48.5 x 84) at (0, 100) and [B] (48 x 84) at (94, 100), each over
    one end of [C]. *)
Definition stackedLayout : ModuleNode :=
  container "top" 0
    [emptyModule "A" 0 100 0.5 0; emptyModule "C" 46 0 2 0;
     emptyModule "B" 94 100 0 0].

(** Id and position of every child. *)
Definition placements (node : ModuleNode) : list (string * float * float) :=
  map (fun c => (n_id c, n_x c, n_y c)) (children node).

(** The update [{ aspectRatio: r, internalAspectRatio: r, isRatioLinked: true }]. *)
Definition linkedAt (r : float) : PartialModuleNode :=
  {| u_id := None; u_name := None; u_registers := None; u_memoryBits := None;
     u_logicGates := None; u_x := None; u_y := None; u_internalX := None;
     u_internalY := None; u_aspectRatio := Some r; u_internalAspectRatio := Some r;
     u_isRatioLinked := Some true; u_children := None; u_color := None |}.

(** The update [{ x: v }]. *)
Definition justX (v : float) : PartialModuleNode :=
  {| u_id := None; u_name := None; u_registers := None; u_memoryBits := None;
     u_logicGates := None; u_x := Some v; u_y := None; u_internalX := None;
     u_internalY := None; u_aspectRatio := None; u_internalAspectRatio := None;
     u_isRatioLinked := None; u_children := None; u_color := None |}.

(** A linked container of 100 registers whose stored ratio is 0, with one
    module of 100 x 100 at (10, 0). *)
Definition zeroRatioLayout : ModuleNode :=
  spread (container "top" 100 [emptyModule "a" 10 0 52 16]) (linkedAt 0).

(** A linked module of 10000 registers with the ratio 0.000001: 48.1 wide and
    100084 high. *)
Definition thinModule : ModuleNode :=
  spread (container "thin" 10000 []) (linkedAt 0.000001).

(** A tree of valid modules without overlaps: a linked container of 100
    registers that holds [thinModule] at (20, 0), and beside it, at
    (3000, 0), a module of 100 x 100. *)
Definition deepLayout : ModuleNode :=
  container "top" 0
    [spread (container "mid" 100 [spread thinModule (justX 20)]) (linkedAt 1);
     emptyModule "s" 3000 0 52 16].

(** * The application around the core

    The lookups of [utils.ts], the layout, and what [App.tsx],
    [ModuleForm.tsx], [AutoLayoutView.tsx] and [FloorplanView.tsx] do with
    them. *)

(** ** Lookups ([utils.ts], lines 10-18 and 152-162) *)

(** [id.split(':')[0]]: the part of [id] before its first colon. *)
Fixpoint realIdOf (id : string) : string :=
  match id with
  | EmptyString => EmptyString
  | String c rest =>
      if Ascii.eqb c ":" then EmptyString else String c (realIdOf rest)
  end.

(** [tid.includes(sub)]. *)
Fixpoint includes (sub tid : string) : bool :=
  String.prefix sub tid
  || match tid with
     | EmptyString => false
     | String _ rest => includes sub rest
     end.

(** The loop [for (const child of ...) { const found = f(child); if (found)
    return found; } return null]. *)
Fixpoint firstFound {A B : Type} (f : A -> option B) (l : list A) : option B :=
  match l with
  | [] => None
  | c :: l' => match f c with Some found => Some found | None => firstFound f l' end
  end.

Fixpoint findModuleById (node : ModuleNode) (id : string) {struct node}
  : option ModuleNode :=
  if String.eqb (n_id node) (realIdOf id) then Some node
  else firstFound (fun child => findModuleById child id) (children node).

Fixpoint findParentOf (node : ModuleNode) (tid : string) {struct node}
  : option ModuleNode :=
  if includes ":internal" tid && String.eqb (n_id node) (realIdOf tid) then Some node
  else if existsb (fun c => String.eqb (n_id c) (realIdOf tid)) (children node)
  then Some node
  else firstFound (fun child => findParentOf child tid) (children node).

(** [traverse] of [FloorplanView.tsx]: the nodes of a tree, a node before its
    children. *)
Fixpoint traverse (node : ModuleNode) : list ModuleNode :=
  node :: flat_map traverse (children node).

(** The node a parent search may return: one with a child of that id. *)
Definition hasChildWithId (p : ModuleNode) (id : string) : bool :=
  existsb (fun c => String.eqb (n_id c) id) (children p).

(** ** The layout ([utils.ts], lines 86-116) *)

Record LayoutRect : Type := mkLayoutRect {
  l_id : string;
  l_parentId : string;
  l_name : string;
  l_x : float;
  l_y : float;
  l_w : float;
  l_h : float;
  isInternal : bool;
  actualNode : ModuleNode
}.

(** [place]: the rectangle of the node, the rectangle of its local logic,
    then the rectangles of its children, in the order of the
    [rects.push] calls. *)
Fixpoint place (config : TechNodeConfig) (node : ModuleNode) (absX absY : float)
    (parentId : string) {struct node} : list LayoutRect :=
  let size := calculatePhysicalSize node config in
  let effectiveAR := effectiveInternalAR node in
  let hL := PrimFloat.sqrt (localArea (stats size) / effectiveAR) in
  let wL := hL * effectiveAR in
  {| l_id := n_id node; l_parentId := parentId; l_name := n_name node;
     l_x := absX; l_y := absY; l_w := sz_w size; l_h := sz_h size;
     isInternal := false; actualNode := node |}
  :: {| l_id := n_id node ++ ":internal"; l_parentId := n_id node;
        l_name := "[Local Logic]";
        l_x := absX + GLOBAL_MARGIN + JS.or_num (internalX node) 0;
        l_y := absY + GLOBAL_HEADER + JS.or_num (internalY node) 0;
        l_w := wL; l_h := hL; isInternal := true; actualNode := node |}
  :: flat_map
       (fun child =>
          place config child
            (absX + GLOBAL_MARGIN + JS.or_num (n_x child) 0)
            (absY + GLOBAL_HEADER + JS.or_num (n_y child) 0)
            (n_id node))
       (children node).

Record Layout : Type := mkLayout {
  rects : list LayoutRect;
  rootW : float;
  rootH : float
}.

Definition performLayout (root : ModuleNode) (config : TechNodeConfig) : Layout :=
  let rootResult := calculatePhysicalSize root config in
  {| rects := place config root 0 0 "root_parent";
     rootW := sz_w rootResult; rootH := sz_h rootResult |}.

(** ** The canvas ([AutoLayoutView.tsx]) *)

(** [getSmallestRectAt] (lines 58-64): the rectangles under the point, and
    of those the first of least area. *)
Definition hitsAt (rs : list LayoutRect) (x y : float) : list LayoutRect :=
  filter (fun r => (l_x r <=? x) && (x <=? l_x r + l_w r)
                   && (l_y r <=? y) && (y <=? l_y r + l_h r)) rs.

Definition smaller (prev curr : LayoutRect) : LayoutRect :=
  if l_w curr * l_h curr <? l_w prev * l_h prev then curr else prev.

Definition getSmallestRectAt (rs : list LayoutRect) (x y : float)
  : option LayoutRect :=
  match hitsAt rs x y with
  | [] => None
  | first :: others => Some (fold_left smaller others first)
  end.

(** [layout.rects.find(r => r.id === realId && !r.isInternal)] (lines 201-202
    and 218-219): the rectangle of the selected module. *)
Definition moduleRectOf (rs : list LayoutRect) (selectedId : string)
  : option LayoutRect :=
  find (fun r => String.eqb (l_id r) (realIdOf selectedId) && negb (isInternal r)) rs.

(** ** Import ([App.tsx], lines 10-30, and [constants.ts]) *)

(** What [enhanceWithGeometry] reads: a node whose geometry fields, link flag
    and children may be missing.  The fields it copies unread are those of
    [ModuleNode]. *)
Inductive RawNode : Type := mkRawNode {
  r_id : string;
  r_name : string;
  r_registers : float;
  r_memoryBits : float;
  r_logicGates : float;
  r_x : option float;
  r_y : option float;
  r_internalX : option float;
  r_internalY : option float;
  r_aspectRatio : option float;
  r_internalAspectRatio : option float;
  r_isRatioLinked : option bool;
  r_children : option (list RawNode);
  r_color : option string
}.

(** [v || d] for a field that may be missing. *)
Definition or_field (v : option float) (d : float) : float :=
  match v with Some x => JS.or_num x d | None => d end.

Fixpoint enhanceWithGeometry (node : RawNode) : ModuleNode :=
  let children' :=
    match r_children node with
    | Some cs => map enhanceWithGeometry cs
    | None => []
    end in
  let hasChildren := negb (Nat.eqb (List.length children') 0) in
  let isRatioLinked' :=
    match r_isRatioLinked node with Some b => b | None => negb hasChildren end in
  {| n_id := r_id node; n_name := r_name node;
     registers := r_registers node; memoryBits := r_memoryBits node;
     logicGates := r_logicGates node;
     n_x := or_field (r_x node) 0;
     n_y := or_field (r_y node) 0;
     internalX := or_field (r_internalX node) 0;
     internalY := or_field (r_internalY node) 0;
     aspectRatio := or_field (r_aspectRatio node) 1;
     internalAspectRatio :=
       or_field (r_internalAspectRatio node) (or_field (r_aspectRatio node) 1);
     isRatioLinked := isRatioLinked';
     children := children';
     color := r_color node |}.

(** [TECH_NODES['7nm']], the technology the application starts with. *)
Definition tech7nm : TechNodeConfig :=
  {| cfg_name := "7nm FinFET"; dffArea := 0.48; gateArea := 0.06;
     sramAreaPerBit := 0.027; utilization := 0.70 |}.

Definition rawLeaf (id name : string) (regs mem gates ar x y : float) : RawNode :=
  {| r_id := id; r_name := name; r_registers := regs; r_memoryBits := mem;
     r_logicGates := gates; r_x := Some x; r_y := Some y;
     r_internalX := None; r_internalY := None; r_aspectRatio := Some ar;
     r_internalAspectRatio := None; r_isRatioLinked := None;
     r_children := Some []; r_color := None |}.

(** [INITIAL_DATA]. *)
Definition INITIAL_DATA : RawNode :=
  {| r_id := "root"; r_name := "SoC_Top"; r_registers := 10000;
     r_memoryBits := 1024 * 1024; r_logicGates := 50000;
     r_x := Some 0; r_y := Some 0; r_internalX := Some 0; r_internalY := Some 0;
     r_aspectRatio := Some 1; r_internalAspectRatio := None;
     r_isRatioLinked := None;
     r_children :=
       Some
         [ {| r_id := "cpu_sub"; r_name := "CPU_Cluster"; r_registers := 500000;
              r_memoryBits := 8 * 1024 * 1024; r_logicGates := 2000000;
              r_x := Some 40; r_y := Some 40;
              r_internalX := None; r_internalY := None;
              r_aspectRatio := Some 1.5; r_internalAspectRatio := None;
              r_isRatioLinked := None;
              r_children :=
                Some [ rawLeaf "core0" "Core_0" 100000 (256 * 1024) 400000 1 20 20;
                       rawLeaf "core1" "Core_1" 100000 (256 * 1024) 400000 1 150 20 ];
              r_color := None |};
           rawLeaf "gpu_sub" "GPU_Core" 800000 (16 * 1024 * 1024) 5000000 2 40 400;
           rawLeaf "npu_sub" "NPU_Accel" 300000 (32 * 1024 * 1024) 1500000 0.8 500 40 ];
     r_color := None |}.

(** The tree the application starts with:
    [useState(enhanceWithGeometry(INITIAL_DATA))]. *)
Definition initialData : ModuleNode := enhanceWithGeometry INITIAL_DATA.

(** ** Editing ([App.tsx], lines 53-61 and 147-159) *)

(** [updates] of [handleFullUpdateNode]: a whole node passed as
    [Partial<ModuleNode>]. *)
Definition allFields (n : ModuleNode) : PartialModuleNode :=
  {| u_id := Some (n_id n); u_name := Some (n_name n);
     u_registers := Some (registers n); u_memoryBits := Some (memoryBits n);
     u_logicGates := Some (logicGates n); u_x := Some (n_x n); u_y := Some (n_y n);
     u_internalX := Some (internalX n); u_internalY := Some (internalY n);
     u_aspectRatio := Some (aspectRatio n);
     u_internalAspectRatio := Some (internalAspectRatio n);
     u_isRatioLinked := Some (isRatioLinked n);
     u_children := Some (children n);
     u_color := match color n with Some c => Some (Some c) | None => None end |}.

Definition handleFullUpdateNode (prev updatedNode : ModuleNode) : ModuleNode :=
  updateNodeInTree prev (n_id updatedNode) (allFields updatedNode).

(** [onDelete]: the new state after the handler ran. *)
Definition onDelete (data : ModuleNode) (id : string) : ModuleNode :=
  if String.eqb id "root" then data
  else match deleteNodeInTree data id with
       | Some newData => newData
       | None => data
       end.

(** The node [onAddChild] adds, under the id it was given by the clock. *)
Definition newBlock (newId : string) : ModuleNode :=
  {| n_id := newId; n_name := "BLOCK_NEW"; registers := 1000; memoryBits := 0;
     logicGates := 5000; n_x := 20; n_y := 20; internalX := 0; internalY := 0;
     aspectRatio := 1; internalAspectRatio := 1; isRatioLinked := false;
     children := []; color := None |}.

Definition onAddChild (data : ModuleNode) (parentId newId : string) : ModuleNode :=
  addNodeToParent data parentId (newBlock newId).

(** ** The module form ([ModuleForm.tsx]) *)


(** [toDisplayAR] (lines 20-24).  [-(1 / ratio).toFixed(2)] negates the
    number that the rendering of [1 / ratio] reads as. *)
Definition toDisplayAR (ratio : float) : float :=
  if JS.falsy ratio || (ratio <=? 0) then 1
  else if 1 <=? ratio then JS.toFixed2 ratio
  else - JS.toFixed2 (1 / ratio).


(** [selectedNode] ([App.tsx], lines 39-51), the node the form is given:
    none without a selection ([null] or the empty string), else the search
    [findNode] for the part of the id before its first colon. *)
Fixpoint findNode (realId : string) (node : ModuleNode) {struct node}
  : option ModuleNode :=
  if String.eqb (n_id node) realId then Some node
  else firstFound (findNode realId) (children node).

Definition selectedNode (data : ModuleNode) (selectedId : option string)
  : option ModuleNode :=
  match selectedId with
  | None | Some EmptyString => None
  | Some id => findNode (realIdOf id) data
  end.

(** [handleTidyUp] (lines 84-89) with the [onFullUpdate] it is given: the
    state after the button was pressed.  Without a selected node the form
    has no button. *)
Definition handleTidyUp (data : ModuleNode) (config : TechNodeConfig)
    (selectedId : option string) : ModuleNode :=
  match selectedNode data selectedId with
  | Some node => handleFullUpdateNode data (organizeChildrenMosaic node config)
  | None => data
  end.

(** [handleOptimize] (lines 91-102) with the [onFullUpdate] it is given: the
    state after the button was pressed.  With overlaps it shows them and
    returns. *)
Definition handleOptimize (data : ModuleNode) (config : TechNodeConfig)
    (selectedId : option string) (deepOptimize : bool) : ModuleNode :=
  match selectedNode data selectedId with
  | Some node =>
      match checkOverlapsInModule node config with
      | _ :: _ => data
      | [] =>
          handleFullUpdateNode data
            (if deepOptimize then optimizeLayoutRecursive node config
             else organizeChildrenMosaic node config)
      end
  | None => data
  end.

(** ** What a rearrangement keeps *)

(** A module with its stored position set aside. *)
Definition atOrigin (c : ModuleNode) : ModuleNode :=
  spread c
    {| u_id := None; u_name := None; u_registers := None;
       u_memoryBits := None; u_logicGates := None;
       u_x := Some 0; u_y := Some 0;
       u_internalX := None; u_internalY := None;
       u_aspectRatio := None; u_internalAspectRatio := None;
       u_isRatioLinked := None; u_children := None; u_color := None |}.

(** What identifies a module and what it holds. *)
Definition inventory (n : ModuleNode) : string * string * float * float * float * bool :=
  (n_id n, n_name n, registers n, memoryBits n, logicGates n, isRatioLinked n).

(** [resolveTargetRect] ([AutoLayoutView.tsx], lines 46-56): the local-logic
    rectangle of a module without children stands for the module. *)
Definition resolveTargetRect (data : ModuleNode) (rs : list LayoutRect)
    (rect : option LayoutRect) : option LayoutRect :=
  match rect with
  | None => None
  | Some rect =>
      if isInternal rect then
        match findModuleById data (l_id rect) with
        | Some ownerModule =>
            match children ownerModule with
            | [] =>
                match find (fun r => String.eqb (l_id r) (n_id ownerModule)
                                     && negb (isInternal r)) rs with
                | Some moduleRect => Some moduleRect
                | None => Some rect
                end
            | _ :: _ => Some rect
            end
        | None => Some rect
        end
      else Some rect
  end.

(** ** What the statements below speak of *)

(** What a rectangle of the layout shows of the module it stands for. *)
Definition drawsItsModule (config : TechNodeConfig) (r : LayoutRect) : Prop :=
  if isInternal r
  then l_id r = (n_id (actualNode r) ++ ":internal")%string
       /\ l_parentId r = n_id (actualNode r)
       /\ (l_w r, l_h r) = localBlock (actualNode r) config
  else l_id r = n_id (actualNode r)
       /\ l_name r = n_name (actualNode r)
       /\ l_w r = sz_w (calculatePhysicalSize (actualNode r) config)
       /\ l_h r = sz_h (calculatePhysicalSize (actualNode r) config).

(** The area the pick compares. *)
Definition area (r : LayoutRect) : float := l_w r * l_h r.

(** The children an entity list stands for, positions set aside. *)
Definition childrenOfKinds (ks : list EntityKind) : list ModuleNode :=
  flat_map (fun k => match k with Local => [] | Child o => [atOrigin o] end) ks.

(** A stored value that the calculator reads as it is: not [NaN], and zero
    only as [+0]. *)
Definition settled (v : float) : Prop := JS.or_num v 0 = v.

(** A ratio that the calculator reads as it is: neither zero nor [NaN]. *)
Definition truthy (v : float) : Prop := JS.falsy v = false.

(** A module whose geometry the calculator reads as it is. *)
Definition wellFormed (n : ModuleNode) : Prop :=
  settled (n_x n) /\ settled (n_y n)
  /\ settled (internalX n) /\ settled (internalY n)
  /\ truthy (aspectRatio n) /\ truthy (internalAspectRatio n).

(** A tree read back as import data. *)
Fixpoint asRaw (n : ModuleNode) : RawNode :=
  {| r_id := n_id n; r_name := n_name n; r_registers := registers n;
     r_memoryBits := memoryBits n; r_logicGates := logicGates n;
     r_x := Some (n_x n); r_y := Some (n_y n);
     r_internalX := Some (internalX n); r_internalY := Some (internalY n);
     r_aspectRatio := Some (aspectRatio n);
     r_internalAspectRatio := Some (internalAspectRatio n);
     r_isRatioLinked := Some (isRatioLinked n);
     r_children := Some (map asRaw (children n));
     r_color := color n |}.

(** * Facts about binary64 arithmetic

    Derived from the specification of the primitive operations
    ([FloatAxioms]) by case analysis on [spec_float]. *)

Module FloatFacts.

(** *** Classes of values *)

(** Zero of either sign, positive finite or [+Infinity]. *)
Definition SFnonneg (s : spec_float) : bool :=
  match s with
  | S754_nan => false
  | S754_zero _ => true
  | S754_infinity b | S754_finite b _ _ => negb b
  end.

(** Negative finite or [-Infinity]. *)
Definition SFneg (s : spec_float) : bool :=
  match s with
  | S754_infinity b | S754_finite b _ _ => b
  | _ => false
  end.

Definition SFis_nan (s : spec_float) : bool :=
  match s with S754_nan => true | _ => false end.

Definition SFis_zero (s : spec_float) : bool :=
  match s with S754_zero _ => true | _ => false end.

Definition SFis_finite (s : spec_float) : bool :=
  match s with S754_zero _ | S754_finite _ _ _ => true | _ => false end.

Lemma Prim2SF_0 : Prim2SF 0 = S754_zero false.
Proof. reflexivity. Qed.

Lemma Prim2SF_nan : Prim2SF nan = S754_nan.
Proof. reflexivity. Qed.

Lemma Prim2SF_infinity : Prim2SF infinity = S754_infinity false.
Proof. reflexivity. Qed.

Lemma SFcompare_refl s : SFis_nan s = false -> SFcompare s s = Some Eq.
Proof.
  destruct s as [[]|[]| |[] m e]; simpl; try reflexivity; try discriminate;
    intros _; rewrite Z.compare_refl, Pos.compare_cont_refl; reflexivity.
Qed.

Lemma SFcompare_swap s t : SFcompare t s = option_map CompOpp (SFcompare s t).
Proof.
  destruct s as [[]|[]| |[] m e], t as [[]|[]| |[] m' e']; simpl; try reflexivity;
    rewrite (Z.compare_antisym e e'); destruct (e ?= e')%Z; simpl; try reflexivity;
    rewrite (Pos.compare_cont_antisym m m' Eq); simpl;
    try rewrite CompOpp_involutive; reflexivity.
Qed.

Lemma SFcompare_None s t :
  SFcompare s t = None -> SFis_nan s = true \/ SFis_nan t = true.
Proof.
  destruct s as [[]|[]| |[] m e], t as [[]|[]| |[] m' e']; simpl;
    auto; discriminate.
Qed.

Lemma SFcompare_Some s t c :
  SFcompare s t = Some c -> SFis_nan s = false /\ SFis_nan t = false.
Proof.
  destruct s as [[]|[]| |[] m e], t as [[]|[]| |[] m' e']; simpl;
    auto; discriminate.
Qed.

(** *** The comparisons of the source, read on [spec_float] *)

Lemma is_nan_spec x : is_nan x = SFis_nan (Prim2SF x).
Proof.
  unfold is_nan. rewrite eqb_spec. unfold SFeqb.
  destruct (SFis_nan (Prim2SF x)) eqn:E.
  - destruct (Prim2SF x); try discriminate. reflexivity.
  - rewrite SFcompare_refl by assumption. reflexivity.
Qed.

Lemma leb0_spec x : (0 <=? x) = SFnonneg (Prim2SF x).
Proof.
  rewrite leb_spec, Prim2SF_0.
  destruct (Prim2SF x) as [[]|[]| |[] m e]; reflexivity.
Qed.

Lemma ltb0_spec x : (x <? 0) = SFneg (Prim2SF x).
Proof.
  rewrite ltb_spec, Prim2SF_0.
  destruct (Prim2SF x) as [[]|[]| |[] m e]; reflexivity.
Qed.

Lemma eqb0_spec x : (x =? 0) = SFis_zero (Prim2SF x).
Proof.
  rewrite eqb_spec, Prim2SF_0.
  destruct (Prim2SF x) as [[]|[]| |[] m e]; reflexivity.
Qed.

Lemma classify_NZero x : classify x = NZero <-> Prim2SF x = S754_zero true.
Proof.
  rewrite classify_spec. unfold SF64classify, SFclassify.
  destruct (Prim2SF x) as [[]|[]| |[] m e]; split; intros H;
    try discriminate; try reflexivity;
    destruct (Z.eqb _ _); discriminate.
Qed.

Lemma classify_PZero x : classify x = PZero <-> Prim2SF x = S754_zero false.
Proof.
  rewrite classify_spec. unfold SF64classify, SFclassify.
  destruct (Prim2SF x) as [[]|[]| |[] m e]; split; intros H;
    try discriminate; try reflexivity;
    destruct (Z.eqb _ _); discriminate.
Qed.

(** *** Rounding keeps the sign *)

Section Round.
Variables prec emax : Z.

(** [s] is not [NaN] and has sign [sx]. *)
Definition has_sign (sx : bool) (s : spec_float) : Prop :=
  match s with
  | S754_nan => False
  | S754_zero b | S754_infinity b | S754_finite b _ _ => b = sx
  end.

Lemma shr_1_nonneg mrs : (0 <= shr_m mrs)%Z -> (0 <= shr_m (shr_1 mrs))%Z.
Proof.
  destruct mrs as [m r s]; simpl.
  destruct m as [|[p|p|]|[p|p|]]; simpl; lia.
Qed.

Lemma iter_shr_1_nonneg p : forall mrs,
  (0 <= shr_m mrs)%Z -> (0 <= shr_m (iter_pos shr_1 p mrs))%Z.
Proof.
  induction p as [p IH|p IH|]; intros mrs H; simpl.
  - apply IH, IH, shr_1_nonneg, H.
  - apply IH, IH, H.
  - apply shr_1_nonneg, H.
Qed.

Lemma shr_fexp_nonneg m e l :
  (0 <= m)%Z -> (0 <= shr_m (fst (shr_fexp prec emax m e l)))%Z.
Proof.
  intros H. unfold shr_fexp, shr.
  assert (H0 : (0 <= shr_m (shr_record_of_loc m l))%Z)
    by (destruct l as [|[]]; exact H).
  destruct (Z.sub _ e); simpl; auto using iter_shr_1_nonneg.
Qed.

Lemma round_nearest_even_nonneg m l :
  (0 <= m)%Z -> (0 <= round_nearest_even m l)%Z.
Proof.
  intros H. unfold round_nearest_even.
  destruct l as [|[]]; try destruct (Z.even m); lia.
Qed.

Lemma binary_round_aux_sign sx mx ex lx :
  (0 <= mx)%Z -> has_sign sx (binary_round_aux prec emax sx mx ex lx).
Proof.
  intros H. unfold binary_round_aux.
  pose proof (shr_fexp_nonneg mx ex lx H) as H1.
  destruct (shr_fexp prec emax mx ex lx) as [mrs' e']. simpl in H1.
  pose proof (shr_fexp_nonneg _ e' loc_Exact
                (round_nearest_even_nonneg _ (loc_of_shr_record mrs') H1)) as H2.
  destruct (shr_fexp prec emax _ e' loc_Exact) as [mrs'' e'']. simpl in H2.
  destruct (shr_m mrs'') as [|p|p]; simpl; try reflexivity; try lia.
  destruct (Z.leb _ _); reflexivity.
Qed.


Lemma binary_round_sign sx mx ex : has_sign sx (binary_round prec emax sx mx ex).
Proof.
  unfold binary_round. destruct (shl_align _ _ _) as [mz ez].
  apply binary_round_aux_sign. lia.
Qed.

(** *** Rounding a positive mantissa above the least exponent *)

Hypothesis prec_pos : (0 < prec)%Z.

(** Not [NaN], not a zero, and of sign [sx]. *)
Definition nonzero_of_sign (sx : bool) (s : spec_float) : Prop :=
  match s with
  | S754_finite b _ _ | S754_infinity b => b = sx
  | _ => False
  end.

Lemma shr_1_div2 mrs : (0 <= shr_m mrs -> shr_m (shr_1 mrs) = shr_m mrs / 2)%Z.
Proof.
  intros H. rewrite <- Z.div2_div.
  destruct mrs as [m r s]; simpl in *.
  destruct m as [|[p|p|]|[p|p|]]; simpl; try reflexivity; lia.
Qed.

Lemma pow2_xO p : (2 ^ Zpos p~0 = 2 ^ Zpos p * 2 ^ Zpos p)%Z.
Proof.
  rewrite (Pos2Z.inj_xO p).
  replace (2 * Zpos p)%Z with (Zpos p + Zpos p)%Z by lia.
  apply Z.pow_add_r; lia.
Qed.

Lemma pow2_xI p : (2 ^ Zpos p~1 = 2 * (2 ^ Zpos p * 2 ^ Zpos p))%Z.
Proof.
  rewrite (Pos2Z.inj_xI p).
  replace (2 * Zpos p + 1)%Z with (1 + (Zpos p + Zpos p))%Z by lia.
  rewrite Z.pow_add_r, Z.pow_add_r by lia. reflexivity.
Qed.

(** [n] right shifts divide the mantissa by [2^n]. *)
Lemma iter_shr_1_div p : forall mrs,
  (0 <= shr_m mrs)%Z ->
  shr_m (iter_pos shr_1 p mrs) = (shr_m mrs / 2 ^ Zpos p)%Z.
Proof.
  induction p as [p IH|p IH|]; intros mrs H; simpl iter_pos.
  - assert (HP : (0 < 2 ^ Zpos p)%Z) by (apply Z.pow_pos_nonneg; lia).
    rewrite IH, IH, shr_1_div2 by auto using iter_shr_1_nonneg, shr_1_nonneg.
    rewrite pow2_xI, !Z.div_div by lia. reflexivity.
  - assert (HP : (0 < 2 ^ Zpos p)%Z) by (apply Z.pow_pos_nonneg; lia).
    rewrite IH, IH by auto using iter_shr_1_nonneg.
    rewrite pow2_xO, !Z.div_div by lia. reflexivity.
  - rewrite shr_1_div2 by exact H. reflexivity.
Qed.

Lemma digits2_pos_lower M : (2 ^ (Zpos (digits2_pos M) - 1) <= Zpos M)%Z.
Proof.
  induction M as [M IH|M IH|]; simpl digits2_pos.
  - rewrite Pos2Z.inj_succ.
    replace (Z.succ (Zpos (digits2_pos M)) - 1)%Z
      with (1 + (Zpos (digits2_pos M) - 1))%Z by lia.
    rewrite Z.pow_add_r by lia. lia.
  - rewrite Pos2Z.inj_succ.
    replace (Z.succ (Zpos (digits2_pos M)) - 1)%Z
      with (1 + (Zpos (digits2_pos M) - 1))%Z by lia.
    rewrite Z.pow_add_r by lia. lia.
  - simpl. lia.
Qed.

(** The shift to the format's exponent keeps at least one digit. *)
Lemma shr_fexp_pos M E l :
  (SpecFloat.emin prec emax <= E)%Z ->
  (0 < shr_m (fst (shr_fexp prec emax (Zpos M) E l)))%Z
  /\ (SpecFloat.emin prec emax <= snd (shr_fexp prec emax (Zpos M) E l))%Z.
Proof.
  intros HE. unfold shr_fexp, shr. simpl Zdigits2.
  set (d := Zpos (digits2_pos M)).
  assert (Hm : shr_m (shr_record_of_loc (Zpos M) l) = Zpos M)
    by (destruct l as [|[]]; reflexivity).
  destruct (SpecFloat.fexp prec emax (d + E) - E)%Z as [|n|n] eqn:En; simpl;
    try (rewrite Hm; split; lia).
  assert (Hn : Zpos n = (d - prec)%Z
               /\ (SpecFloat.emin prec emax <= E + Zpos n)%Z).
  { unfold SpecFloat.fexp in En. lia. }
  destruct Hn as [Hn He]. split; [|exact He].
  rewrite iter_shr_1_div by (rewrite Hm; lia). rewrite Hm.
  apply Z.div_str_pos. split; [lia|].
  apply Z.le_trans with (2 ^ (d - 1))%Z; [|apply digits2_pos_lower].
  apply Z.pow_le_mono_r; lia.
Qed.

Lemma round_nearest_even_pos m l : (0 < m -> 0 < round_nearest_even m l)%Z.
Proof.
  intros H. unfold round_nearest_even.
  destruct l as [|[]]; try destruct (Z.even m); lia.
Qed.

(** A positive mantissa at an exponent from [emin] on is not rounded to
    zero. *)
Lemma binary_round_aux_pos sx M E l :
  (SpecFloat.emin prec emax <= E)%Z ->
  nonzero_of_sign sx (binary_round_aux prec emax sx (Zpos M) E l).
Proof.
  intros HE. unfold binary_round_aux.
  destruct (shr_fexp_pos M E l HE) as [H1 H1'].
  destruct (shr_fexp prec emax (Zpos M) E l) as [mrs' e']. simpl in H1, H1'.
  pose proof (round_nearest_even_pos _ (loc_of_shr_record mrs') H1) as H2.
  destruct (round_nearest_even (shr_m mrs') (loc_of_shr_record mrs')) as [|M2|M2];
    try lia.
  destruct (shr_fexp_pos M2 e' loc_Exact H1') as [H3 _].
  destruct (shr_fexp prec emax (Zpos M2) e' loc_Exact) as [mrs'' e'']. simpl in H3.
  destruct (shr_m mrs'') as [|p|p]; try lia.
  destruct (Z.leb _ _); reflexivity.
Qed.

Lemma binary_round_pos sx M E :
  (SpecFloat.emin prec emax <= E)%Z ->
  nonzero_of_sign sx (binary_round prec emax sx M E).
Proof.
  intros HE. unfold binary_round, shl_align.
  set (E' := SpecFloat.fexp prec emax (Zpos (digits2_pos M) + E)).
  assert (HE' : (SpecFloat.emin prec emax <= E')%Z)
    by (unfold E', SpecFloat.fexp; lia).
  destruct (E' - E)%Z; apply binary_round_aux_pos; assumption.
Qed.
End Round.

Lemma has_sign_nonneg s : has_sign false s -> SFnonneg s = true.
Proof. destruct s as [b|b| |b m e]; simpl; intros H; subst; tauto. Qed.

(** *** Non-negative values *)

(** [0 <= x]: a number, and not below zero. *)
Definition nonneg (x : float) : Prop := (0 <=? x) = true.

(** [x < 0] is false: [x] is [NaN] or not below zero. *)
Definition notneg (x : float) : Prop := (x <? 0) = false.

Lemma nonneg_notneg x : nonneg x -> notneg x.
Proof.
  unfold nonneg, notneg. rewrite leb0_spec, ltb0_spec.
  destruct (Prim2SF x) as [[]|[]| |[] m e]; simpl; congruence.
Qed.

Lemma notneg_nonneg x : notneg x -> is_nan x = false -> nonneg x.
Proof.
  unfold nonneg, notneg. rewrite leb0_spec, ltb0_spec, is_nan_spec.
  destruct (Prim2SF x) as [[]|[]| |[] m e]; simpl; congruence.
Qed.

Lemma add_nonneg a b : nonneg a -> nonneg b -> nonneg (a + b).
Proof.
  unfold nonneg. rewrite !leb0_spec, add_spec. unfold SF64add, SFadd.
  destruct (Prim2SF a) as [[]|[]| |[] m e], (Prim2SF b) as [[]|[]| |[] m' e'];
    simpl; try congruence.
  intros _ _. apply has_sign_nonneg, binary_round_sign.
Qed.

Lemma is_finite_spec x : is_finite x = SFis_finite (Prim2SF x).
Proof.
unfold is_finite, is_infinity.
rewrite is_nan_spec, eqb_spec, abs_spec, Prim2SF_infinity.
destruct (Prim2SF x) as [[]|[]| |[] m e]; reflexivity.
Qed.

Lemma falsy_spec x : JS.falsy x = SFis_nan (Prim2SF x) || SFis_zero (Prim2SF x).
Proof. unfold JS.falsy. rewrite is_nan_spec, eqb0_spec. reflexivity. Qed.

(** *** [Math.max] and [Math.min] *)

(** [Math.max] read on [spec_float]. *)
Lemma max_spec a b :
JS.max a b =
match SFcompare (Prim2SF a) (Prim2SF b) with
| None => nan
| Some Lt => b
| Some Gt => a
| Some Eq => match classify a with NZero => b | _ => a end
end.
Proof.
unfold JS.max. rewrite compare_spec.
destruct (SFcompare _ _) as [[]|]; reflexivity.
Qed.

Lemma min_spec a b :
JS.min a b =
match SFcompare (Prim2SF a) (Prim2SF b) with
| None => nan
| Some Lt => a
| Some Gt => b
| Some Eq => match classify a with PZero => b | _ => a end
end.
Proof.
unfold JS.min. rewrite compare_spec.
destruct (SFcompare _ _) as [[]|]; reflexivity.
Qed.

Lemma SFcompare_nonneg s t c :
SFcompare s t = Some c -> c <> Gt -> SFnonneg s = true -> SFnonneg t = true.
Proof.
destruct s as [[]|[]| |[] m e], t as [[]|[]| |[] m' e']; simpl;
  intros H; inversion H; subst; congruence.
Qed.

Lemma max_nonneg a b : nonneg a -> nonneg b -> nonneg (JS.max a b).
Proof.
unfold nonneg. rewrite max_spec, !leb0_spec. intros Ha Hb.
destruct (SFcompare _ _) as [[]|] eqn:E; try assumption.
- destruct (classify a); assumption.
- apply SFcompare_None in E.
  destruct (Prim2SF a), (Prim2SF b), E; discriminate.
Qed.


Lemma nan_eqb x : (nan =? x) = false.
Proof. rewrite eqb_spec, Prim2SF_nan. reflexivity. Qed.

Lemma eqb_refl x : is_nan x = false -> (x =? x) = true.
Proof. unfold is_nan. destruct (x =? x); simpl; congruence. Qed.

Lemma leb_refl x : is_nan x = false -> (x <=? x) = true.
Proof.
rewrite is_nan_spec, leb_spec. unfold SFleb. intros H.
rewrite SFcompare_refl by assumption. reflexivity.
Qed.

(** The three comparisons of [b] with [a], from the comparison of [a]
  with [b]. *)
Lemma compare_cases a b :
match SFcompare (Prim2SF a) (Prim2SF b) with
| Some Eq => (a =? b) = true /\ (b =? a) = true /\ (a <=? b) = true
             /\ (b <=? a) = true /\ (a <? b) = false /\ (b <? a) = false
| Some Lt => (a =? b) = false /\ (b =? a) = false /\ (a <=? b) = true
             /\ (b <=? a) = false /\ (a <? b) = true /\ (b <? a) = false
| Some Gt => (a =? b) = false /\ (b =? a) = false /\ (a <=? b) = false
             /\ (b <=? a) = true /\ (a <? b) = false /\ (b <? a) = true
| None => (a =? b) = false /\ (b =? a) = false /\ (a <=? b) = false
          /\ (b <=? a) = false /\ (a <? b) = false /\ (b <? a) = false
end.
Proof.
rewrite !eqb_spec, !leb_spec, !ltb_spec. unfold SFeqb, SFleb, SFltb.
rewrite (SFcompare_swap (Prim2SF a) (Prim2SF b)).
destruct (SFcompare (Prim2SF a) (Prim2SF b)) as [[]|]; simpl; repeat split.
Qed.

Lemma compare_not_nan a b c :
SFcompare (Prim2SF a) (Prim2SF b) = Some c -> is_nan a = false /\ is_nan b = false.
Proof. rewrite !is_nan_spec. apply SFcompare_Some. Qed.

(** [Math.max(a, b) == a] exactly when [b <= a]. *)
Lemma max_eqb_l a b : (JS.max a b =? a) = (b <=? a).
Proof.
rewrite max_spec. pose proof (compare_cases a b) as H.
destruct (SFcompare (Prim2SF a) (Prim2SF b)) as [c|] eqn:E.
- destruct (compare_not_nan _ _ _ E) as [Ha Hb].
  destruct c; try destruct (classify a);
    repeat match goal with
           | |- (a =? a) = _ => rewrite (eqb_refl a Ha)
           end; intuition congruence.
- rewrite nan_eqb. intuition congruence.
Qed.

(** A maximum that is a number is at least each argument. *)
Lemma max_ge a b :
is_nan (JS.max a b) = false ->
(a <=? JS.max a b) = true /\ (b <=? JS.max a b) = true.
Proof.
rewrite max_spec. pose proof (compare_cases a b) as H.
destruct (SFcompare (Prim2SF a) (Prim2SF b)) as [c|] eqn:E.
- destruct (compare_not_nan _ _ _ E) as [Ha Hb]. intros _.
  pose proof (leb_refl a Ha). pose proof (leb_refl b Hb).
  destruct c; try destruct (classify a); intuition congruence.
- intros Hn. rewrite is_nan_spec, Prim2SF_nan in Hn. discriminate.
Qed.

(** A minimum that is a number is at most the maximum. *)
Lemma min_le_max a b :
is_nan (JS.min a b) = false -> (JS.min a b <=? JS.max a b) = true.
Proof.
rewrite max_spec, min_spec. pose proof (compare_cases a b) as H.
destruct (SFcompare (Prim2SF a) (Prim2SF b)) as [c|] eqn:E.
- destruct (compare_not_nan _ _ _ E) as [Ha Hb]. intros _.
  pose proof (leb_refl a Ha). pose proof (leb_refl b Hb).
  destruct c; try destruct (classify a); intuition congruence.
- intros Hn. rewrite is_nan_spec, Prim2SF_nan in Hn. discriminate.
Qed.

(** *** Signs of products, quotients and square roots *)






(** *** Zeros *)

(** [x == 0]: a zero of either sign. *)
Definition isZero (x : float) : Prop := (x =? 0) = true.

Lemma isZero_spec x : isZero x <-> exists b, Prim2SF x = S754_zero b.
Proof.
unfold isZero. rewrite eqb0_spec.
destruct (Prim2SF x) as [b|b| |b m e]; simpl; split;
  try discriminate; try (intros [b' H]; discriminate); eauto.
Qed.

Lemma isZero_nonneg x : isZero x -> nonneg x.
Proof.
  unfold isZero, nonneg. rewrite eqb0_spec, leb0_spec.
  destruct (Prim2SF x) as [[]|[]| |[] m e]; simpl; congruence.
Qed.

Lemma or_num_zero x : isZero x -> JS.or_num x 0 = 0.
Proof. unfold isZero, JS.or_num, JS.falsy. intros ->. rewrite orb_true_r. reflexivity. Qed.

Lemma mul_zero_finite a b : isZero a -> is_finite b = true -> isZero (a * b).
Proof.
rewrite is_finite_spec, !isZero_spec, mul_spec. unfold SF64mul, SFmul.
intros [sa ->].
destruct (Prim2SF b) as [sb|sb| |sb m e]; simpl; try discriminate; eauto.
Qed.

Lemma mul_finite_zero a b : is_finite a = true -> isZero b -> isZero (a * b).
Proof.
rewrite is_finite_spec, !isZero_spec, mul_spec. unfold SF64mul, SFmul.
intros Ha [sb ->].
destruct (Prim2SF a) as [sa|sa| |sa m e]; simpl in *; try discriminate; eauto.
Qed.

Lemma add_zero_zero a b : isZero a -> isZero b -> isZero (a + b).
Proof.
rewrite !isZero_spec, add_spec. unfold SF64add, SFadd.
intros [[] ->] [[] ->]; simpl; eauto.
Qed.

Lemma div_zero_truthy a b : isZero a -> JS.falsy b = false -> isZero (a / b).
Proof.
rewrite falsy_spec, !isZero_spec, div_spec. unfold SF64div, SFdiv.
intros [sa ->].
destruct (Prim2SF b) as [sb|sb| |sb m e]; simpl; try discriminate; eauto.
Qed.

Lemma sqrt_zero a : isZero a -> isZero (PrimFloat.sqrt a).
Proof.
rewrite !isZero_spec, sqrt_spec. unfold SF64sqrt, SFsqrt.
intros [sa ->]. eauto.
Qed.

(** [(x || 0) + z] is [x || 0] when [z] is a zero. *)
Lemma or_num_add_zero x z : isZero z -> JS.or_num x 0 + z = JS.or_num x 0.
Proof.
rewrite isZero_spec. intros [sz Hz]. apply Prim2SF_inj.
rewrite add_spec, Hz. unfold JS.or_num.
destruct (JS.falsy x) eqn:E.
- rewrite Prim2SF_0. destruct sz; reflexivity.
- rewrite falsy_spec in E.
  destruct (Prim2SF x) as [sb|sb| |sb m e]; simpl in *;
    try discriminate; reflexivity.
Qed.

(** *** Division by zero *)

Lemma div_pos_zero a : (0 <? a) = true -> a / 0 = infinity.
Proof.
rewrite ltb_spec, Prim2SF_0. intros H. apply Prim2SF_inj.
rewrite div_spec, Prim2SF_0, Prim2SF_infinity.
destruct (Prim2SF a) as [[]|[]| |[] m e]; simpl in *;
  try discriminate; reflexivity.
Qed.

Lemma div_zero_zero a : isZero a -> a / 0 = nan.
Proof.
rewrite isZero_spec. intros [sa Ha]. apply Prim2SF_inj.
rewrite div_spec, Prim2SF_0, Prim2SF_nan, Ha. reflexivity.
Qed.

(** *** Positive values *)

(** Positive finite or [+Infinity]. *)
Definition SFpos (s : spec_float) : bool :=
  match s with
  | S754_finite false _ _ | S754_infinity false => true
  | _ => false
  end.

(** [0 < x]. *)
Definition pos (x : float) : Prop := (0 <? x) = true.

Lemma pos_spec x : (0 <? x) = SFpos (Prim2SF x).
Proof.
  rewrite ltb_spec, Prim2SF_0.
  destruct (Prim2SF x) as [[]|[]| |[] m e]; reflexivity.
Qed.

Lemma pos_nonneg x : pos x -> nonneg x.
Proof.
  unfold pos, nonneg. rewrite pos_spec, leb0_spec.
  destruct (Prim2SF x) as [[]|[]| |[] m e]; simpl; congruence.
Qed.

Lemma pos_not_nan x : pos x -> is_nan x = false.
Proof.
  unfold pos. rewrite pos_spec, is_nan_spec.
  destruct (Prim2SF x) as [[]|[]| |[] m e]; simpl; congruence.
Qed.

Lemma nonzero_of_sign_pos s : nonzero_of_sign false s -> SFpos s = true.
Proof. destruct s as [b|b| |b m e]; simpl; intros H; subst; tauto. Qed.

(** The exponent of a double is at least [emin]. *)
Lemma valid_emin x s m e :
  Prim2SF x = S754_finite s m e -> (SpecFloat.emin prec emax <= e)%Z.
Proof.
  intros H. pose proof (Prim2SF_valid x) as V. rewrite H in V.
  unfold SpecFloat.valid_binary, bounded, canonical_mantissa in V.
  apply andb_prop in V. destruct V as [V _]. apply Z.eqb_eq in V.
  unfold SpecFloat.fexp in V. lia.
Qed.

(** A sum of a non-negative and a positive number is positive. *)
Lemma add_nonneg_pos a b : nonneg a -> pos b -> pos (a + b).
Proof.
  unfold nonneg, pos. rewrite leb0_spec, !pos_spec, add_spec.
  unfold SF64add, SFadd.
  destruct (Prim2SF a) as [[]|[]| |[] m e] eqn:Ea,
           (Prim2SF b) as [[]|[]| |[] m' e'] eqn:Eb;
    simpl; try congruence.
  intros _ _. apply nonzero_of_sign_pos, binary_round_pos; [reflexivity|].
  pose proof (valid_emin _ _ _ _ Ea). pose proof (valid_emin _ _ _ _ Eb). lia.
Qed.

Lemma SFcompare_pos s t c :
  SFcompare s t = Some c -> c <> Lt -> SFpos t = true -> SFpos s = true.
Proof.
  destruct s as [[]|[]| |[] m e], t as [[]|[]| |[] m' e']; simpl;
    intros H; inversion H; subst; congruence.
Qed.

(** A maximum of a non-negative and a positive number is positive. *)
Lemma max_pos_r a b : nonneg a -> pos b -> pos (JS.max a b).
Proof.
  unfold nonneg, pos. rewrite max_spec, leb0_spec, !pos_spec. intros Ha Hb.
  destruct (SFcompare _ _) as [c|] eqn:E.
  - assert (Hc : c <> Lt -> SFpos (Prim2SF a) = true)
      by (intros Hc; exact (SFcompare_pos _ _ _ E Hc Hb)).
    destruct c; try destruct (classify a); try assumption;
      apply Hc; discriminate.
  - apply SFcompare_None in E.
    destruct (Prim2SF a), (Prim2SF b), E; discriminate.
Qed.

(** *** Products, quotients and square roots that are numbers *)

Lemma mul_nonneg_finite a b :
  nonneg a -> is_finite a = true -> nonneg b -> is_finite b = true ->
  nonneg (a * b).
Proof.
  unfold nonneg. rewrite !leb0_spec, !is_finite_spec, mul_spec.
  unfold SF64mul, SFmul.
  destruct (Prim2SF a) as [[]|[]| |[] m e], (Prim2SF b) as [[]|[]| |[] m' e'];
    simpl; try congruence.
  intros _ _ _ _. apply has_sign_nonneg, binary_round_aux_sign. lia.
Qed.

Lemma mul_nonneg_pos_finite a b :
  nonneg a -> pos b -> is_finite b = true -> nonneg (a * b).
Proof.
  unfold nonneg, pos. rewrite !leb0_spec, pos_spec, is_finite_spec, mul_spec.
  unfold SF64mul, SFmul.
  destruct (Prim2SF a) as [[]|[]| |[] m e], (Prim2SF b) as [[]|[]| |[] m' e'];
    simpl; try congruence.
  intros _ _ _. apply has_sign_nonneg, binary_round_aux_sign. lia.
Qed.

Lemma mul_pos_pos a b : pos a -> pos b -> nonneg (a * b).
Proof.
  unfold nonneg, pos. rewrite !pos_spec, leb0_spec, mul_spec.
  unfold SF64mul, SFmul.
  destruct (Prim2SF a) as [[]|[]| |[] m e], (Prim2SF b) as [[]|[]| |[] m' e'];
    simpl; try congruence.
  intros _ _. apply has_sign_nonneg, binary_round_aux_sign. lia.
Qed.

Lemma SFdiv_core_binary_nonneg m1 e1 m2 e2 :
  (0 <= fst (fst (SFdiv_core_binary prec emax (Zpos m1) e1 (Zpos m2) e2)))%Z.
Proof.
  unfold SFdiv_core_binary.
  set (s := (e1 - e2 - _)%Z).
  set (m' := match s with Zpos _ => Z.shiftl (Zpos m1) s | Z0 => Zpos m1 | Zneg _ => 0%Z end).
  assert (Hm : (0 <= m')%Z).
  { unfold m'. destruct s; try lia. apply Z.shiftl_nonneg. lia. }
  destruct (Z.div_eucl m' (Zpos m2)) as [q r] eqn:E. simpl.
  assert (Hq : q = (m' / Zpos m2)%Z) by (unfold Z.div; rewrite E; reflexivity).
  rewrite Hq. apply Z.div_pos; lia.
Qed.

Lemma div_nonneg_pos_finite a b :
  nonneg a -> pos b -> is_finite b = true -> nonneg (a / b).
Proof.
  unfold nonneg, pos. rewrite !leb0_spec, pos_spec, is_finite_spec, div_spec.
  unfold SF64div, SFdiv.
  destruct (Prim2SF a) as [[]|[]| |[] m e], (Prim2SF b) as [[]|[]| |[] m' e'];
    simpl; try congruence.
  intros _ _ _.
  pose proof (SFdiv_core_binary_nonneg m e m' e') as H.
  destruct (SFdiv_core_binary prec emax (Zpos m) e (Zpos m') e') as [[mz ez] lz].
  apply has_sign_nonneg, binary_round_aux_sign, H.
Qed.

Lemma SFsqrt_core_binary_nonneg m e :
  (0 <= fst (fst (SFsqrt_core_binary prec emax (Zpos m) e)))%Z.
Proof.
  unfold SFsqrt_core_binary.
  set (s := (e - _)%Z).
  set (m' := match s with Zpos _ => Z.shiftl (Zpos m) s | Z0 => Zpos m | Zneg _ => 0%Z end).
  pose proof (Z.sqrtrem_sqrt m') as Hq.
  destruct (Z.sqrtrem m') as [q r]. simpl in *. subst q. apply Z.sqrt_nonneg.
Qed.

Lemma sqrt_nonneg a : nonneg a -> nonneg (PrimFloat.sqrt a).
Proof.
  unfold nonneg. rewrite !leb0_spec, sqrt_spec. unfold SF64sqrt, SFsqrt.
  destruct (Prim2SF a) as [[]|[]| |[] m e]; simpl; try congruence.
  intros _.
  pose proof (SFsqrt_core_binary_nonneg m e) as H.
  destruct (SFsqrt_core_binary prec emax (Zpos m) e) as [[mz ez] lz].
  apply has_sign_nonneg, binary_round_aux_sign, H.
Qed.

(** *** [x || d] *)

Lemma or_num_pos x d : pos x -> JS.or_num x d = x.
Proof.
  unfold pos, JS.or_num. rewrite pos_spec, falsy_spec.
  destruct (Prim2SF x) as [[]|[]| |[] m e]; simpl; congruence.
Qed.

Lemma or_num_nonneg x : notneg x -> nonneg (JS.or_num x 0).
Proof.
  unfold JS.or_num. destruct (JS.falsy x) eqn:E; [reflexivity|].
  intros H. apply notneg_nonneg; [exact H|].
  unfold JS.falsy in E. apply orb_false_elim in E. tauto.
Qed.

Lemma or_num_nonneg_finite x :
  nonneg x -> is_finite x = true ->
  nonneg (JS.or_num x 0) /\ is_finite (JS.or_num x 0) = true.
Proof.
  unfold JS.or_num. destruct (JS.falsy x); intros Hn Hf; split;
    trivial; reflexivity.
Qed.

(** ** Rounding is monotone

    Every operation of the area calculator rounds an exact or located value
    to the nearest double.  A located mantissa is read as a code, twice its
    floor plus one when inexact, so that shifting and rounding become
    monotone integer functions of the code. *)

Section Codes.
Local Open Scope Z_scope.

(** The code of a rational [N / D]: twice its floor, plus one when it is
    not an integer. *)
Definition sticky (N D : Z) : Z := 2 * (N / D) + (if N mod D =? 0 then 0 else 1).

Lemma sticky_nonneg N D : 0 <= N -> 0 < D -> 0 <= sticky N D.
Proof.
  intros HN HD. unfold sticky. pose proof (Z.div_pos N D HN HD).
  destruct (N mod D =? 0); lia.
Qed.

Lemma sticky_two c : 0 <= c -> sticky c 2 = c.
Proof.
  intros H. unfold sticky. destruct (Z.eqb_spec (c mod 2) 0) as [E|E];
    pose proof (Z.div_mod c 2); pose proof (Z.mod_pos_bound c 2); lia.
Qed.

Lemma sticky_mono N1 D1 N2 D2 :
  0 <= N1 -> 0 < D1 -> 0 < D2 -> N1 * D2 <= N2 * D1 -> sticky N1 D1 <= sticky N2 D2.
Proof.
  intros HN HD1 HD2 H. unfold sticky.
  pose proof (Z.div_mod N1 D1 ltac:(lia)) as E1.
  pose proof (Z.mod_pos_bound N1 D1 HD1) as B1.
  pose proof (Z.div_mod N2 D2 ltac:(lia)) as E2.
  pose proof (Z.mod_pos_bound N2 D2 HD2) as B2.
  set (q1 := N1 / D1) in *. set (r1 := N1 mod D1) in *.
  set (q2 := N2 / D2) in *. set (r2 := N2 mod D2) in *.
  assert (Hq : q1 <= q2).
  { apply Z.lt_succ_r. apply Z.mul_lt_mono_pos_r with (D1 * D2); [nia|]. nia. }
  destruct (Z.eqb_spec r1 0), (Z.eqb_spec r2 0); try lia.
  assert (q1 < q2); [|lia].
  destruct (Z.eq_dec q1 q2) as [->|]; [|lia]. exfalso. nia.
Qed.

(** Coarsening a code by a factor [E]. *)
Lemma sticky_sticky N D E : 0 <= N -> 0 < D -> 0 < E -> sticky (sticky N D) (2 * E) = sticky N (D * E).
Proof.
  intros HN HD HE. unfold sticky.
  pose proof (Z.div_mod N D ltac:(lia)) as E1.
  pose proof (Z.mod_pos_bound N D HD) as B1.
  set (q := N / D) in *. set (r := N mod D) in *.
  pose proof (Z.div_mod q E ltac:(lia)) as E2.
  pose proof (Z.mod_pos_bound q E HE) as B2.
  set (q' := q / E) in *. set (r' := q mod E) in *.
  set (t := if r =? 0 then 0 else 1).
  assert (Ht : 0 <= t <= 1) by (unfold t; destruct (r =? 0); lia).
  assert (Hd : (2 * q + t) / (2 * E) = q').
  { symmetry. apply Z.div_unique with (2 * r' + t); [lia|]. lia. }
  assert (Hm : (2 * q + t) mod (2 * E) = 2 * r' + t).
  { symmetry. apply Z.mod_unique with q'; [lia|]. lia. }
  assert (Hd' : N / (D * E) = q').
  { symmetry. apply Z.div_unique with (r' * D + r); [nia|]. nia. }
  assert (Hm' : N mod (D * E) = r' * D + r).
  { symmetry. apply Z.mod_unique with q'; [nia|]. nia. }
  rewrite Hd, Hm, Hd', Hm'. unfold t.
  destruct (Z.eqb_spec r 0), (Z.eqb_spec (2 * r' + 0) 0), (Z.eqb_spec (r' * D + r) 0);
    try lia; try nia;
    destruct (Z.eqb_spec (2 * r' + 1) 0); try lia; nia.
Qed.

Lemma sticky_div4 N D : 0 <= N -> 0 < D -> sticky N D / 4 = N / (2 * D).
Proof.
  intros HN HD. unfold sticky.
  pose proof (Z.div_mod N D ltac:(lia)) as E1.
  pose proof (Z.mod_pos_bound N D HD) as B1.
  set (q := N / D) in *. set (r := N mod D) in *.
  set (t := if r =? 0 then 0 else 1).
  assert (Ht : 0 <= t <= 1) by (unfold t; destruct (r =? 0); lia).
  pose proof (Z.div_mod q 2 ltac:(lia)) as E2.
  pose proof (Z.mod_pos_bound q 2 ltac:(lia)) as B2.
  set (h := q / 2) in *. set (b := q mod 2) in *.
  clearbody h b t. clearbody q r.
  transitivity h.
  - symmetry. apply Z.div_unique with (2 * b + t); lia.
  - assert (Hb : b = 0 \/ b = 1) by lia.
    apply Z.div_unique with (b * D + r); destruct Hb as [-> | ->]; nia.
Qed.

(** *** Codes of shift records *)

Definition b2z (b : bool) : Z := if b then 1 else 0.

Definition shr_code (mrs : shr_record) : Z :=
  4 * shr_m mrs + 2 * b2z (shr_r mrs) + b2z (shr_s mrs).

Lemma shr_code_nonneg mrs : 0 <= shr_m mrs -> 0 <= shr_code mrs.
Proof. unfold shr_code, b2z. destruct (shr_r mrs), (shr_s mrs); lia. Qed.

Lemma shr_code_div4 mrs : shr_code mrs / 4 = shr_m mrs.
Proof.
  unfold shr_code. symmetry.
  unfold b2z.
  apply Z.div_unique with (2 * (if shr_r mrs then 1 else 0)
                           + (if shr_s mrs then 1 else 0));
    destruct (shr_r mrs), (shr_s mrs); lia.
Qed.

Lemma shr_code_of_loc m l :
  shr_code (shr_record_of_loc m l)
  = 4 * m + match l with
            | loc_Exact => 0
            | loc_Inexact Lt => 1
            | loc_Inexact Eq => 2
            | loc_Inexact Gt => 3
            end.
Proof.
  destruct l as [|[]]; unfold shr_code, b2z;
    cbn [shr_record_of_loc shr_m shr_r shr_s]; lia.
Qed.

Lemma shr_code_shr_1 mrs : 0 <= shr_m mrs -> shr_code (shr_1 mrs) = sticky (shr_code mrs) 4.
Proof.
  destruct mrs as [m r s]. unfold shr_code, sticky. simpl shr_m. simpl shr_r. simpl shr_s.
  intros Hm.
  assert (Hd : (4 * m + 2 * b2z r + b2z s) / 4 = m).
  { symmetry. apply Z.div_unique with (2 * b2z r + b2z s);
      destruct r, s; simpl; lia. }
  assert (Hmod : (4 * m + 2 * b2z r + b2z s) mod 4 = 2 * b2z r + b2z s).
  { symmetry. apply Z.mod_unique with m; destruct r, s; simpl; lia. }
  rewrite Hd, Hmod.
  destruct m as [|[p|p|]|p]; try lia; destruct r, s; simpl b2z; simpl orb;
    cbn [shr_1 shr_m shr_r shr_s b2z]; try reflexivity;
    try rewrite (Pos2Z.inj_xI p); try rewrite (Pos2Z.inj_xO p); simpl Z.eqb; lia.
Qed.

Lemma shr_code_iter_shr_1 p : forall mrs,
  0 <= shr_m mrs -> shr_code (iter_pos shr_1 p mrs) = sticky (shr_code mrs) (2 * 2 ^ Zpos p).
Proof.
  induction p as [p IH|p IH|]; intros mrs H; simpl iter_pos.
  - assert (HP : 0 < 2 ^ Zpos p) by (apply Z.pow_pos_nonneg; lia).
    pose proof (shr_code_nonneg mrs H) as Hc.
    rewrite IH, IH, shr_code_shr_1 by auto using iter_shr_1_nonneg, shr_1_nonneg.
    rewrite (sticky_sticky (shr_code mrs) 4 (2 ^ Zpos p)) by lia.
    rewrite (sticky_sticky (shr_code mrs) (4 * 2 ^ Zpos p) (2 ^ Zpos p)) by lia.
    f_equal. rewrite (Pos2Z.inj_xI p).
    replace (2 * Zpos p + 1) with (1 + (Zpos p + Zpos p)) by lia.
    rewrite !Z.pow_add_r by lia. lia.
  - assert (HP : 0 < 2 ^ Zpos p) by (apply Z.pow_pos_nonneg; lia).
    pose proof (shr_code_nonneg mrs H) as Hc.
    rewrite IH, IH by auto using iter_shr_1_nonneg.
    rewrite (sticky_sticky (shr_code mrs) (2 * 2 ^ Zpos p) (2 ^ Zpos p)) by lia.
    f_equal. rewrite (Pos2Z.inj_xO p).
    replace (2 * Zpos p) with (Zpos p + Zpos p) by lia.
    rewrite !Z.pow_add_r by lia. lia.
  - rewrite shr_code_shr_1 by exact H. reflexivity.
Qed.

(** *** Digits *)

Lemma digits2_pos_bounds M :
  2 ^ (Zpos (digits2_pos M) - 1) <= Zpos M < 2 ^ Zpos (digits2_pos M).
Proof.
  induction M as [M IH|M IH|]; simpl digits2_pos.
  - rewrite Pos2Z.inj_succ, (Pos2Z.inj_xI M).
    replace (Z.succ (Zpos (digits2_pos M)) - 1)
      with (1 + (Zpos (digits2_pos M) - 1)) by lia.
    rewrite Z.pow_succ_r, Z.pow_add_r by lia. change (2 ^ 1) with 2. lia.
  - rewrite Pos2Z.inj_succ, (Pos2Z.inj_xO M).
    replace (Z.succ (Zpos (digits2_pos M)) - 1)
      with (1 + (Zpos (digits2_pos M) - 1)) by lia.
    rewrite Z.pow_succ_r, Z.pow_add_r by lia. change (2 ^ 1) with 2. lia.
  - simpl. lia.
Qed.

Lemma Zdigits2_nonneg m : 0 <= Zdigits2 m.
Proof. destruct m; simpl; lia. Qed.

Lemma Zdigits2_bounds m :
  0 < m -> 2 ^ (Zdigits2 m - 1) <= m < 2 ^ Zdigits2 m.
Proof. destruct m as [|p|p]; try lia. intros _. apply digits2_pos_bounds. Qed.

Lemma Zdigits2_pos m : 0 < m -> 0 < Zdigits2 m.
Proof. destruct m; simpl; lia. Qed.

(** [m] has at most [k] digits when it is below [2^k]. *)
Lemma Zdigits2_le m k : 0 <= m -> 0 <= k -> m < 2 ^ k -> Zdigits2 m <= k.
Proof.
  intros Hm Hk H. destruct (Z.eq_dec m 0) as [->|Hz]; [simpl; lia|].
  pose proof (Zdigits2_bounds m ltac:(lia)) as [Hl _].
  destruct (Z_le_gt_dec (Zdigits2 m) k) as [|Hgt]; [assumption|exfalso].
  assert (2 ^ k <= 2 ^ (Zdigits2 m - 1)) by (apply Z.pow_le_mono_r; lia). lia.
Qed.

(** [m] has at least [k] digits when it is at least [2^(k-1)]. *)
Lemma Zdigits2_ge m k : 0 < k -> 2 ^ (k - 1) <= m -> k <= Zdigits2 m.
Proof.
  intros Hk H.
  assert (Hm : 0 < m) by (pose proof (Z.pow_pos_nonneg 2 (k - 1)); lia).
  pose proof (Zdigits2_bounds m Hm) as [_ Hu].
  destruct (Z_le_gt_dec k (Zdigits2 m)) as [|Hgt]; [assumption|exfalso].
  assert (2 ^ Zdigits2 m <= 2 ^ (k - 1)) by (apply Z.pow_le_mono_r; lia). lia.
Qed.

Lemma Zdigits2_mono m1 m2 : 0 <= m1 <= m2 -> Zdigits2 m1 <= Zdigits2 m2.
Proof.
  intros [H1 H2]. destruct (Z.eq_dec m1 0) as [->|Hz];
    [apply Zdigits2_nonneg|].
  apply Zdigits2_ge; [apply Zdigits2_pos; lia|].
  pose proof (Zdigits2_bounds m1 ltac:(lia)). lia.
Qed.

(** The digits of a quotient by a power of two. *)
Lemma Zdigits2_div_pow2 m n :
  0 <= n -> 2 ^ n <= m -> Zdigits2 (m / 2 ^ n) = Zdigits2 m - n.
Proof.
  intros Hn H.
  assert (HP : 0 < 2 ^ n) by (apply Z.pow_pos_nonneg; lia).
  assert (Hm : 0 < m) by lia.
  pose proof (Zdigits2_bounds m Hm) as [Hl Hu].
  assert (Hd : n < Zdigits2 m).
  { destruct (Z_lt_le_dec n (Zdigits2 m)) as [|Hge]; [assumption|exfalso].
    assert (2 ^ Zdigits2 m <= 2 ^ n)
      by (apply Z.pow_le_mono_r; [lia|lia]). lia. }
  assert (Hq : 0 < m / 2 ^ n) by (apply Z.div_str_pos; lia).
  apply Z.le_antisymm.
  - apply Zdigits2_le; [lia|lia|].
    apply Z.div_lt_upper_bound; [lia|].
    rewrite <- Z.pow_add_r by lia. replace (n + (Zdigits2 m - n)) with (Zdigits2 m) by lia.
    exact Hu.
  - apply Zdigits2_ge; [lia|].
    apply Z.div_le_lower_bound; [lia|].
    rewrite <- Z.pow_add_r by lia.
    replace (n + (Zdigits2 m - n - 1)) with (Zdigits2 m - 1) by lia. exact Hl.
Qed.

Lemma div_pow2_small m n : 0 <= m -> m < 2 ^ n -> m / 2 ^ n = 0.
Proof. intros. apply Z.div_small. lia. Qed.

(** *** Rounding to nearest even on codes *)

Definition rne (c : Z) : Z :=
  c / 4 + (if c mod 4 =? 3 then 1
           else if (c mod 4 =? 2) && Z.odd (c / 4) then 1 else 0).

Lemma rne_bounds c : c / 4 <= rne c <= c / 4 + 1.
Proof.
  unfold rne. destruct (c mod 4 =? 3); [lia|].
  destruct ((c mod 4 =? 2) && Z.odd (c / 4)); lia.
Qed.

Lemma rne_mono c1 c2 : 0 <= c1 <= c2 -> rne c1 <= rne c2.
Proof.
  intros [H1 H2].
  assert (Hq : c1 / 4 <= c2 / 4) by (apply Z.div_le_mono; lia).
  destruct (Z.eq_dec (c1 / 4) (c2 / 4)) as [E|E].
  - unfold rne. rewrite E.
    pose proof (Z.div_mod c1 4 ltac:(lia)). pose proof (Z.div_mod c2 4 ltac:(lia)).
    pose proof (Z.mod_pos_bound c1 4 ltac:(lia)).
    pose proof (Z.mod_pos_bound c2 4 ltac:(lia)).
    assert (Hm : c1 mod 4 <= c2 mod 4) by lia.
    destruct (Z.eqb_spec (c1 mod 4) 3), (Z.eqb_spec (c2 mod 4) 3); try lia;
      destruct (Z.eqb_spec (c1 mod 4) 2), (Z.eqb_spec (c2 mod 4) 2); simpl;
      try lia; destruct (Z.odd (c2 / 4)); lia.
  - pose proof (rne_bounds c1). pose proof (rne_bounds c2). lia.
Qed.

Lemma rne_spec mrs :
  round_nearest_even (shr_m mrs) (loc_of_shr_record mrs) = rne (shr_code mrs).
Proof.
  unfold rne. rewrite shr_code_div4.
  assert (Hm : shr_code mrs mod 4 = 2 * b2z (shr_r mrs) + b2z (shr_s mrs)).
  { unfold shr_code. symmetry. apply Z.mod_unique with (shr_m mrs);
      unfold b2z; destruct (shr_r mrs), (shr_s mrs); lia. }
  rewrite Hm. destruct mrs as [m [] []]; simpl; rewrite <- ?Z.negb_even;
    destruct (Z.even m); simpl; lia.
Qed.
End Codes.

Section Monotone.
Local Open Scope Z_scope.
Variables prec emax : Z.
Hypothesis prec_pos : 0 < prec.
Hypothesis emin_nonpos : SpecFloat.emin prec emax <= 0.

Abbreviation fexp := (SpecFloat.fexp prec emax).
Abbreviation emin := (SpecFloat.emin prec emax).
Abbreviation valid := (SpecFloat.valid_binary prec emax).

Lemma fexp_ge_emin k : emin <= fexp k.
Proof. unfold SpecFloat.fexp. lia. Qed.

Lemma fexp_mono k1 k2 : k1 <= k2 -> fexp k1 <= fexp k2.
Proof. unfold SpecFloat.fexp. lia. Qed.

(** The shift to the format's exponent, on codes. *)
Lemma shr_fexp_code m e l :
  0 <= m ->
  let n := Z.max 0 (fexp (Zdigits2 m + e) - e) in
  shr_code (fst (shr_fexp prec emax m e l))
  = sticky (shr_code (shr_record_of_loc m l)) (2 * 2 ^ n)
  /\ snd (shr_fexp prec emax m e l) = e + n
  /\ 0 <= shr_m (fst (shr_fexp prec emax m e l)).
Proof.
  intros Hm n. unfold shr_fexp, shr.
  assert (H0 : 0 <= shr_m (shr_record_of_loc m l))
    by (destruct l as [|[]]; exact Hm).
  pose proof (shr_code_nonneg _ H0) as Hc.
  subst n. destruct (fexp (Zdigits2 m + e) - e) as [|p|p] eqn:E; simpl fst; simpl snd.
  - rewrite Z.max_l by lia. change (2 * 2 ^ 0) with 2. rewrite sticky_two by exact Hc.
    repeat split; [lia|exact H0].
  - rewrite Z.max_r by lia. rewrite shr_code_iter_shr_1 by exact H0.
    repeat split. apply iter_shr_1_nonneg, H0.
  - rewrite Z.max_l by lia. change (2 * 2 ^ 0) with 2. rewrite sticky_two by exact Hc.
    repeat split; [lia|exact H0].
Qed.

(** The result of rounding, from the rounded mantissa [mB] at the format's
    exponent [E]. *)
Definition rounded (sx : bool) (mB E : Z) : spec_float :=
  if mB =? 0 then S754_zero sx
  else if mB <? 2 ^ prec then
    (if E <=? emax - prec then S754_finite sx (Z.to_pos mB) E
     else S754_infinity sx)
  else
    (if E + 1 <=? emax - prec then S754_finite sx (Z.to_pos (2 ^ (prec - 1))) (E + 1)
     else S754_infinity sx).

(** The input is at or below the format's exponent for its size, as every
    operation provides it. *)
Definition fine (m e : Z) : Prop := e <= fexp (Zdigits2 m + e).

Definition loc_code (l : location) : Z :=
  match l with
  | loc_Exact => 0
  | loc_Inexact Lt => 1
  | loc_Inexact Eq => 2
  | loc_Inexact Gt => 3
  end.

(** The mantissa at the format's exponent. *)
Lemma shifted_mantissa m e c :
  0 <= m -> 0 <= c -> c / 4 = m -> fine m e ->
  let E := fexp (Zdigits2 m + e) in
  let mA := sticky c (2 * 2 ^ (E - e)) / 4 in
  mA = m / 2 ^ (E - e)
  /\ 0 <= mA < 2 ^ prec
  /\ (emin < E -> 2 ^ (prec - 1) <= mA).
Proof.
  intros Hm Hc Hcm Hf E mA. unfold fine in Hf. fold E in Hf.
  assert (Hn : 0 <= E - e) by lia.
  assert (HP : 0 < 2 ^ (E - e)) by (apply Z.pow_pos_nonneg; lia).
  assert (HA : mA = m / 2 ^ (E - e)).
  { unfold mA. rewrite sticky_div4 by lia.
    replace (2 * (2 * 2 ^ (E - e))) with (4 * 2 ^ (E - e)) by lia.
    rewrite <- Z.div_div by lia. rewrite Hcm. reflexivity. }
  assert (Hpp : 0 < 2 ^ prec) by (apply Z.pow_pos_nonneg; lia).
  split; [exact HA|]. rewrite HA.
  destruct (Z_lt_le_dec m (2 ^ (E - e))) as [Hs|Hb].
  - rewrite div_pow2_small by lia. split; [lia|].
    intros HE. exfalso.
    assert (HEq : E = Zdigits2 m + e - prec) by (unfold E, SpecFloat.fexp in *; lia).
    assert (Hm0 : 0 < m).
    { destruct (Z.eq_dec m 0) as [->|]; [|lia]. simpl in HEq. lia. }
    pose proof (Zdigits2_bounds m Hm0) as [Hl _].
    assert (2 ^ (E - e) <= 2 ^ (Zdigits2 m - 1)) by (apply Z.pow_le_mono_r; lia).
    lia.
  - pose proof (Zdigits2_div_pow2 m (E - e) Hn Hb) as Hd.
    assert (Hq : 0 < m / 2 ^ (E - e)) by (apply Z.div_str_pos; lia).
    pose proof (Zdigits2_bounds _ Hq) as [Hl Hu]. rewrite Hd in Hl, Hu.
    assert (HE : Zdigits2 m + e - prec <= E) by (unfold E, SpecFloat.fexp; lia).
    split; [split; [lia|]|].
    + apply Z.lt_le_trans with (2 ^ (Zdigits2 m - (E - e))); [exact Hu|].
      apply Z.pow_le_mono_r; lia.
    + intros HE'.
      assert (HEq : E = Zdigits2 m + e - prec) by (unfold E, SpecFloat.fexp in *; lia).
      replace (prec - 1) with (Zdigits2 m - (E - e) - 1) by lia. exact Hl.
Qed.

(** [binary_round_aux] is [rounded] of the mantissa rounded at the format's
    exponent. *)
Lemma binary_round_aux_rounded sx m e l :
  0 <= m -> fine m e ->
  let E := fexp (Zdigits2 m + e) in
  let mB := rne (sticky (4 * m + loc_code l) (2 * 2 ^ (E - e))) in
  binary_round_aux prec emax sx m e l = rounded sx mB E
  /\ 0 <= mB <= 2 ^ prec
  /\ (emin < E -> 2 ^ (prec - 1) <= mB).
Proof.
  intros Hm Hf E mB.
  assert (Hlc : 0 <= loc_code l <= 3) by (destruct l as [|[]]; simpl; lia).
  set (c := 4 * m + loc_code l) in *.
  assert (Hc : 0 <= c) by lia.
  assert (Hcm : c / 4 = m)
    by (symmetry; apply Z.div_unique with (loc_code l); lia).
  destruct (shifted_mantissa m e c Hm Hc Hcm Hf) as (HA & HAb & HAl).
  fold E in HA, HAb, HAl.
  set (cA := sticky c (2 * 2 ^ (E - e))) in *.
  pose proof (rne_bounds cA) as HB. fold mB in HB.
  assert (Hpp : 0 < 2 ^ prec) by (apply Z.pow_pos_nonneg; lia).
  assert (HmB : 0 <= mB <= 2 ^ prec) by lia.
  split; [|split; [exact HmB|intros HE; specialize (HAl HE); lia]].
  unfold binary_round_aux.
  destruct (shr_fexp_code m e l Hm) as (Hcode & Hexp & Hnn).
  assert (Hn : Z.max 0 (fexp (Zdigits2 m + e) - e) = E - e)
    by (unfold fine in Hf; fold E; fold E in Hf; lia).
  rewrite Hn in Hcode, Hexp.
  destruct (shr_fexp prec emax m e l) as [mrs' e']. cbn [fst snd] in Hcode, Hexp, Hnn.
  rewrite shr_code_of_loc in Hcode. fold (loc_code l) in Hcode. fold c in Hcode.
  fold cA in Hcode. rewrite rne_spec, Hcode. fold mB.
  replace e' with E by lia.
  destruct (shr_fexp_code mB E loc_Exact ltac:(lia)) as (Hcode2 & Hexp2 & Hnn2).
  destruct (shr_fexp prec emax mB E loc_Exact) as [mrs'' e''].
  cbn [fst snd] in Hcode2, Hexp2, Hnn2.
  pose proof (shr_code_div4 mrs'') as Hm''. rewrite Hcode2 in Hm''.
  rewrite shr_code_of_loc in Hm''. rewrite Z.add_0_r in Hm''.
  unfold rounded.
  destruct (Z.eqb_spec mB 0) as [Hz|Hz].
  - (* zero *)
    rewrite Hz in Hm''. rewrite <- Hm''.
    assert (HP2 : 0 < 2 ^ Z.max 0 (fexp (Zdigits2 0 + E) - E))
      by (apply Z.pow_pos_nonneg; lia).
    rewrite sticky_div4 by lia. rewrite Z.div_0_l by lia. reflexivity.
  - destruct (Z.ltb_spec mB (2 ^ prec)) as [Hlt|Hge].
    + (* no carry *)
      assert (Hd : Zdigits2 mB <= prec) by (apply Zdigits2_le; lia).
      assert (Hn2 : Z.max 0 (fexp (Zdigits2 mB + E) - E) = 0).
      { pose proof (fexp_ge_emin (Zdigits2 m + e)). fold E in H.
        unfold SpecFloat.fexp. lia. }
      rewrite Hn2 in *. change (2 * 2 ^ 0) with 2 in Hm''.
      rewrite sticky_two in Hm'' by lia.
      rewrite (Z.mul_comm 4 mB), Z.div_mul in Hm'' by lia.
      rewrite <- Hm''. replace e'' with E by lia.
      destruct mB as [|p|p]; try lia. reflexivity.
    + (* carry *)
      assert (HmBeq : mB = 2 ^ prec) by lia.
      assert (Hd : Zdigits2 mB = prec + 1).
      { apply Z.le_antisymm.
        - apply Zdigits2_le; [lia|lia|]. rewrite HmBeq.
          apply Z.pow_lt_mono_r; lia.
        - apply Zdigits2_ge; [lia|]. replace (prec + 1 - 1) with prec by lia. lia. }
      assert (Hn2 : Z.max 0 (fexp (Zdigits2 mB + E) - E) = 1).
      { pose proof (fexp_ge_emin (Zdigits2 m + e)). fold E in H.
        unfold SpecFloat.fexp. lia. }
      rewrite Hn2 in *. change (2 * 2 ^ 1) with 4 in Hm''.
      rewrite sticky_div4 in Hm'' by lia.
      assert (Hm2 : shr_m mrs'' = 2 ^ (prec - 1)).
      { rewrite <- Hm'', HmBeq. symmetry. apply Z.div_unique with 0; [lia|].
        replace prec with (1 + (prec - 1)) at 1 by lia.
        rewrite Z.pow_add_r by lia. lia. }
      rewrite Hm2. replace e'' with (E + 1) by lia.
      assert (Hpm : 0 < 2 ^ (prec - 1)) by (apply Z.pow_pos_nonneg; lia).
      destruct (2 ^ (prec - 1)) as [|p|p]; try lia. reflexivity.
Qed.

(** *** Rounding keeps the order *)

Lemma finite_leb m1 e1 m2 e2 :
  0 < m1 -> 0 < m2 -> e1 < e2 \/ (e1 = e2 /\ m1 <= m2) ->
  SFleb (S754_finite false (Z.to_pos m1) e1) (S754_finite false (Z.to_pos m2) e2) = true.
Proof.
  intros H1 H2 H. unfold SFleb, SFcompare.
  destruct H as [H|[-> H]].
  - rewrite (proj2 (Z.compare_lt_iff e1 e2) H). reflexivity.
  - rewrite Z.compare_refl.
    change (Pos.compare_cont Eq (Z.to_pos m1) (Z.to_pos m2))
      with (Pos.compare (Z.to_pos m1) (Z.to_pos m2)).
    destruct (Pos.compare (Z.to_pos m1) (Z.to_pos m2)) eqn:E; try reflexivity.
    apply Pos.compare_gt_iff in E. lia.
Qed.

Lemma rounded_mono mB1 E1 mB2 E2 :
  0 <= mB1 <= 2 ^ prec -> 0 <= mB2 <= 2 ^ prec ->
  (E1 = E2 /\ mB1 <= mB2) \/ (E1 < E2 /\ 2 ^ (prec - 1) <= mB2) ->
  SFleb (rounded false mB1 E1) (rounded false mB2 E2) = true.
Proof.
  intros H1 H2 H.
  assert (Hpm : 0 < 2 ^ (prec - 1)) by (apply Z.pow_pos_nonneg; lia).
  assert (Hpp : 2 ^ prec = 2 * 2 ^ (prec - 1)).
  { replace prec with (1 + (prec - 1)) at 1 by lia.
    rewrite Z.pow_add_r by lia. reflexivity. }
  unfold rounded.
  destruct (Z.eqb_spec mB1 0) as [Z1|Z1].
  - destruct (mB2 =? 0); [reflexivity|].
    destruct (mB2 <? 2 ^ prec);
      [destruct (E2 <=? emax - prec)|destruct (E2 + 1 <=? emax - prec)]; reflexivity.
  - destruct (Z.eqb_spec mB2 0) as [Z2|Z2]; [exfalso; lia|].
    destruct (Z.ltb_spec mB2 (2 ^ prec)) as [L2|L2].
    + destruct (Z.leb_spec E2 (emax - prec)) as [B2|B2].
      * destruct (Z.ltb_spec mB1 (2 ^ prec)) as [L1|L1].
        -- destruct (Z.leb_spec E1 (emax - prec)) as [B1|B1]; [|exfalso; lia].
           apply finite_leb; lia.
        -- destruct (Z.leb_spec (E1 + 1) (emax - prec)) as [B1|B1]; [|exfalso; lia].
           apply finite_leb; lia.
      * destruct (mB1 <? 2 ^ prec);
          [destruct (E1 <=? emax - prec)|destruct (E1 + 1 <=? emax - prec)]; reflexivity.
    + destruct (Z.leb_spec (E2 + 1) (emax - prec)) as [B2|B2].
      * destruct (Z.ltb_spec mB1 (2 ^ prec)) as [L1|L1].
        -- destruct (Z.leb_spec E1 (emax - prec)) as [B1|B1]; [|exfalso; lia].
           apply finite_leb; lia.
        -- destruct (Z.leb_spec (E1 + 1) (emax - prec)) as [B1|B1]; [|exfalso; lia].
           apply finite_leb; lia.
      * destruct (mB1 <? 2 ^ prec);
          [destruct (E1 <=? emax - prec)|destruct (E1 + 1 <=? emax - prec)]; reflexivity.
Qed.

(** Two mantissas in order at a common exponent have their sizes in
    order. *)
Lemma sizes_in_order m1 e1 m2 e2 :
  0 <= m1 -> 0 <= m2 ->
  m1 / 2 ^ (Z.max e1 e2 - e1) <= m2 / 2 ^ (Z.max e1 e2 - e2) ->
  Zdigits2 m1 + e1 <= Zdigits2 m2 + e2 \/ (m1 = 0 /\ e2 < e1).
Proof.
  intros H1 H2 H. set (s := Z.max e1 e2) in *.
  assert (P1 : 0 < 2 ^ (s - e1)) by (apply Z.pow_pos_nonneg; lia).
  assert (P2 : 0 < 2 ^ (s - e2)) by (apply Z.pow_pos_nonneg; lia).
  pose proof (Zdigits2_nonneg m2) as N2.
  destruct (Z_lt_le_dec m1 (2 ^ (s - e1))) as [S1|B1].
  - destruct (Z_le_gt_dec e1 e2) as [L|G].
    + left. assert (Zdigits2 m1 <= s - e1) by (apply Zdigits2_le; lia). lia.
    + right. split; [|lia]. replace (s - e1) with 0 in S1 by lia.
      change (2 ^ 0) with 1 in S1. lia.
  - left.
    assert (Q1 : 0 < m1 / 2 ^ (s - e1)) by (apply Z.div_str_pos; lia).
    assert (B2 : 2 ^ (s - e2) <= m2).
    { destruct (Z_lt_le_dec m2 (2 ^ (s - e2))) as [S2|]; [|assumption].
      rewrite (div_pow2_small m2) in H by lia. lia. }
    pose proof (Zdigits2_div_pow2 m1 (s - e1) ltac:(lia) B1) as D1.
    pose proof (Zdigits2_div_pow2 m2 (s - e2) ltac:(lia) B2) as D2.
    pose proof (Zdigits2_mono (m1 / 2 ^ (s - e1)) (m2 / 2 ^ (s - e2)) ltac:(lia)).
    lia.
Qed.

(** Rounding keeps the order of the codes taken at a common exponent. *)
Lemma binary_round_aux_mono m1 e1 l1 m2 e2 l2 :
  0 <= m1 -> 0 <= m2 -> fine m1 e1 -> fine m2 e2 ->
  sticky (4 * m1 + loc_code l1) (2 * 2 ^ (Z.max e1 e2 - e1))
  <= sticky (4 * m2 + loc_code l2) (2 * 2 ^ (Z.max e1 e2 - e2)) ->
  SFleb (binary_round_aux prec emax false m1 e1 l1)
        (binary_round_aux prec emax false m2 e2 l2) = true.
Proof.
  intros H1 H2 F1 F2 H.
  destruct (binary_round_aux_rounded false m1 e1 l1 H1 F1)
    as (-> & Hb1 & Hl1).
  destruct (binary_round_aux_rounded false m2 e2 l2 H2 F2)
    as (-> & Hb2 & Hl2).
  cbv zeta in *.
  assert (Hlc1 : 0 <= loc_code l1 <= 3) by (destruct l1 as [|[]]; simpl; lia).
  assert (Hlc2 : 0 <= loc_code l2 <= 3) by (destruct l2 as [|[]]; simpl; lia).
  set (c1 := 4 * m1 + loc_code l1) in *.
  set (c2 := 4 * m2 + loc_code l2) in *.
  set (E1 := fexp (Zdigits2 m1 + e1)) in *.
  set (E2 := fexp (Zdigits2 m2 + e2)) in *.
  set (s := Z.max e1 e2) in *.
  assert (P1 : 0 < 2 ^ (s - e1)) by (apply Z.pow_pos_nonneg; lia).
  assert (P2 : 0 < 2 ^ (s - e2)) by (apply Z.pow_pos_nonneg; lia).
  assert (Hc1 : c1 / 4 = m1)
    by (symmetry; apply Z.div_unique with (loc_code l1); lia).
  assert (Hc2 : c2 / 4 = m2)
    by (symmetry; apply Z.div_unique with (loc_code l2); lia).
  assert (HE : E1 <= E2).
  { assert (Hq : m1 / 2 ^ (s - e1) <= m2 / 2 ^ (s - e2)).
    { apply (Z.div_le_mono _ _ 4) in H; [|lia].
      rewrite !sticky_div4 in H by lia.
      replace (2 * (2 * 2 ^ (s - e1))) with (4 * 2 ^ (s - e1)) in H by lia.
      replace (2 * (2 * 2 ^ (s - e2))) with (4 * 2 ^ (s - e2)) in H by lia.
      rewrite <- !Z.div_div in H by lia. rewrite Hc1, Hc2 in H. exact H. }
    destruct (sizes_in_order m1 e1 m2 e2 H1 H2 Hq) as [Hd|[Hz Hlt]].
    - apply fexp_mono, Hd.
    - unfold E1. rewrite Hz. simpl Zdigits2. rewrite Z.add_0_l.
      unfold fine in F1. rewrite Hz in F1. simpl Zdigits2 in F1.
      rewrite Z.add_0_l in F1.
      pose proof (fexp_ge_emin (Zdigits2 m2 + e2)). fold E2 in H0.
      unfold SpecFloat.fexp in *. lia. }
  apply rounded_mono; [exact Hb1|exact Hb2|].
  destruct (Z.eq_dec E1 E2) as [Heq|Hne].
  - left. split; [exact Heq|].
    unfold fine in F1, F2. fold E1 in F1. fold E2 in F2.
    assert (PE : 0 < 2 ^ (E2 - s)) by (apply Z.pow_pos_nonneg; lia).
    apply rne_mono. split; [apply sticky_nonneg; [lia|]; apply Z.mul_pos_pos; [lia|];
      apply Z.pow_pos_nonneg; lia|].
    replace (2 * 2 ^ (E1 - e1)) with ((2 * 2 ^ (s - e1)) * 2 ^ (E2 - s)).
    2:{ rewrite <- Z.mul_assoc, <- Z.pow_add_r by lia. do 2 f_equal. lia. }
    replace (2 * 2 ^ (E2 - e2)) with ((2 * 2 ^ (s - e2)) * 2 ^ (E2 - s)).
    2:{ rewrite <- Z.mul_assoc, <- Z.pow_add_r by lia. do 2 f_equal. lia. }
    rewrite <- (sticky_sticky c1 (2 * 2 ^ (s - e1)) (2 ^ (E2 - s))) by lia.
    rewrite <- (sticky_sticky c2 (2 * 2 ^ (s - e2)) (2 ^ (E2 - s))) by lia.
    apply sticky_mono; [apply sticky_nonneg; lia|lia|lia|].
    apply Z.mul_le_mono_nonneg_r; [lia|exact H].
  - right. split; [lia|]. apply Hl2.
    pose proof (fexp_ge_emin (Zdigits2 m1 + e1)). fold E1 in H0. lia.
Qed.

(** *** The order of values [m * 2 ^ e] *)

Definition le_at (k m1 e1 m2 e2 : Z) : Prop :=
  m1 * 2 ^ (e1 - k) <= m2 * 2 ^ (e2 - k).

Lemma pow2_split a b : 0 <= a -> 0 <= b -> 2 ^ (a + b) = 2 ^ a * 2 ^ b.
Proof. intros. apply Z.pow_add_r; assumption. Qed.

Lemma pow2_pos a : 0 <= a -> 0 < 2 ^ a.
Proof. intros. apply Z.pow_pos_nonneg; lia. Qed.

Lemma le_at_down k k' m1 e1 m2 e2 :
  k' <= k -> k <= e1 -> k <= e2 ->
  le_at k m1 e1 m2 e2 <-> le_at k' m1 e1 m2 e2.
Proof.
  intros Hk H1 H2. unfold le_at.
  replace (e1 - k') with ((e1 - k) + (k - k')) by lia.
  replace (e2 - k') with ((e2 - k) + (k - k')) by lia.
  rewrite !pow2_split by lia.
  pose proof (pow2_pos (k - k') ltac:(lia)) as P.
  rewrite !Z.mul_assoc. split; intros H.
  - apply Z.mul_le_mono_nonneg_r; [lia|exact H].
  - apply Z.mul_le_mono_pos_r in H; [exact H|exact P].
Qed.

Lemma le_at_any k k' m1 e1 m2 e2 :
  k <= e1 -> k <= e2 -> k' <= e1 -> k' <= e2 ->
  le_at k m1 e1 m2 e2 -> le_at k' m1 e1 m2 e2.
Proof.
  intros H1 H2 H1' H2' H.
  apply (le_at_down k (Z.min k k')) in H; [|lia|lia|lia].
  apply (le_at_down k' (Z.min k k')); [lia|lia|lia|exact H].
Qed.

Lemma sticky_le_at c1 e1 c2 e2 :
  0 <= c1 -> le_at (Z.min e1 e2) c1 e1 c2 e2 ->
  sticky c1 (2 * 2 ^ (Z.max e1 e2 - e1)) <= sticky c2 (2 * 2 ^ (Z.max e1 e2 - e2)).
Proof.
  intros Hc H. unfold le_at in H.
  pose proof (pow2_pos (Z.max e1 e2 - e1) ltac:(lia)).
  pose proof (pow2_pos (Z.max e1 e2 - e2) ltac:(lia)).
  apply sticky_mono; [exact Hc|lia|lia|].
  replace (Z.max e1 e2 - e2) with (e1 - Z.min e1 e2) by lia.
  replace (Z.max e1 e2 - e1) with (e2 - Z.min e1 e2) by lia.
  lia.
Qed.

(** Rounding exact values keeps their order. *)
Lemma round_exact_mono k m1 e1 m2 e2 :
  0 <= m1 -> 0 <= m2 -> fine m1 e1 -> fine m2 e2 ->
  k <= e1 -> k <= e2 -> le_at k m1 e1 m2 e2 ->
  SFleb (binary_round_aux prec emax false m1 e1 loc_Exact)
        (binary_round_aux prec emax false m2 e2 loc_Exact) = true.
Proof.
  intros H1 H2 F1 F2 K1 K2 H.
  apply binary_round_aux_mono; try assumption.
  simpl loc_code. rewrite !Z.add_0_r.
  apply sticky_le_at; [lia|].
  apply (le_at_any k (Z.min e1 e2)) in H; try lia.
  unfold le_at in *. lia.
Qed.

(** *** Canonical numbers *)

Definition canonical (m : positive) (e : Z) : Prop :=
  fexp (Zdigits2 (Zpos m) + e) = e /\ e <= emax - prec.

Lemma valid_canonical s m e :
  SpecFloat.valid_binary prec emax (S754_finite s m e) = true -> canonical m e.
Proof.
  unfold SpecFloat.valid_binary, bounded, canonical_mantissa, canonical. intros H.
  apply andb_prop in H as [H1 H2].
  apply Z.eqb_eq in H1. apply Z.leb_le in H2.
  split; [exact H1|exact H2].
Qed.

Lemma canonical_fine m e : canonical m e -> fine (Zpos m) e.
Proof. intros [H _]. unfold fine. lia. Qed.

Lemma canonical_digits m e : canonical m e -> Zdigits2 (Zpos m) <= prec.
Proof. intros [H _]. unfold SpecFloat.fexp in H. lia. Qed.

Lemma canonical_upper m e : canonical m e -> Zpos m < 2 ^ prec.
Proof.
  intros H. pose proof (canonical_digits m e H) as Hd.
  pose proof (Zdigits2_bounds (Zpos m) ltac:(lia)) as [_ Hu].
  apply Z.lt_le_trans with (1 := Hu). apply Z.pow_le_mono_r; lia.
Qed.

Lemma canonical_normal m e :
  canonical m e -> emin < e -> 2 ^ (prec - 1) <= Zpos m.
Proof.
  intros [H _] He.
  assert (Hd : Zdigits2 (Zpos m) = prec) by (unfold SpecFloat.fexp in H; lia).
  pose proof (Zdigits2_bounds (Zpos m) ltac:(lia)) as [Hl _].
  rewrite Hd in Hl. exact Hl.
Qed.

Lemma canonical_emin m e : canonical m e -> emin <= e.
Proof. intros [H _]. unfold SpecFloat.fexp in H. lia. Qed.

(** The order of canonical numbers is the order of their values. *)
Lemma canonical_le_at m1 e1 m2 e2 :
  canonical m1 e1 -> canonical m2 e2 ->
  SFleb (S754_finite false m1 e1) (S754_finite false m2 e2) = true ->
  le_at (Z.min e1 e2) (Zpos m1) e1 (Zpos m2) e2.
Proof.
  intros C1 C2 H. unfold SFleb, SFcompare in H. unfold le_at.
  destruct (Z.compare_spec e1 e2) as [->|L|G]; [| |discriminate].
  - rewrite Z.min_id, Z.sub_diag. change (2 ^ 0) with 1.
    change (Pos.compare_cont Eq m1 m2) with (Pos.compare m1 m2) in H.
    destruct (Pos.compare_spec m1 m2); try discriminate; lia.
  - rewrite Z.min_l by lia. rewrite Z.sub_diag. change (2 ^ 0) with 1.
    pose proof (canonical_upper m1 e1 C1).
    pose proof (canonical_emin m1 e1 C1).
    pose proof (canonical_normal m2 e2 C2 ltac:(lia)).
    assert (2 ^ 1 <= 2 ^ (e2 - e1)) by (apply Z.pow_le_mono_r; lia).
    change (2 ^ 1) with 2 in *.
    assert (Hpp : 2 ^ prec = 2 * 2 ^ (prec - 1)).
    { replace prec with (1 + (prec - 1)) at 1 by lia.
      rewrite Z.pow_add_r by lia. reflexivity. }
    nia.
Qed.

(** *** Multiplication *)




(** *** Addition *)

Lemma iter_xO_pow2 d m : Zpos (Pos.iter xO m d) = Zpos m * 2 ^ Zpos d.
Proof.
  induction d as [|d IH] using Pos.peano_ind.
  - simpl. lia.
  - rewrite Pos.iter_succ, Pos2Z.inj_xO, IH, Pos2Z.inj_succ, Z.pow_succ_r by lia.
    lia.
Qed.

Lemma shl_align_spec mx ex ex' :
  snd (shl_align mx ex ex') = Z.min ex ex'
  /\ Zpos (fst (shl_align mx ex ex')) = Zpos mx * 2 ^ (ex - Z.min ex ex').
Proof.
  unfold shl_align. destruct (ex' - ex) as [|d|d] eqn:E; simpl fst; simpl snd.
  - rewrite Z.min_l by lia. rewrite Z.sub_diag. split; lia.
  - rewrite Z.min_l by lia. rewrite Z.sub_diag. split; lia.
  - rewrite Z.min_r by lia. rewrite iter_xO_pow2.
    replace (ex - ex') with (Zpos d) by lia. split; lia.
Qed.

Lemma Zdigits2_mul_pow2 m n :
  0 < m -> 0 <= n -> Zdigits2 (m * 2 ^ n) = Zdigits2 m + n.
Proof.
  intros Hm Hn. pose proof (Zdigits2_bounds m Hm) as [Hl Hu].
  pose proof (Zdigits2_pos m Hm) as Hd.
  pose proof (pow2_pos n Hn) as HP.
  apply Z.le_antisymm.
  - apply Zdigits2_le; [nia|lia|]. rewrite pow2_split by lia.
    apply Z.mul_lt_mono_pos_r; assumption.
  - apply Zdigits2_ge; [lia|].
    replace (Zdigits2 m + n - 1) with ((Zdigits2 m - 1) + n) by lia.
    rewrite pow2_split by lia. apply Z.mul_le_mono_nonneg_r; [lia|assumption].
Qed.

(** [binary_round] re-aligns its input, keeping the value, and rounds. *)
Lemma binary_round_aligned m e :
  exists m' e',
    binary_round prec emax false m e
    = binary_round_aux prec emax false (Zpos m') e' loc_Exact
    /\ fine (Zpos m') e' /\ e' <= e /\ Zpos m' = Zpos m * 2 ^ (e - e').
Proof.
  unfold binary_round.
  pose proof (shl_align_spec m e (fexp (Zpos (digits2_pos m) + e))) as [He Hm].
  destruct (shl_align m e (fexp (Zpos (digits2_pos m) + e))) as [m' e'].
  simpl fst in *; simpl snd in *.
  exists m', e'. split; [reflexivity|]. rewrite <- He in Hm.
  split; [|split; [lia|exact Hm]].
  unfold fine. rewrite Hm, Zdigits2_mul_pow2 by lia.
  change (Zdigits2 (Zpos m)) with (Zpos (digits2_pos m)).
  replace (Zpos (digits2_pos m) + (e - e') + e')
    with (Zpos (digits2_pos m) + e) by lia.
  lia.
Qed.

Lemma binary_round_mono k m1 e1 m2 e2 :
  k <= e1 -> k <= e2 -> le_at k (Zpos m1) e1 (Zpos m2) e2 ->
  SFleb (binary_round prec emax false m1 e1) (binary_round prec emax false m2 e2)
  = true.
Proof.
  intros K1 K2 H.
  destruct (binary_round_aligned m1 e1) as (m1' & e1' & -> & F1 & L1 & V1).
  destruct (binary_round_aligned m2 e2) as (m2' & e2' & -> & F2 & L2 & V2).
  set (k' := Z.min k (Z.min e1' e2')).
  apply (round_exact_mono k'); try assumption; try lia.
  apply (le_at_down k k') in H; [|lia|lia|lia].
  unfold le_at in *. rewrite V1, V2, <- !Z.mul_assoc, <- !pow2_split by lia.
  replace (e1 - e1' + (e1' - k')) with (e1 - k') by lia.
  replace (e2 - e2' + (e2' - k')) with (e2 - k') by lia.
  exact H.
Qed.

(** Rounding leaves a canonical number as it is. *)
Lemma binary_round_canonical m e :
  canonical m e -> binary_round prec emax false m e = S754_finite false m e.
Proof.
  intros [H B]. unfold binary_round, shl_align.
  change (Zpos (digits2_pos m)) with (Zdigits2 (Zpos m)). rewrite H, Z.sub_diag.
  destruct (binary_round_aux_rounded false (Zpos m) e loc_Exact
              ltac:(lia) ltac:(unfold fine; lia)) as (-> & _ & _).
  cbv zeta. rewrite H, Z.sub_diag. change (2 * 2 ^ 0) with 2.
  simpl loc_code. rewrite Z.add_0_r, sticky_two by lia.
  assert (R : rne (4 * Zpos m) = Zpos m).
  { unfold rne. rewrite (Z.mul_comm 4), Z.div_mul, Z.mod_mul by lia. reflexivity. }
  rewrite R. unfold rounded.
  pose proof (canonical_upper m e (conj H B)) as U.
  destruct (Z.eqb_spec (Zpos m) 0); [lia|].
  destruct (Z.ltb_spec (Zpos m) (2 ^ prec)); [|lia].
  destruct (Z.leb_spec e (emax - prec)); [|lia]. reflexivity.
Qed.

(** Results of rounding are not below zero and not above infinity. *)
Lemma binary_round_aux_above_zero m e l z :
  0 <= m -> fine m e ->
  SFleb (S754_zero z) (binary_round_aux prec emax false m e l) = true.
Proof.
  intros Hm Hf.
  destruct (binary_round_aux_rounded false m e l Hm Hf)
    as (-> & _ & _). cbv zeta. unfold rounded.
  destruct (_ =? 0); [reflexivity|].
  destruct (_ <? _); destruct (_ <=? _); reflexivity.
Qed.

Lemma binary_round_aux_below_infinity m e l :
  0 <= m -> fine m e ->
  SFleb (binary_round_aux prec emax false m e l) (S754_infinity false) = true.
Proof.
  intros Hm Hf.
  destruct (binary_round_aux_rounded false m e l Hm Hf)
    as (-> & _ & _). cbv zeta. unfold rounded.
  destruct (_ =? 0); [reflexivity|].
  destruct (_ <? _); destruct (_ <=? _); reflexivity.
Qed.

Lemma binary_round_above_zero m e z :
  SFleb (S754_zero z) (binary_round prec emax false m e) = true.
Proof.
  destruct (binary_round_aligned m e) as (m' & e' & -> & F & _ & _).
  apply binary_round_aux_above_zero; [lia|exact F].
Qed.

Lemma binary_round_below_infinity m e :
  SFleb (binary_round prec emax false m e) (S754_infinity false) = true.
Proof.
  destruct (binary_round_aligned m e) as (m' & e' & -> & F & _ & _).
  apply binary_round_aux_below_infinity; [lia|exact F].
Qed.

(** The sum of two positive finite numbers. *)
Lemma SFadd_finite mx ex my ey :
  exists M,
    SFadd prec emax (S754_finite false mx ex) (S754_finite false my ey)
    = binary_round prec emax false M (Z.min ex ey)
    /\ Zpos M = Zpos mx * 2 ^ (ex - Z.min ex ey) + Zpos my * 2 ^ (ey - Z.min ex ey).
Proof.
  unfold SFadd. cbn [cond_Zopp].
  pose proof (shl_align_spec mx ex (Z.min ex ey)) as [_ Hx].
  pose proof (shl_align_spec my ey (Z.min ex ey)) as [_ Hy].
  rewrite Z.min_assoc, Z.min_id in Hx.
  replace (Z.min ey (Z.min ex ey)) with (Z.min ex ey) in Hy by lia.
  exists (fst (shl_align mx ex (Z.min ex ey)) + fst (shl_align my ey (Z.min ex ey)))%positive.
  split; [reflexivity|]. rewrite Pos2Z.inj_add, Hx, Hy. reflexivity.
Qed.

Lemma add_core_mono mx ex mx' ex' my ey :
  canonical mx ex -> canonical mx' ex' ->
  SFleb (S754_finite false mx ex) (S754_finite false mx' ex') = true ->
  SFleb (SFadd prec emax (S754_finite false mx ex) (S754_finite false my ey))
        (SFadd prec emax (S754_finite false mx' ex') (S754_finite false my ey))
  = true.
Proof.
  intros Cx Cx' H.
  pose proof (canonical_le_at mx ex mx' ex' Cx Cx' H) as Hle.
  destruct (SFadd_finite mx ex my ey) as (M & -> & HM).
  destruct (SFadd_finite mx' ex' my ey) as (M' & -> & HM').
  set (k := Z.min (Z.min ex ex') ey).
  apply (binary_round_mono k); try lia.
  apply (le_at_down _ k) in Hle; [|lia|lia|lia].
  unfold le_at in *. rewrite HM, HM', !Z.mul_add_distr_r.
  rewrite <- !Z.mul_assoc, <- !pow2_split by lia.
  replace (ex - Z.min ex ey + (Z.min ex ey - k)) with (ex - k) by lia.
  replace (ey - Z.min ex ey + (Z.min ex ey - k)) with (ey - k) by lia.
  replace (ex' - Z.min ex' ey + (Z.min ex' ey - k)) with (ex' - k) by lia.
  replace (ey - Z.min ex' ey + (Z.min ex' ey - k)) with (ey - k) by lia.
  lia.
Qed.

(** Adding a positive finite number does not decrease one. *)
Lemma add_core_increases mx ex my ey :
  canonical my ey ->
  SFleb (S754_finite false my ey)
        (SFadd prec emax (S754_finite false mx ex) (S754_finite false my ey))
  = true.
Proof.
  intros Cy. rewrite <- (binary_round_canonical my ey Cy) at 1.
  destruct (SFadd_finite mx ex my ey) as (M & -> & HM).
  apply (binary_round_mono (Z.min ex ey)); try lia.
  unfold le_at. rewrite HM, Z.sub_diag. change (2 ^ 0) with 1.
  pose proof (pow2_pos (ex - Z.min ex ey) ltac:(lia)). nia.
Qed.

(** *** Division *)




(** *** Square root *)







(** *** The operations, with zeros and infinities *)

Ltac canon :=
  repeat match goal with
  | H : valid (S754_finite _ _ _) = true |- _ => apply valid_canonical in H
  end.

Lemma SFleb_finite_refl m e :
  SFleb (S754_finite false m e) (S754_finite false m e) = true.
Proof.
  unfold SFleb, SFcompare. rewrite Z.compare_refl.
  change (Pos.compare_cont Eq m m) with (Pos.compare m m).
  rewrite Pos.compare_refl. reflexivity.
Qed.

Lemma SFleb_trans x y z :
  SFnonneg x = true -> SFnonneg y = true -> SFnonneg z = true ->
  SFleb x y = true -> SFleb y z = true -> SFleb x z = true.
Proof.
  unfold SFleb.
  destruct x as [[]|[]| |[] m1 e1], y as [[]|[]| |[] m2 e2], z as [[]|[]| |[] m3 e3];
    simpl; try discriminate; try reflexivity; intros _ _ _.
  change (Pos.compare_cont Eq m1 m2) with (Pos.compare m1 m2).
  change (Pos.compare_cont Eq m2 m3) with (Pos.compare m2 m3).
  change (Pos.compare_cont Eq m1 m3) with (Pos.compare m1 m3).
  destruct (Z.compare_spec e1 e2), (Z.compare_spec e2 e3), (Z.compare_spec e1 e3);
    try discriminate; try reflexivity; try lia;
    destruct (Pos.compare_spec m1 m2), (Pos.compare_spec m2 m3),
      (Pos.compare_spec m1 m3); try discriminate; try reflexivity; lia.
Qed.


Lemma SFmul_comm x y : SFmul prec emax x y = SFmul prec emax y x.
Proof.
  destruct x as [[]|[]| |[] m1 e1], y as [[]|[]| |[] m2 e2]; try reflexivity;
    cbn [SFmul xorb]; rewrite (Pos.mul_comm m1 m2), (Z.add_comm e1 e2); reflexivity.
Qed.

Lemma SFadd_mono_l x x' y :
  valid x = true -> valid x' = true -> valid y = true ->
  SFnonneg x = true -> SFnonneg x' = true -> SFnonneg y = true ->
  SFleb x x' = true ->
  SFleb (SFadd prec emax x y) (SFadd prec emax x' y) = true.
Proof.
  intros Vx Vx' Vy Nx Nx' Ny H.
  destruct x as [[]|[]| |[] m1 e1], x' as [[]|[]| |[] m1' e1'], y as [[]|[]| |[] m2 e2];
    try discriminate; try reflexivity; canon;
    try exact H;
    try (destruct (SFadd_finite m1 e1 m2 e2) as (M & -> & _);
         apply binary_round_below_infinity).
  - apply SFleb_finite_refl.
  - apply SFleb_finite_refl.
  - apply add_core_increases; assumption.
  - apply SFleb_finite_refl.
  - apply SFleb_finite_refl.
  - apply add_core_increases; assumption.
  - apply add_core_mono; assumption.
Qed.

Lemma SFadd_comm x y : SFadd prec emax x y = SFadd prec emax y x.
Proof.
  destruct x as [[]|[]| |[] m1 e1], y as [[]|[]| |[] m2 e2]; try reflexivity;
    cbn [SFadd]; rewrite (Z.min_comm e1 e2), Z.add_comm; reflexivity.
Qed.


End Monotone.

(** ** The order of doubles that are not negative *)

Lemma prec_positive : (0 < prec)%Z.
Proof. reflexivity. Qed.


(** [0 <= a <= b]. *)
Definition upto (a b : float) : Prop := nonneg a /\ (a <=? b) = true.

Lemma nonneg_SFnonneg x : nonneg x -> SFnonneg (Prim2SF x) = true.
Proof. unfold nonneg. rewrite leb0_spec. intros H. exact H. Qed.


Lemma upto_r a b : upto a b -> nonneg b.
Proof.
  intros [Ha H]. unfold nonneg in *. rewrite leb0_spec in *. rewrite leb_spec in H.
  unfold SFleb in H. destruct (SFcompare (Prim2SF a) (Prim2SF b)) as [c|] eqn:E;
    [|discriminate].
  apply (SFcompare_nonneg _ _ c E); [|exact Ha]. destruct c; congruence.
Qed.

Lemma upto_refl a : nonneg a -> upto a a.
Proof.
  intros H. split; [exact H|]. apply leb_refl.
  unfold nonneg in H. rewrite leb0_spec in H. rewrite is_nan_spec.
  destruct (Prim2SF a); [reflexivity..|discriminate|reflexivity].
Qed.

Lemma upto_trans a b c : upto a b -> upto b c -> upto a c.
Proof.
  intros Hab Hbc. pose proof (upto_r _ _ Hbc) as Hc.
  destruct Hab as [Ha Hab], Hbc as [Hb Hbc]. split; [exact Ha|].
  rewrite leb_spec in *.
  apply (SFleb_trans _ (Prim2SF b)); try apply nonneg_SFnonneg; assumption.
Qed.


Lemma nonneg_not_nan a : nonneg a -> SFis_nan (Prim2SF a) = false.
Proof.
  unfold nonneg. rewrite leb0_spec. destruct (Prim2SF a); simpl; congruence.
Qed.


Lemma mul_comm a b : a * b = b * a.
Proof.
  apply Prim2SF_inj. rewrite !mul_spec. apply SFmul_comm.
Qed.


Lemma add_upto_l a a' b : upto a a' -> nonneg b -> upto (a + b) (a' + b).
Proof.
  intros H Hb. pose proof (upto_r _ _ H) as Ha'. destruct H as [Ha H].
  split; [apply add_nonneg; assumption|]. rewrite leb_spec in *. rewrite !add_spec.
  apply (SFadd_mono_l prec emax prec_positive);
    try apply Prim2SF_valid; try apply nonneg_SFnonneg; assumption.
Qed.

Lemma add_comm a b : a + b = b + a.
Proof.
  apply Prim2SF_inj. rewrite !add_spec. apply SFadd_comm.
Qed.







Lemma upto_pos a b : pos a -> upto a b -> pos b.
Proof.
  intros Pa [_ H]. unfold pos in *. rewrite pos_spec in *.
  rewrite leb_spec in H. unfold SFleb in H.
  destruct (Prim2SF a) as [[]|[]| |[] ? ?], (Prim2SF b) as [[]|[]| |[] ? ?];
    simpl in *; congruence.
Qed.

End FloatFacts.

(** * The tree and the unfolding of the recursive functions *)

Section TreeInduction.
Variable P : ModuleNode -> Prop.
Hypothesis step : forall node, Forall P (children node) -> P node.

Fixpoint ModuleNode_tree_ind (node : ModuleNode) : P node :=
  step node
    ((fix all (l : list ModuleNode) : Forall P l :=
        match l with
        | [] => Forall_nil P
        | c :: l' => Forall_cons c (ModuleNode_tree_ind c) (all l')
        end) (children node)).
End TreeInduction.

Lemma calculatePhysicalSize_eq node config :
  calculatePhysicalSize node config = sizeWith node config (childrenInfoOf node config).
Proof. destruct node; reflexivity. Qed.

Lemma updateNodeInTree_eq root id updates :
  updateNodeInTree root id updates =
  if String.eqb (n_id root) id then spread root updates
  else withChildren root
         (map (fun child => updateNodeInTree child id updates) (children root)).
Proof. destruct root; reflexivity. Qed.

Lemma deleteNodeInTree_eq root id :
  deleteNodeInTree root id =
  if String.eqb (n_id root) id then None
  else Some (withChildren root
               (dropNull (map (fun child => deleteNodeInTree child id) (children root)))).
Proof. destruct root; reflexivity. Qed.

Lemma addNodeToParent_eq root pId newNode :
  addNodeToParent root pId newNode =
  if String.eqb (n_id root) pId then withChildren root (children root ++ [newNode])
  else withChildren root
         (map (fun child => addNodeToParent child pId newNode) (children root)).
Proof. destruct root; reflexivity. Qed.

Lemma validNode_eq node :
  validNode node =
  nonnegFinite (registers node) && nonnegFinite (memoryBits node)
  && nonnegFinite (logicGates node)
  && posFinite (aspectRatio node) && posFinite (effectiveInternalAR node)
  && (0 <=? n_x node) && (0 <=? n_y node)
  && (0 <=? internalX node) && (0 <=? internalY node)
  && forallb validNode (children node).
Proof. destruct node; reflexivity. Qed.

Lemma treeIds_eq node :
  treeIds node = n_id node :: flat_map treeIds (children node).
Proof. destruct node; reflexivity. Qed.

Lemma fold_left_invariant {A B : Type} (I : A -> Prop) (R : B -> Prop)
    (f : A -> B -> A) (l : list B) :
  (forall a b, I a -> R b -> I (f a b)) ->
  Forall R l -> forall a, I a -> I (fold_left f l a).
Proof.
  intros Hf. induction 1 as [|b l Hb _ IH]; intros a Ha; simpl; [exact Ha|].
  apply IH, Hf; assumption.
Qed.

Lemma withChildren_same root : withChildren root (children root) = root.
Proof. destruct root; reflexivity. Qed.

Lemma map_id_on {A : Type} (f : A -> A) (l : list A) :
  Forall (fun a => f a = a) l -> map f l = l.
Proof. induction 1; simpl; congruence. Qed.

Lemma dropNull_map_Some {A : Type} (f : A -> option A) (l : list A) :
  Forall (fun a => f a = Some a) l -> dropNull (map f l) = l.
Proof.
  unfold dropNull. induction 1 as [|a l Ha _ IH]; simpl; [reflexivity|].
  rewrite Ha, IH. reflexivity.
Qed.

(** An id that is not in a tree is in none of its subtrees, and is not the
    root's. *)
Lemma absent_id_inv node id :
  ~ In id (treeIds node) ->
  String.eqb (n_id node) id = false
  /\ Forall (fun c => ~ In id (treeIds c)) (children node).
Proof.
  rewrite treeIds_eq. simpl. intros H. split.
  - apply String.eqb_neq. intros E. apply H. left. exact E.
  - apply Forall_forall. intros c Hc Hin. apply H. right.
    apply in_flat_map. exists c. split; assumption.
Qed.

(** * The tree-rewrite helpers *)

Lemma updateNodeInTree_absent root id updates :
  ~ In id (treeIds root) -> updateNodeInTree root id updates = root.
Proof.
  induction root as [root IH] using ModuleNode_tree_ind. intros H.
  destruct (absent_id_inv root id H) as [Hid Hcs].
  rewrite updateNodeInTree_eq, Hid, map_id_on; [apply withChildren_same|].
  rewrite Forall_forall in *. auto.
Qed.

Lemma deleteNodeInTree_absent root id :
  ~ In id (treeIds root) -> deleteNodeInTree root id = Some root.
Proof.
  induction root as [root IH] using ModuleNode_tree_ind. intros H.
  destruct (absent_id_inv root id H) as [Hid Hcs].
  rewrite deleteNodeInTree_eq, Hid, dropNull_map_Some;
    [rewrite withChildren_same; reflexivity|].
  rewrite Forall_forall in *. auto.
Qed.

Lemma addNodeToParent_absent root pId newNode :
  ~ In pId (treeIds root) -> addNodeToParent root pId newNode = root.
Proof.
  induction root as [root IH] using ModuleNode_tree_ind. intros H.
  destruct (absent_id_inv root pId H) as [Hid Hcs].
  rewrite addNodeToParent_eq, Hid, map_id_on; [apply withChildren_same|].
  rewrite Forall_forall in *. auto.
Qed.

(** C8.  With an id that no node of the tree carries, [updateNodeInTree],
    [deleteNodeInTree] and [addNodeToParent] return the tree they were given:
    the update and the addition return it as it is, the deletion returns it
    (and not [null]). *)
Theorem tree_rewrite_unknown_id_noop (root : ModuleNode) (id : string) :
  ~ In id (treeIds root) ->
  (forall updates, updateNodeInTree root id updates = root)
  /\ deleteNodeInTree root id = Some root
  /\ (forall newNode, addNodeToParent root id newNode = root).
Proof.
  intros H. repeat split; intros;
    auto using updateNodeInTree_absent, deleteNodeInTree_absent,
               addNodeToParent_absent.
Qed.

(** The theorem on a tree of three nodes and an id none of them has. *)
Lemma tree_rewrite_unknown_id_noop_witness :
  ~ In "ghost"%string (treeIds twoSiblings)
  /\ (forall updates, updateNodeInTree twoSiblings "ghost" updates = twoSiblings)
  /\ deleteNodeInTree twoSiblings "ghost" = Some twoSiblings
  /\ (forall newNode, addNodeToParent twoSiblings "ghost" newNode = twoSiblings).
Proof.
  assert (H : ~ In "ghost"%string (treeIds twoSiblings)).
  { simpl. intros [H|[H|[H|[]]]]; discriminate H. }
  exact (conj H (tree_rewrite_unknown_id_noop twoSiblings "ghost" H)).
Defined.

(** * The Overlap Detector *)

Lemma checkPair_In blocks i j m :
  In m (checkPair blocks i j) <->
  exists a b,
    nth_error blocks i = Some a /\ nth_error blocks j = Some b
    /\ JS.gt (xOverlap a b) 0 = true /\ JS.gt (yOverlap a b) 0 = true
    /\ m = markerOf a b.
Proof.
  unfold checkPair. split.
  - destruct (nth_error blocks i) as [a|]; [|intros []].
    destruct (nth_error blocks j) as [b|]; [|intros []].
    destruct (JS.gt (xOverlap a b) 0) eqn:Ex; [|intros []].
    destruct (JS.gt (yOverlap a b) 0) eqn:Ey; [|intros []].
    simpl. intros [<-|[]]. exists a, b. auto.
  - intros (a & b & -> & -> & -> & -> & ->). left. reflexivity.
Qed.

Lemma checkBlocks_In blocks m :
  In m (checkBlocks blocks) <->
  exists i j a b,
    (i < j)%nat
    /\ nth_error blocks i = Some a /\ nth_error blocks j = Some b
    /\ JS.gt (xOverlap a b) 0 = true /\ JS.gt (yOverlap a b) 0 = true
    /\ m = markerOf a b.
Proof.
  unfold checkBlocks. rewrite in_flat_map. split.
  - intros (i & Hi & H). apply in_flat_map in H. destruct H as (j & Hj & H).
    apply in_seq in Hj. apply checkPair_In in H.
    destruct H as (a & b & H). exists i, j, a, b. split; [lia|exact H].
  - intros (i & j & a & b & Hij & Ha & Hb & H).
    assert (Hj : (j < List.length blocks)%nat)
      by (apply nth_error_Some; congruence).
    exists i. split; [apply in_seq; lia|].
    apply in_flat_map. exists j. split; [apply in_seq; lia|].
    apply checkPair_In. exists a, b. auto.
Qed.

(** The blocks the detector compares, written out: the local-logic block
    first, then the children in their order. *)
Lemma blocksOf_written_out node config :
  map (fun b => (b_id b, (b_x b, b_y b, b_w b, b_h b))) (blocksOf node config)
  = (let eff := if isRatioLinked node then aspectRatio node
                else JS.or_num (internalAspectRatio node) 1 in
     let localH :=
       PrimFloat.sqrt (localArea (stats (calculatePhysicalSize node config)) / eff) in
     ("internal"%string,
      (JS.or_num (internalX node) 0, JS.or_num (internalY node) 0, localH * eff, localH))
     :: map (fun c =>
               (n_id c,
                (JS.or_num (n_x c) 0, JS.or_num (n_y c) 0,
                 sz_w (calculatePhysicalSize c config),
                 sz_h (calculatePhysicalSize c config))))
            (children node)).
Proof.
  unfold blocksOf, localBlock, effectiveInternalAR. cbn [map b_id b_x b_y b_w b_h].
  rewrite map_map. reflexivity.
Qed.

Lemma nth_error_map_Some {A B : Type} (f : A -> B) l i y :
  nth_error (map f l) i = Some y <-> exists x, nth_error l i = Some x /\ f x = y.
Proof.
  rewrite nth_error_map. destruct (nth_error l i) as [x|]; simpl; split.
  - intros H. injection H as <-. exists x. auto.
  - intros (x' & H & <-). injection H as <-. reflexivity.
  - discriminate.
  - intros (x' & H & _). discriminate.
Qed.

(** C7.  The entities of a node are its local-logic block, under the id
    ["internal"], at [(internalX || 0, internalY || 0)] and sized
    [localH * r] by [localH = sqrt(localArea / r)] with [r] the effective
    internal ratio, and then its direct children in their order, each at
    [(x || 0, y || 0)] with its calculated width and height.
    [checkOverlapsInModule] returns a marker for two entities exactly when
    the first comes before the second and both
    [max(0, min(ax + aw, bx + bw) - max(ax, bx))] and
    [max(0, min(ay + ah, by + bh) - max(ay, by))] are above zero; the marker
    is their intersection, at [(max(ax, bx), max(ay, by))] with these two
    amounts as its sides, and names the two ids.  Two siblings of 100 x 100
    at (0, 0) and (50, 50) give the one marker [x = 50, y = 50, w = 50,
    h = 50]; at (0, 0) and (30, 70) the one marker [x = 30, y = 70, w = 70,
    h = 30]; siblings that overlap on one axis only give none; and a
    local-logic block of 100 x 100 with a child at (60, 20) gives the marker
    [x = 60, y = 20, w = 40, h = 80] under the ids ["internal"] and the
    child's. *)
Theorem checkOverlapsInModule_markers :
  (forall node config m,
      let eff := if isRatioLinked node then aspectRatio node
                 else JS.or_num (internalAspectRatio node) 1 in
      let localH :=
        PrimFloat.sqrt (localArea (stats (calculatePhysicalSize node config)) / eff) in
      let entities :=
        ("internal"%string,
         (JS.or_num (internalX node) 0, JS.or_num (internalY node) 0,
          localH * eff, localH))
        :: map (fun c =>
                  (n_id c,
                   (JS.or_num (n_x c) 0, JS.or_num (n_y c) 0,
                    sz_w (calculatePhysicalSize c config),
                    sz_h (calculatePhysicalSize c config))))
               (children node) in
      In m (checkOverlapsInModule node config) <->
      exists i j ida ax ay aw ah idb bx by' bw bh,
        (i < j)%nat
        /\ nth_error entities i = Some (ida, (ax, ay, aw, ah))
        /\ nth_error entities j = Some (idb, (bx, by', bw, bh))
        /\ (0 <? JS.max 0 (JS.min (ax + aw) (bx + bw) - JS.max ax bx)) = true
        /\ (0 <? JS.max 0 (JS.min (ay + ah) (by' + bh) - JS.max ay by')) = true
        /\ m = {| m_x := JS.max ax bx;
                  m_y := JS.max ay by';
                  m_w := JS.max 0 (JS.min (ax + aw) (bx + bw) - JS.max ax bx);
                  m_h := JS.max 0 (JS.min (ay + ah) (by' + bh) - JS.max ay by');
                  ids := (ida, idb) |})
  /\ (forall id x y,
        let c := emptyModule id x y 52 16 in
        (n_x c, n_y c, sz_w (calculatePhysicalSize c unitTech),
         sz_h (calculatePhysicalSize c unitTech)) = (x, y, 100, 100))
  /\ twoSiblings
     = container "top" 0 [emptyModule "a" 0 0 52 16; emptyModule "b" 50 50 52 16]
  /\ checkOverlapsInModule twoSiblings unitTech
     = [{| m_x := 50; m_y := 50; m_w := 50; m_h := 50;
           ids := ("a"%string, "b"%string) |}]
  /\ checkOverlapsInModule
       (container "top" 0 [emptyModule "a" 0 0 52 16; emptyModule "b" 30 70 52 16])
       unitTech
     = [{| m_x := 30; m_y := 70; m_w := 70; m_h := 30;
           ids := ("a"%string, "b"%string) |}]
  /\ checkOverlapsInModule
       (container "top" 0 [emptyModule "a" 0 0 52 16; emptyModule "b" 150 50 52 16])
       unitTech
     = []
  /\ checkOverlapsInModule
       (container "top" 0 [emptyModule "a" 50 150 52 16; emptyModule "b" 0 0 52 16])
       unitTech
     = []
  /\ localBlock (container "top" 10000 [emptyModule "a" 60 20 52 16]) unitTech
     = (100, 100)
  /\ checkOverlapsInModule
       (container "top" 10000 [emptyModule "a" 60 20 52 16]) unitTech
     = [{| m_x := 60; m_y := 20; m_w := 40; m_h := 80;
           ids := ("internal"%string, "a"%string) |}].
Proof.
  split; [|split].
  - intros node config m. cbv zeta.
    pose proof (blocksOf_written_out node config) as E. cbv zeta in E.
    rewrite <- E. clear E.
    unfold checkOverlapsInModule. rewrite checkBlocks_In. split.
    + intros (i & j & a & b & Hij & Ha & Hb & Hx & Hy & ->).
      exists i, j, (b_id a), (b_x a), (b_y a), (b_w a), (b_h a),
             (b_id b), (b_x b), (b_y b), (b_w b), (b_h b).
      split; [exact Hij|].
      rewrite !nth_error_map, Ha, Hb. repeat split; assumption.
    + intros (i & j & ida & ax & ay & aw & ah & idb & bx & by' & bw & bh
              & Hij & Ha & Hb & Hx & Hy & ->).
      apply nth_error_map_Some in Ha as (a & Ha & Ea).
      apply nth_error_map_Some in Hb as (b & Hb & Eb).
      injection Ea as <- <- <- <- <-. injection Eb as <- <- <- <- <-.
      exists i, j, a, b. repeat split; assumption.
  - intros id x y. cbv zeta. rewrite calculatePhysicalSize_eq.
    vm_compute. reflexivity.
  - repeat split; vm_compute; reflexivity.
Qed.

(** * The Area Calculator *)

Import FloatFacts.

(** What each field of the result is, from the body of the function, with
    [minEnvelope] and [totalContentArea] for the intermediate values. *)
Lemma calculatePhysicalSize_fields node config :
  let r := calculatePhysicalSize node config in
  let st := stats r in
  let total := totalContentArea node config in
  let ratio := JS.or_num (aspectRatio node) 1 in
  let W_min := fst (minEnvelope node config) in
  let H_min := snd (minEnvelope node config) in
  regArea st = JS.or_num (registers node) 0 * dffArea config
  /\ memArea st = JS.or_num (memoryBits node) 0 * sramAreaPerBit config
  /\ logicArea st = JS.or_num (logicGates node) 0 * gateArea config
  /\ localArea st = (regArea st + memArea st + logicArea st) / utilization config
  /\ childrenArea st
     = fold_left (fun acc c => acc + sz_w (snd c) * sz_h (snd c))
         (childrenInfoOf node config) 0
  /\ idealHeight st = PrimFloat.sqrt (total / ratio)
  /\ idealWidth st = idealHeight st * ratio
  /\ calculatedWidth st = JS.max (idealWidth st) W_min
  /\ calculatedHeight st = JS.max (idealHeight st) H_min
  /\ totalArea st = calculatedWidth st * calculatedHeight st
  /\ minFeasibleRatio st = JS.min (W_min * W_min / total) (total / (H_min * H_min))
  /\ maxFeasibleRatio st = JS.max (W_min * W_min / total) (total / (H_min * H_min))
  /\ sz_w r = calculatedWidth st /\ sz_h r = calculatedHeight st.
Proof.
  unfold minEnvelope, totalContentArea, localBlock.
  rewrite calculatePhysicalSize_eq. repeat split.
Qed.

(** ** The effective internal ratio *)

(** C9, as the claim states it, fails: an unlinked node with the stored
    internal ratio -2, which is not positive, is sized with -2 and not with
    1.0; its local-logic block is [NaN] wide. *)
Lemma effective_ratio_keeps_negative :
  isRatioLinked negativeInternalRatio = false
  /\ (internalAspectRatio negativeInternalRatio <=? 0) = true
  /\ effectiveInternalAR negativeInternalRatio = (-2)
  /\ (effectiveInternalAR negativeInternalRatio =? 1) = false
  /\ localBlock negativeInternalRatio unitTech = (nan, nan)
  /\ localBlock (spread negativeInternalRatio (justInternalAspectRatio 1)) unitTech
     = (10, 10).
Proof. vm_compute. repeat split. Qed.

Lemma fold_left_map_pairs {A B C : Type} (f : A -> C -> A) (g : B -> C) l a :
  fold_left f (map g l) a = fold_left (fun a x => f a (g x)) l a.
Proof.
  revert a. induction l as [|x l IH]; intros a; simpl; [reflexivity|apply IH].
Qed.

(** C9, amended.  The effective internal ratio [r] is [aspectRatio] when the
    node is linked, and then the stored [internalAspectRatio] has no effect on
    the sizing; otherwise it is [internalAspectRatio], with 1.0 in its place
    when that is [0], [-0] or [NaN] and only then: a negative stored ratio is
    used as it is.  [calculatePhysicalSize] sizes the local-logic block with
    it, [hL = sqrt(localArea / r)] high and [hL * r] wide, and the block at
    [(internalX || 0, internalY || 0)], together with the children, sets the
    envelope that the calculated width and height are at least; the ideal
    width and height are taken with [aspectRatio || 1.0] instead.  An unlinked
    module of 100 registers is 68 x 89 with the stored internal ratio 4 and
    58 x 94 with 1. *)
Theorem effective_internal_ratio (node : ModuleNode) :
  let eff := if isRatioLinked node then aspectRatio node
             else if is_nan (internalAspectRatio node) || (internalAspectRatio node =? 0)
                  then 1
                  else internalAspectRatio node in
  effectiveInternalAR node = eff
  /\ (forall config,
        let st := stats (calculatePhysicalSize node config) in
        let hL := PrimFloat.sqrt (localArea st / eff) in
        let wL := hL * eff in
        let extent :=
          fold_left
            (fun m c =>
               (JS.max (fst m)
                  (JS.or_num (n_x c) 0 + sz_w (calculatePhysicalSize c config)),
                JS.max (snd m)
                  (JS.or_num (n_y c) 0 + sz_h (calculatePhysicalSize c config))))
            (children node)
            (JS.or_num (internalX node) 0 + wL, JS.or_num (internalY node) 0 + hL) in
        localBlock node config = (wL, hL)
        /\ idealHeight st
           = PrimFloat.sqrt ((localArea st + childrenArea st)
                             / JS.or_num (aspectRatio node) 1)
        /\ idealWidth st = idealHeight st * JS.or_num (aspectRatio node) 1
        /\ calculatedWidth st = JS.max (idealWidth st) (fst extent + 24 * 2)
        /\ calculatedHeight st = JS.max (idealHeight st) (snd extent + 24 * 2 + 36)
        /\ sz_w (calculatePhysicalSize node config) = calculatedWidth st
        /\ sz_h (calculatePhysicalSize node config) = calculatedHeight st)
  /\ (forall config stale,
        isRatioLinked node = true ->
        calculatePhysicalSize (spread node (justInternalAspectRatio stale)) config
        = calculatePhysicalSize node config)
  /\ (forall config,
        isRatioLinked node = false ->
        JS.falsy (internalAspectRatio node) = true ->
        calculatePhysicalSize node config
        = calculatePhysicalSize (spread node (justInternalAspectRatio 1)) config)
  /\ (let unlinked4 := spread (container "m" 100 []) (justInternalAspectRatio 4) in
      let unlinked1 := spread (container "m" 100 []) (justInternalAspectRatio 1) in
      let size n := (sz_w (calculatePhysicalSize n unitTech),
                     sz_h (calculatePhysicalSize n unitTech)) in
      localBlock unlinked4 unitTech = (20, 5) /\ size unlinked4 = (68, 89)
      /\ localBlock unlinked1 unitTech = (10, 10) /\ size unlinked1 = (58, 94)).
Proof.
  cbv zeta. split; [reflexivity|]. split; [|split; [|split]].
  - intros config.
    change (if isRatioLinked node then aspectRatio node
            else if is_nan (internalAspectRatio node) || (internalAspectRatio node =? 0)
                 then 1 else internalAspectRatio node)
      with (effectiveInternalAR node).
    split; [reflexivity|].
    rewrite calculatePhysicalSize_eq. unfold sizeWith, contentExtent, childrenInfoOf.
    cbn [stats localArea childrenArea idealHeight idealWidth calculatedWidth
         calculatedHeight sz_w sz_h].
    rewrite !fold_left_map_pairs. cbn [fst snd].
    repeat split.
  - intros config stale H. rewrite !calculatePhysicalSize_eq.
    unfold sizeWith, contentExtent, effectiveInternalAR, childrenInfoOf. simpl.
    rewrite H. reflexivity.
  - intros config H F. rewrite !calculatePhysicalSize_eq.
    unfold sizeWith, contentExtent, effectiveInternalAR, childrenInfoOf, JS.or_num.
    simpl. rewrite H, F. reflexivity.
  - vm_compute. repeat split.
Qed.

(** The theorem at a linked node with a stale stored ratio and at an
    unlinked node whose stored ratio is 0. *)
Lemma effective_internal_ratio_witness :
  let linked :=
    spread (container "m" 100 [])
      {| u_id := None; u_name := None; u_registers := None; u_memoryBits := None;
         u_logicGates := None; u_x := None; u_y := None; u_internalX := None;
         u_internalY := None; u_aspectRatio := Some 4;
         u_internalAspectRatio := Some 9;
         u_isRatioLinked := Some true; u_children := None; u_color := None |} in
  let unset := spread (container "m" 100 []) (justInternalAspectRatio 0) in
  isRatioLinked linked = true
  /\ effectiveInternalAR linked = 4
  /\ calculatePhysicalSize (spread linked (justInternalAspectRatio 0.5)) unitTech
     = calculatePhysicalSize linked unitTech
  /\ isRatioLinked unset = false
  /\ JS.falsy (internalAspectRatio unset) = true
  /\ effectiveInternalAR unset = 1
  /\ calculatePhysicalSize unset unitTech
     = calculatePhysicalSize (spread unset (justInternalAspectRatio 1)) unitTech.
Proof.
  intros linked unset.
  destruct (effective_internal_ratio linked) as (E1 & _ & L1 & _).
  destruct (effective_internal_ratio unset) as (E2 & _ & _ & U2 & _).
  assert (Hl : isRatioLinked linked = true) by reflexivity.
  assert (Hu : isRatioLinked unset = false) by reflexivity.
  assert (Hf : JS.falsy (internalAspectRatio unset) = true) by reflexivity.
  refine (conj Hl (conj _ (conj (L1 unitTech 0.5 Hl)
            (conj Hu (conj Hf (conj _ (U2 unitTech Hu Hf))))))).
  - rewrite E1. reflexivity.
  - rewrite E2. reflexivity.
Defined.

(** ** Division by the utilization *)

(** C6, as the claim states it, fails: with [utilization = 0] the calculator
    rejects nothing; it divides by zero and returns a result, infinite for a
    module with registers and [NaN] for an empty one.  With a negative area
    per register it returns a negative local area and a [NaN] footprint. *)
Lemma zero_utilization_is_divided_by :
  utilization zeroUtilization = 0
  /\ localArea (stats (calculatePhysicalSize (container "m" 100 []) zeroUtilization))
     = infinity
  /\ sz_w (calculatePhysicalSize (container "m" 100 []) zeroUtilization) = infinity
  /\ sz_h (calculatePhysicalSize (container "m" 100 []) zeroUtilization) = infinity
  /\ localArea (stats (calculatePhysicalSize (container "m" 0 []) zeroUtilization))
     = nan
  /\ sz_w (calculatePhysicalSize (container "m" 0 []) zeroUtilization) = nan
  /\ localArea (stats (calculatePhysicalSize (container "m" 100 []) negativeDffArea))
     = (-100)
  /\ sz_w (calculatePhysicalSize (container "m" 100 []) negativeDffArea) = nan.
Proof. vm_compute. repeat split. Qed.

(** C6, amended.  [calculatePhysicalSize] validates nothing and always
    returns a result: [localArea] is the raw local area divided by
    [utilization] as IEEE-754 divides, so with [utilization = 0] it is
    [+Infinity] when the raw area is positive and [NaN] when it is zero. *)
Theorem local_area_divides_unguarded (node : ModuleNode) (config : TechNodeConfig) :
  let st := stats (calculatePhysicalSize node config) in
  let rawLocalArea := regArea st + memArea st + logicArea st in
  localArea st = rawLocalArea / utilization config
  /\ (utilization config = 0 -> (0 <? rawLocalArea) = true -> localArea st = infinity)
  /\ (utilization config = 0 -> (rawLocalArea =? 0) = true -> localArea st = nan).
Proof.
  destruct (calculatePhysicalSize_fields node config) as (_ & _ & _ & H & _).
  cbv zeta. rewrite H. repeat split.
  - intros -> Hp. apply div_pos_zero, Hp.
  - intros -> Hz. apply div_zero_zero, Hz.
Qed.

(** The theorem at [utilization = 0], with 100 registers and with none. *)
Lemma local_area_divides_unguarded_witness :
  localArea (stats (calculatePhysicalSize (container "m" 100 []) zeroUtilization))
  = infinity
  /\ localArea (stats (calculatePhysicalSize (container "m" 0 []) zeroUtilization))
     = nan.
Proof.
  split.
  - apply (proj1 (proj2 (local_area_divides_unguarded
                           (container "m" 100 []) zeroUtilization)));
      reflexivity.
  - apply (proj2 (proj2 (local_area_divides_unguarded
                           (container "m" 0 []) zeroUtilization)));
      reflexivity.
Defined.

(** ** Modules without content *)

(** C2, as the claim states it, fails: a module without resources or
    children, at internal offset (0, 0), has no content area and yet is
    48 wide and 84 high, its margins and header; nothing is special-cased,
    and the upper ratio bound is the quotient [48 * 48 / 0 = +Infinity]
    (with the internal offset -48 the quotient is [0 / 0], and the bound
    [NaN]). *)
Lemma empty_module_has_margins :
  let st := stats (calculatePhysicalSize (emptyModule "z" 0 0 0 0) unitTech) in
  totalContentArea (emptyModule "z" 0 0 0 0) unitTech = 0
  /\ calculatedWidth st = 48 /\ calculatedHeight st = 84
  /\ (calculatedWidth st =? 0) = false /\ (calculatedHeight st =? 0) = false
  /\ totalArea st = 4032
  /\ minFeasibleRatio st = 0 /\ maxFeasibleRatio st = infinity
  /\ minFeasibleRatio
       (stats (calculatePhysicalSize (emptyModule "z" 0 0 (-48) 0) unitTech)) = nan.
Proof. vm_compute. repeat split. Qed.

(** The local-logic block of a module without resources is a point. *)
Lemma zero_content_local node config :
  (registers node =? 0) = true ->
  (memoryBits node =? 0) = true ->
  (logicGates node =? 0) = true ->
  is_finite (dffArea config) = true ->
  is_finite (sramAreaPerBit config) = true ->
  is_finite (gateArea config) = true ->
  JS.falsy (utilization config) = false ->
  let st := stats (calculatePhysicalSize node config) in
  isZero (localArea st).
Proof.
  intros Hr Hm Hl Fd Fs Fg Hu.
  destruct (calculatePhysicalSize_fields node config)
    as (Er & Em & El & Ea & _).
  cbv zeta. rewrite Ea, Er, Em, El.
  rewrite (or_num_zero _ Hr), (or_num_zero _ Hm), (or_num_zero _ Hl).
  apply div_zero_truthy; [|exact Hu].
  repeat apply add_zero_zero; apply mul_zero_finite; trivial; reflexivity.
Qed.

(** C2, amended.  For a node without children whose three resource counts
    are zero, under a technology with finite unit areas and a utilization that
    is neither zero nor [NaN], and with finite ratios of which the effective
    internal one is neither zero nor [NaN]: the local, children and total
    content areas and the ideal width and height are zero, but the calculated
    width is [max(idealWidth, (internalX || 0) + 48)] and the calculated height
    [max(idealHeight, (internalY || 0) + 84)], the margins and the header
    included, each positive when the internal offset is not negative.  The
    two ratio bounds are the plain quotients, sorted; nothing is
    special-cased. *)
Theorem zero_content_footprint (node : ModuleNode) (config : TechNodeConfig) :
  children node = [] ->
  (registers node =? 0) = true ->
  (memoryBits node =? 0) = true ->
  (logicGates node =? 0) = true ->
  is_finite (dffArea config) = true ->
  is_finite (sramAreaPerBit config) = true ->
  is_finite (gateArea config) = true ->
  JS.falsy (utilization config) = false ->
  is_finite (aspectRatio node) = true ->
  JS.falsy (effectiveInternalAR node) = false ->
  is_finite (effectiveInternalAR node) = true ->
  let st := stats (calculatePhysicalSize node config) in
  let total := totalContentArea node config in
  let W_min := JS.or_num (internalX node) 0 + GLOBAL_MARGIN * 2 in
  let H_min := JS.or_num (internalY node) 0 + GLOBAL_MARGIN * 2 + GLOBAL_HEADER in
  (localArea st =? 0) = true
  /\ childrenArea st = 0
  /\ (total =? 0) = true
  /\ (idealWidth st =? 0) = true
  /\ (idealHeight st =? 0) = true
  /\ calculatedWidth st = JS.max (idealWidth st) W_min
  /\ calculatedHeight st = JS.max (idealHeight st) H_min
  /\ ((internalX node <? 0) = false -> (0 <? calculatedWidth st) = true)
  /\ ((internalY node <? 0) = false -> (0 <? calculatedHeight st) = true)
  /\ minFeasibleRatio st = JS.min (W_min * W_min / total) (total / (H_min * H_min))
  /\ maxFeasibleRatio st = JS.max (W_min * W_min / total) (total / (H_min * H_min)).
Proof.
  intros Hc Hr Hm Hl Fd Fs Fg Hu Fa He Fe.
  pose proof (zero_content_local node config Hr Hm Hl Fd Fs Fg Hu) as Hloc.
  destruct (calculatePhysicalSize_fields node config)
    as (_ & _ & _ & _ & Ec & Eh & Ew & Ecw & Ech & _ & Emin & Emax & _).
  cbv zeta in *.
  assert (Hch : childrenArea (stats (calculatePhysicalSize node config)) = 0).
  { rewrite Ec. unfold childrenInfoOf. rewrite Hc. reflexivity. }
  assert (Htot : isZero (totalContentArea node config)).
  { unfold totalContentArea. rewrite Hch. apply add_zero_zero; [exact Hloc|reflexivity]. }
  assert (Hratio : JS.falsy (JS.or_num (aspectRatio node) 1) = false
                   /\ is_finite (JS.or_num (aspectRatio node) 1) = true).
  { unfold JS.or_num. destruct (JS.falsy (aspectRatio node)) eqn:E; auto. }
  destruct Hratio as [Hrt Hrf].
  assert (HiH : isZero (idealHeight (stats (calculatePhysicalSize node config)))).
  { rewrite Eh. apply sqrt_zero, div_zero_truthy; assumption. }
  assert (HiW : isZero (idealWidth (stats (calculatePhysicalSize node config)))).
  { rewrite Ew. apply mul_zero_finite; assumption. }
  assert (HhL : isZero (snd (localBlock node config))).
  { unfold localBlock. simpl. apply sqrt_zero, div_zero_truthy; assumption. }
  assert (HwL : isZero (fst (localBlock node config))).
  { unfold localBlock. simpl. apply mul_zero_finite; [|assumption].
    apply sqrt_zero, div_zero_truthy; assumption. }
  assert (Henv : minEnvelope node config
                 = (JS.or_num (internalX node) 0 + GLOBAL_MARGIN * 2,
                    JS.or_num (internalY node) 0 + GLOBAL_MARGIN * 2 + GLOBAL_HEADER)).
  { unfold minEnvelope, contentExtent, childrenInfoOf. rewrite Hc. simpl fold_left.
    simpl fst. simpl snd.
    rewrite (or_num_add_zero _ _ HwL), (or_num_add_zero _ _ HhL). reflexivity. }
  rewrite Henv in *. simpl fst in *. simpl snd in *.
  repeat split; try assumption.
  - intros Hx. rewrite Ecw. apply max_pos_r; [apply isZero_nonneg, HiW|].
    apply add_nonneg_pos; [apply or_num_nonneg, Hx|reflexivity].
  - intros Hy. rewrite Ech. apply max_pos_r; [apply isZero_nonneg, HiH|].
    apply add_nonneg_pos; [|reflexivity].
    apply add_nonneg; [apply or_num_nonneg, Hy|reflexivity].
Qed.

(** The theorem at the empty module of the counterexample. *)
Lemma zero_content_footprint_witness :
  let st := stats (calculatePhysicalSize (emptyModule "z" 0 0 0 0) unitTech) in
  (idealWidth st =? 0) = true
  /\ (idealHeight st =? 0) = true
  /\ calculatedWidth st = JS.max (idealWidth st) (0 + GLOBAL_MARGIN * 2)
  /\ calculatedHeight st
     = JS.max (idealHeight st) (0 + GLOBAL_MARGIN * 2 + GLOBAL_HEADER)
  /\ (0 <? calculatedWidth st) = true
  /\ (0 <? calculatedHeight st) = true.
Proof.
  destruct (zero_content_footprint (emptyModule "z" 0 0 0 0) unitTech
              eq_refl eq_refl eq_refl eq_refl eq_refl eq_refl eq_refl eq_refl
              eq_refl eq_refl eq_refl)
    as (_ & _ & _ & Hw & Hh & Hcw & Hch & Hpw & Hph & _).
  exact (conj Hw (conj Hh (conj Hcw (conj Hch
           (conj (Hpw eq_refl) (Hph eq_refl)))))).
Defined.

(** ** Valid inputs *)

Lemma nonnegFinite_spec x :
  nonnegFinite x = true -> nonneg x /\ is_finite x = true.
Proof. unfold nonnegFinite, nonneg. intros H. apply andb_prop in H. exact H. Qed.

Lemma posFinite_spec x :
  posFinite x = true -> pos x /\ is_finite x = true.
Proof. unfold posFinite, pos. intros H. apply andb_prop in H. exact H. Qed.

Lemma validConfig_inv config :
  validConfig config = true ->
  nonnegFinite (dffArea config) = true
  /\ nonnegFinite (sramAreaPerBit config) = true
  /\ nonnegFinite (gateArea config) = true
  /\ pos (utilization config) /\ is_finite (utilization config) = true.
Proof.
  unfold validConfig. intros H.
  destruct (andb_prop _ _ H) as [H1 _].
  destruct (andb_prop _ _ H1) as [H2 Hu].
  destruct (andb_prop _ _ H2) as [H3 Hg].
  destruct (andb_prop _ _ H3) as [Hd Hs].
  destruct (posFinite_spec _ Hu). auto.
Qed.

Lemma validNode_inv node :
  validNode node = true ->
  (nonnegFinite (registers node) = true
   /\ nonnegFinite (memoryBits node) = true
   /\ nonnegFinite (logicGates node) = true)
  /\ (pos (aspectRatio node) /\ is_finite (aspectRatio node) = true)
  /\ (pos (effectiveInternalAR node) /\ is_finite (effectiveInternalAR node) = true)
  /\ (nonneg (n_x node) /\ nonneg (n_y node)
      /\ nonneg (internalX node) /\ nonneg (internalY node))
  /\ Forall (fun c => validNode c = true) (children node).
Proof.
  rewrite validNode_eq. intros H.
  destruct (andb_prop _ _ H) as [H1 Hk].
  destruct (andb_prop _ _ H1) as [H2 Hiy].
  destruct (andb_prop _ _ H2) as [H3 Hix].
  destruct (andb_prop _ _ H3) as [H4 Hy].
  destruct (andb_prop _ _ H4) as [H5 Hx].
  destruct (andb_prop _ _ H5) as [H6 He].
  destruct (andb_prop _ _ H6) as [H7 Ha].
  destruct (andb_prop _ _ H7) as [H8 Hl].
  destruct (andb_prop _ _ H8) as [Hr Hm].
  repeat split; trivial; try (apply posFinite_spec; assumption).
  apply Forall_forall. apply forallb_forall. exact Hk.
Qed.

(** The raw area of a valid count under a valid unit area. *)
Lemma raw_area_nonneg count unit :
  nonnegFinite count = true -> nonnegFinite unit = true ->
  nonneg (JS.or_num count 0 * unit).
Proof.
  intros Hc Hu.
  destruct (nonnegFinite_spec _ Hc) as [Hc1 Hc2].
  destruct (nonnegFinite_spec _ Hu) as [Hu1 Hu2].
  destruct (or_num_nonneg_finite _ Hc1 Hc2) as [H1 H2].
  apply mul_nonneg_finite; assumption.
Qed.

(** The sides of a valid tree under a valid technology are positive
    numbers, its area is a number, and so are the sides of its local-logic
    block. *)
Lemma valid_sizes config :
  validConfig config = true ->
  forall node, validNode node = true ->
  pos (sz_w (calculatePhysicalSize node config))
  /\ pos (sz_h (calculatePhysicalSize node config))
  /\ nonneg (totalArea (stats (calculatePhysicalSize node config)))
  /\ nonneg (fst (localBlock node config))
  /\ nonneg (snd (localBlock node config)).
Proof.
  intros Hc. destruct (validConfig_inv _ Hc) as (Hd & Hs & Hg & Hu1 & Hu2).
  induction node as [node IH] using ModuleNode_tree_ind. intros Hv.
  destruct (validNode_inv _ Hv)
    as ((Hr & Hm & Hl) & (Hr1 & Hr2) & (He1 & He2) & (Hpx & Hpy & Hix & Hiy) & Hkids).
  rewrite Forall_forall in IH, Hkids.
  destruct (calculatePhysicalSize_fields node config)
    as (Er & Em & El & Ea & Ec & Eh & Ew & Ecw & Ech & Eta & _ & _ & Esw & Esh).
  cbv zeta in *.
  set (st := stats (calculatePhysicalSize node config)) in *.
  assert (Hinfo : Forall (fun c => validNode (fst c) = true
                                  /\ pos (sz_w (snd c)) /\ pos (sz_h (snd c)))
                         (childrenInfoOf node config)).
  { unfold childrenInfoOf. apply Forall_map, Forall_forall. intros c Hin. simpl.
    split; [apply Hkids, Hin|]. destruct (IH c Hin (Hkids c Hin)) as (? & ? & _).
    split; assumption. }
  assert (Hloc : nonneg (localArea st)).
  { rewrite Ea, Er, Em, El.
    apply div_nonneg_pos_finite; trivial.
    repeat apply add_nonneg; apply raw_area_nonneg; assumption. }
  assert (Hch : nonneg (childrenArea st)).
  { rewrite Ec.
    apply (fold_left_invariant nonneg
             (fun c => validNode (fst c) = true
                       /\ pos (sz_w (snd c)) /\ pos (sz_h (snd c))));
      [|exact Hinfo|reflexivity].
    intros acc c Ha (_ & Hw & Hh). apply add_nonneg; [exact Ha|].
    apply mul_pos_pos; assumption. }
  rewrite (or_num_pos _ 1 Hr1) in *.
  assert (HiH : nonneg (idealHeight st)).
  { rewrite Eh. unfold totalContentArea. fold st.
    apply sqrt_nonneg, div_nonneg_pos_finite; trivial.
    apply add_nonneg; assumption. }
  assert (HiW : nonneg (idealWidth st)).
  { rewrite Ew. apply mul_nonneg_pos_finite; assumption. }
  assert (HhL : nonneg (snd (localBlock node config))).
  { unfold localBlock. simpl. fold st.
    apply sqrt_nonneg, div_nonneg_pos_finite; assumption. }
  assert (HwL : nonneg (fst (localBlock node config))).
  { unfold localBlock. simpl. fold st.
    apply mul_nonneg_pos_finite; trivial. }
  assert (Hext : nonneg (fst (contentExtent node (fst (localBlock node config))
                                (snd (localBlock node config))
                                (childrenInfoOf node config)))
                 /\ nonneg (snd (contentExtent node (fst (localBlock node config))
                                  (snd (localBlock node config))
                                  (childrenInfoOf node config)))).
  { unfold contentExtent.
    apply (fold_left_invariant (fun m => nonneg (fst m) /\ nonneg (snd m))
             (fun c => validNode (fst c) = true
                       /\ pos (sz_w (snd c)) /\ pos (sz_h (snd c))));
      [|exact Hinfo|].
    - intros m c [Hm1 Hm2] (Hvc & Hcw & Hchh). simpl.
      destruct (validNode_inv _ Hvc) as (_ & _ & _ & (Hcx & Hcy & _) & _).
      split; apply max_nonneg; trivial; apply add_nonneg;
        try (apply pos_nonneg; assumption);
        apply or_num_nonneg, nonneg_notneg; assumption.
    - simpl. split; apply add_nonneg; trivial;
        apply or_num_nonneg, nonneg_notneg; assumption. }
  destruct Hext as [Hx Hy].
  assert (Hcw : pos (calculatedWidth st)).
  { rewrite Ecw. apply max_pos_r; [exact HiW|].
    unfold minEnvelope. simpl. apply add_nonneg_pos; [exact Hx|reflexivity]. }
  assert (Hchh : pos (calculatedHeight st)).
  { rewrite Ech. apply max_pos_r; [exact HiH|].
    unfold minEnvelope. simpl. apply add_nonneg_pos; [|reflexivity].
    apply add_nonneg; [exact Hy|reflexivity]. }
  rewrite Esw, Esh, Eta. repeat split; trivial.
  apply mul_pos_pos; assumption.
Qed.

(** ** Envelope dominance and the feasible interval *)

(** C4, as the claim states it, fails: a module of 100 registers with
    [aspectRatio = 1] has the ideal footprint 10 x 10 and the calculated
    footprint 58 x 94, although 1 lies between the returned bounds (about
    0.0113 and 33.64): the raw bounds were out of order and sorting them made
    an interval of ratios none of which is feasible. *)
Lemma ratio_in_interval_without_equality :
  let node := container "m" 100 [] in
  let st := stats (calculatePhysicalSize node unitTech) in
  (minFeasibleRatio st <=? aspectRatio node) = true
  /\ (aspectRatio node <=? maxFeasibleRatio st) = true
  /\ idealWidth st = 10 /\ idealHeight st = 10
  /\ calculatedWidth st = 58 /\ calculatedHeight st = 94
  /\ (calculatedWidth st =? idealWidth st) = false
  /\ (calculatedHeight st =? idealHeight st) = false.
Proof. vm_compute. repeat split. Qed.

(** C4, amended.  With [(W_min, H_min)] the envelope the content needs and
    [total] the content area: [calculatedWidth = max(idealWidth, W_min)] and
    [calculatedHeight = max(idealHeight, H_min)], so each is at least the
    ideal one whenever it is a number, as it is for every valid tree under a
    valid technology, and both equal the ideal ones exactly when
    [W_min <= idealWidth] and [H_min <= idealHeight].  The returned
    bounds are [W_min^2 / total] and [total / H_min^2] sorted, in order
    whenever the lower one is a number; [aspectRatio] lying between them does
    not give the equalities. *)
Theorem envelope_dominance (node : ModuleNode) (config : TechNodeConfig) :
  let st := stats (calculatePhysicalSize node config) in
  let total := totalContentArea node config in
  let W_min := fst (minEnvelope node config) in
  let H_min := snd (minEnvelope node config) in
  calculatedWidth st = JS.max (idealWidth st) W_min
  /\ calculatedHeight st = JS.max (idealHeight st) H_min
  /\ (is_nan (calculatedWidth st) = false ->
      (idealWidth st <=? calculatedWidth st) = true)
  /\ (is_nan (calculatedHeight st) = false ->
      (idealHeight st <=? calculatedHeight st) = true)
  /\ (calculatedWidth st =? idealWidth st) && (calculatedHeight st =? idealHeight st)
     = (W_min <=? idealWidth st) && (H_min <=? idealHeight st)
  /\ minFeasibleRatio st = JS.min (W_min * W_min / total) (total / (H_min * H_min))
  /\ maxFeasibleRatio st = JS.max (W_min * W_min / total) (total / (H_min * H_min))
  /\ (is_nan (minFeasibleRatio st) = false ->
      (minFeasibleRatio st <=? maxFeasibleRatio st) = true)
  /\ (validConfig config = true -> validNode node = true ->
      (idealWidth st <=? calculatedWidth st) = true
      /\ (idealHeight st <=? calculatedHeight st) = true).
Proof.
  destruct (calculatePhysicalSize_fields node config)
    as (_ & _ & _ & _ & _ & _ & _ & Ecw & Ech & _ & Emin & Emax & Esw & Esh).
  cbv zeta in *.
  assert (Hw : is_nan (calculatedWidth (stats (calculatePhysicalSize node config)))
               = false ->
               (idealWidth (stats (calculatePhysicalSize node config))
                <=? calculatedWidth (stats (calculatePhysicalSize node config)))
               = true)
    by (rewrite Ecw; intros H; apply (max_ge _ _ H)).
  assert (Hh : is_nan (calculatedHeight (stats (calculatePhysicalSize node config)))
               = false ->
               (idealHeight (stats (calculatePhysicalSize node config))
                <=? calculatedHeight (stats (calculatePhysicalSize node config)))
               = true)
    by (rewrite Ech; intros H; apply (max_ge _ _ H)).
  split; [exact Ecw|]. split; [exact Ech|].
  split; [exact Hw|]. split; [exact Hh|].
  split; [|split; [exact Emin|split; [exact Emax|split]]].
  - rewrite Ecw, Ech, !max_eqb_l. reflexivity.
  - rewrite Emin, Emax. apply min_le_max.
  - intros Hc Hv. destruct (valid_sizes config Hc node Hv) as (Pw & Ph & _).
    rewrite Esw in Pw. rewrite Esh in Ph.
    split; [apply Hw|apply Hh]; apply pos_not_nan; assumption.
Qed.

(** The theorem at the module of the counterexample. *)
Lemma envelope_dominance_witness :
  let st := stats (calculatePhysicalSize (container "m" 100 []) unitTech) in
  (idealWidth st <=? calculatedWidth st) = true
  /\ (idealHeight st <=? calculatedHeight st) = true
  /\ (minFeasibleRatio st <=? maxFeasibleRatio st) = true.
Proof.
  destruct (envelope_dominance (container "m" 100 []) unitTech)
    as (_ & _ & _ & _ & _ & _ & _ & Hm & Hvalid).
  destruct (Hvalid eq_refl eq_refl) as [Hw Hh].
  exact (conj Hw (conj Hh (Hm eq_refl))).
Defined.

(** ** Signs and growth *)










(** * The Compactor *)

(** ** Sorting and sweeping keep the entities *)

Lemma insertSorted_perm cmp a l : Permutation (insertSorted cmp a l) (a :: l).
Proof.
  induction l as [|b l IH]; simpl; [reflexivity|].
  destruct (JS.gt (cmp a b) 0); [|reflexivity].
  rewrite IH. apply perm_swap.
Qed.

Lemma sortBy_perm cmp l : Permutation (sortBy cmp l) l.
Proof.
  induction l as [|a l IH]; simpl; [reflexivity|].
  rewrite insertSorted_perm. constructor. exact IH.
Qed.

Lemma sortBy_Forall cmp (P : Entity -> Prop) l :
  Forall P l -> Forall P (sortBy cmp l).
Proof. apply Permutation_Forall. symmetry. apply sortBy_perm. Qed.

(** A sweep moves each entity along one axis and keeps the rest of it. *)
Section Sweep.
Variable best : list Entity -> Entity -> float.
Variable set : Entity -> float -> Entity.
Variables P Q : Entity -> Prop.
Hypothesis set_kind : forall e v, e_kind (set e v) = e_kind e.
Hypothesis step_ok : forall done e, Forall Q done -> P e -> Q (set e (best done e)).

Definition sweepWith (entities : list Entity) (done : list Entity) : list Entity :=
  fold_left (fun done entity => done ++ [set entity (best done entity)]) entities done.

Lemma sweepWith_Forall l : forall done,
  Forall Q done -> Forall P l -> Forall Q (sweepWith l done).
Proof.
  induction l as [|e l IH]; intros done Hd Hl; simpl; [exact Hd|].
  inversion Hl; subst. apply IH; [|assumption].
  apply Forall_app. split; [exact Hd|]. constructor; [|constructor].
  apply step_ok; assumption.
Qed.

Lemma sweepWith_kinds l : forall done,
  map e_kind (sweepWith l done) = map e_kind done ++ map e_kind l.
Proof.
  induction l as [|e l IH]; intros done; simpl; [rewrite app_nil_r; reflexivity|].
  unfold sweepWith in IH. rewrite IH, map_app, <- app_assoc. simpl.
  rewrite set_kind. reflexivity.
Qed.
End Sweep.

Lemma hasLocal_kinds l l' :
  map e_kind l = map e_kind l' -> existsb isLocal l = existsb isLocal l'.
Proof.
  revert l'. induction l as [|e l IH]; intros [|e' l'] H; simpl in *;
    try discriminate; [reflexivity|].
  inversion H. unfold isLocal at 1 3. rewrite H1. f_equal. apply IH. assumption.
Qed.

Lemma hasLocal_perm l l' :
  Permutation l l' -> existsb isLocal l = true -> existsb isLocal l' = true.
Proof.
  intros Hp H. apply existsb_exists in H. destruct H as (e & Hin & He).
  apply existsb_exists. exists e. split; [|exact He].
  apply (Permutation_in _ Hp Hin).
Qed.

Lemma hasLocal_compact l :
  existsb isLocal l = true -> existsb isLocal (compact l) = true.
Proof.
  intros H. unfold compact, sweepX, sweepY.
  rewrite (hasLocal_kinds _ (sortBy byXY (sweepWith bestY setY (sortBy byYX l) [])))
    by (apply (sweepWith_kinds bestX setX); reflexivity).
  apply (hasLocal_perm _ _ (Permutation_sym (sortBy_perm _ _))).
  rewrite (hasLocal_kinds _ (sortBy byYX l))
    by (apply (sweepWith_kinds bestY setY); reflexivity).
  apply (hasLocal_perm _ _ (Permutation_sym (sortBy_perm _ _))). exact H.
Qed.

(** The local-logic entity is found after both passes:
    [entities.find(e => e.isLocal)] is never [undefined]. *)
Lemma find_local_compact node config :
  exists e, find isLocal (compact (entitiesOf node config)) = Some e.
Proof.
  destruct (find isLocal (compact (entitiesOf node config))) as [e|] eqn:E;
    [eauto|].
  assert (H : existsb isLocal (compact (entitiesOf node config)) = true).
  { apply hasLocal_compact. unfold entitiesOf. reflexivity. }
  apply existsb_exists in H. destruct H as (e & Hin & He).
  rewrite (find_none _ _ E e Hin) in He. discriminate.
Qed.

(** ** Positions after compaction *)

(** Sides that are numbers and not below zero. *)
Definition sidesNonneg (e : Entity) : Prop := nonneg (e_w e) /\ nonneg (e_h e).

Lemma bestY_nonneg others entity :
  Forall (fun o => nonneg (e_y o) /\ sidesNonneg o) others ->
  nonneg (bestY others entity).
Proof.
  intros H. unfold bestY.
  apply (fold_left_invariant nonneg (fun o => nonneg (e_y o) /\ sidesNonneg o));
    [|exact H|reflexivity].
  intros best o Hb [Hy [_ Hh]].
  destruct (JS.gt _ 1); [|exact Hb].
  apply max_nonneg; [exact Hb|].
  repeat apply add_nonneg; trivial; reflexivity.
Qed.

Lemma bestX_nonneg others entity :
  Forall (fun o => nonneg (e_x o) /\ nonneg (e_y o) /\ sidesNonneg o) others ->
  nonneg (bestX others entity).
Proof.
  intros H. unfold bestX.
  apply (fold_left_invariant nonneg
           (fun o => nonneg (e_x o) /\ nonneg (e_y o) /\ sidesNonneg o));
    [|exact H|reflexivity].
  intros best o Hb [Hx [_ [Hw _]]].
  destruct (JS.gt _ 1); [|exact Hb].
  apply max_nonneg; [exact Hb|].
  repeat apply add_nonneg; trivial; reflexivity.
Qed.

(** After both passes every entity is at a position that is not below zero,
    when every side is not. *)
Lemma compact_nonneg entities :
  Forall sidesNonneg entities ->
  Forall (fun e => nonneg (e_x e) /\ nonneg (e_y e)) (compact entities).
Proof.
  intros H. unfold compact, sweepX, sweepY.
  apply (@Forall_impl _ (fun e => nonneg (e_x e) /\ nonneg (e_y e) /\ sidesNonneg e)
           (fun e => nonneg (e_x e) /\ nonneg (e_y e))); [tauto|].
  apply (sweepWith_Forall bestX setX
           (fun e => nonneg (e_y e) /\ sidesNonneg e)); [| constructor |].
  - intros done e Hd [Hy Hs]. simpl. repeat split; try apply Hs; trivial.
    apply bestX_nonneg, Hd.
  - apply sortBy_Forall.
    apply (sweepWith_Forall bestY setY sidesNonneg); [| constructor |].
    + intros done e Hd Hs. simpl. split; [|exact Hs].
      apply bestY_nonneg, Hd.
    + apply sortBy_Forall, H.
Qed.

Lemma updatedChildrenOf_In entities c :
  In c (updatedChildrenOf entities) ->
  exists e, In e entities /\ n_x c = e_x e /\ n_y c = e_y e.
Proof.
  unfold updatedChildrenOf. rewrite in_flat_map. intros (e & Hin & Hc).
  exists e. split; [exact Hin|].
  destruct (e_kind e) as [|original]; simpl in Hc; [contradiction|].
  destruct Hc as [<-|[]]. split; reflexivity.
Qed.

(** The sides of the entities of a valid tree are numbers and not below
    zero. *)
Lemma valid_entities node config :
  validConfig config = true -> validNode node = true ->
  (0 <=? fst (localBlock node config)) = true
  /\ (0 <=? snd (localBlock node config)) = true
  /\ Forall (fun c => (0 <=? sz_w (calculatePhysicalSize c config)) = true
                      /\ (0 <=? sz_h (calculatePhysicalSize c config)) = true)
            (children node).
Proof.
  intros Hc Hv.
  destruct (valid_sizes config Hc node Hv) as (_ & _ & _ & Hw & Hh).
  split; [exact Hw|]. split; [exact Hh|].
  destruct (validNode_inv _ Hv) as (_ & _ & _ & _ & Hkids).
  apply (Forall_impl _ (P := fun c => validNode c = true)); [|exact Hkids].
  intros c Hvc. destruct (valid_sizes config Hc c Hvc) as (Hcw & Hch & _).
  split; apply pos_nonneg; assumption.
Qed.

(** The positions the compactor writes back are those of the entities. *)
Lemma organized_positions node config :
  children node <> [] ->
  Forall sidesNonneg (entitiesOf node config) ->
  let result := organizeChildrenMosaic node config in
  nonneg (internalX result)
  /\ nonneg (internalY result)
  /\ Forall (fun c => nonneg (n_x c) /\ nonneg (n_y c)) (children result).
Proof.
  intros Hc Hents.
  pose proof (compact_nonneg _ Hents) as Hpos.
  destruct (find_local_compact node config) as [localLogic Hfind].
  unfold organizeChildrenMosaic.
  destruct (children node) as [|c0 cs] eqn:E; [contradiction|].
  cbv zeta. rewrite Hfind. simpl.
  rewrite Forall_forall in Hpos.
  destruct (Hpos localLogic (proj1 (find_some _ _ Hfind))) as [Hx Hy].
  split; [exact Hx|]. split; [exact Hy|].
  apply Forall_forall. intros c Hin.
  destruct (updatedChildrenOf_In _ _ Hin) as (e & He & -> & ->).
  apply Hpos, He.
Qed.

(** C10, as the claim states it, fails.  [zeroRatioLayout] is linked with the
    stored ratio 0: its local-logic block is [sqrt(100 / 0)], infinitely, high
    and [Infinity * 0], which is [NaN], wide, and the horizontal pass moves
    the child, which the block overlaps on the y axis, past the block to
    [x = NaN].  Such a node is reached from valid modules without overlaps:
    on [deepLayout] the deep optimisation first compacts the inner container,
    whose content with its margins is 122.1 x 100168, stores the ratio 0.00
    for it, and then moves its sibling to [x = NaN]. *)
Lemma zero_ratio_gives_nan_position :
  (children zeroRatioLayout <> []
   /\ isRatioLinked zeroRatioLayout = true
   /\ aspectRatio zeroRatioLayout = 0
   /\ localBlock zeroRatioLayout unitTech = (nan, infinity)
   /\ placements (organizeChildrenMosaic zeroRatioLayout unitTech)
      = [("a"%string, nan, 0)]
   /\ forallb (fun c => 0 <=? n_x c)
        (children (organizeChildrenMosaic zeroRatioLayout unitTech)) = false)
  /\ (validConfig unitTech = true
      /\ validNode deepLayout = true
      /\ checkOverlapsInModule deepLayout unitTech = []
      /\ forallb (fun c => match checkOverlapsInModule c unitTech with
                           | [] => true
                           | _ :: _ => false
                           end) (children deepLayout) = true
      /\ map aspectRatio (children (optimizeLayoutRecursive deepLayout unitTech))
         = [0; 1]
      /\ placements (optimizeLayoutRecursive deepLayout unitTech)
         = [("mid"%string, 0, 0); ("s"%string, nan, 0)]
      /\ forallb (fun c => 0 <=? n_x c)
           (children (optimizeLayoutRecursive deepLayout unitTech)) = false).
Proof.
  split; [split; [discriminate|]|]; vm_compute; repeat split.
Qed.

(** C10, amended.  For a node with at least one child whose local-logic
    block and children all have sides that are numbers and not below zero, the
    node [organizeChildrenMosaic] returns has [internalX >= 0] and
    [internalY >= 0], and every child of it has [x >= 0] and [y >= 0].  The
    sides are such for every valid tree under a valid technology. *)
Theorem compacted_positions_nonneg (node : ModuleNode) (config : TechNodeConfig) :
  children node <> [] ->
  let result := organizeChildrenMosaic node config in
  let placed :=
    (0 <=? internalX result) = true
    /\ (0 <=? internalY result) = true
    /\ Forall (fun c => (0 <=? n_x c) = true /\ (0 <=? n_y c) = true)
              (children result) in
  ((0 <=? fst (localBlock node config)) = true ->
   (0 <=? snd (localBlock node config)) = true ->
   Forall (fun c => (0 <=? sz_w (calculatePhysicalSize c config)) = true
                    /\ (0 <=? sz_h (calculatePhysicalSize c config)) = true)
          (children node) ->
   placed)
  /\ (validConfig config = true -> validNode node = true -> placed).
Proof.
  intros Hc result placed.
  assert (H : (0 <=? fst (localBlock node config)) = true ->
              (0 <=? snd (localBlock node config)) = true ->
              Forall (fun c => (0 <=? sz_w (calculatePhysicalSize c config)) = true
                               /\ (0 <=? sz_h (calculatePhysicalSize c config)) = true)
                     (children node) ->
              placed).
  { intros Hw Hh Hcs. apply (organized_positions node config Hc).
    unfold entitiesOf. destruct (localBlock node config) as [localW localH].
    constructor; [split; assumption|].
    apply Forall_map. exact Hcs. }
  split; [exact H|].
  intros Hcfg Hv. destruct (valid_entities node config Hcfg Hv) as (Hw & Hh & Hcs).
  exact (H Hw Hh Hcs).
Qed.

(** The theorem at three modules beside and above each other. *)
Lemma compacted_positions_nonneg_witness :
  let result := organizeChildrenMosaic sliverLayout unitTech in
  (0 <=? internalX result) = true
  /\ (0 <=? internalY result) = true
  /\ Forall (fun c => (0 <=? n_x c) = true /\ (0 <=? n_y c) = true)
            (children result).
Proof.
  assert (Hc : children sliverLayout <> []) by discriminate.
  exact (proj2 (compacted_positions_nonneg sliverLayout unitTech Hc)
           eq_refl eq_refl).
Defined.

(** ** Overlaps after compaction *)

(** C1.  The claim is violated on two inputs without any overlap.  On
    [sliverLayout] the vertical pass rests [D] on [C] at y = 116 and leaves
    [A], 116.5 high, at y = 0; the horizontal pass then ignores the overlap of
    0.5 between [A] and [D] on the y axis, since it only looks at overlaps
    above 1, and moves [A] to x = 166, under [D]: the detector reports the
    marker 48 x 0.5.  On [linkedLayout] the compactor rests the module on the
    local-logic block of 100 x 100 and then stores the ratio 0.25, which,
    the node being linked, reshapes the block to 50 x 200: the detector
    reports the marker 48 x 84. *)
Theorem compaction_leaves_overlaps :
  (checkOverlapsInModule sliverLayout unitTech = []
   /\ placements (organizeChildrenMosaic sliverLayout unitTech)
      = [("C"%string, 0, 0); ("D"%string, 0, 116); ("A"%string, 166, 0)]
   /\ checkOverlapsInModule (organizeChildrenMosaic sliverLayout unitTech) unitTech
      = [{| m_x := 166; m_y := 116; m_w := 48; m_h := 0.5;
            ids := ("D"%string, "A"%string) |}])
  /\ (checkOverlapsInModule linkedLayout unitTech = []
      /\ localBlock linkedLayout unitTech = (100, 100)
      /\ placements (organizeChildrenMosaic linkedLayout unitTech)
         = [("a"%string, 0, 116)]
      /\ aspectRatio (organizeChildrenMosaic linkedLayout unitTech) = 0.25
      /\ localBlock (organizeChildrenMosaic linkedLayout unitTech) unitTech
         = (50, 200)
      /\ checkOverlapsInModule (organizeChildrenMosaic linkedLayout unitTech) unitTech
         = [{| m_x := 0; m_y := 116; m_w := 48; m_h := 84;
               ids := ("internal"%string, "a"%string) |}]).
Proof. vm_compute. repeat split. Qed.

(** ** Compacting twice *)

(** C5, as the claim states it, fails.  On [stackedLayout] the first
    application rests [A] and [B] on [C] at y = 100 and then closes up the
    row: [C] goes to x = 0 and [B] to x = 64.5, beside [A] and no longer over
    [C].  The second application therefore drops [B] to y = 0 and moves it to
    x = 66, beside [C]. *)
Lemma second_compaction_moves_a_child :
  let once := organizeChildrenMosaic stackedLayout unitTech in
  let twice := organizeChildrenMosaic once unitTech in
  checkOverlapsInModule stackedLayout unitTech = []
  /\ placements once
     = [("A"%string, 0, 100); ("C"%string, 0, 0); ("B"%string, 64.5, 100)]
  /\ checkOverlapsInModule once unitTech = []
  /\ placements twice
     = [("C"%string, 0, 0); ("A"%string, 0, 100); ("B"%string, 66, 0)]
  /\ twice <> once.
Proof.
  cbv zeta. repeat split; try (vm_compute; reflexivity).
  intros H.
  apply (f_equal (fun n => hd 0 (map n_y (children n)) =? 0)) in H.
  vm_compute in H. discriminate H.
Qed.

(** C5, amended.  On a node without children a second application of
    [organizeChildrenMosaic] changes nothing: the first has set
    [internalX = internalY = 0] and kept the rest.  On a node with children a
    second application can move them again. *)
Theorem compactor_idempotent_without_children
    (node : ModuleNode) (config : TechNodeConfig) :
  children node = [] ->
  organizeChildrenMosaic (organizeChildrenMosaic node config) config
  = organizeChildrenMosaic node config.
Proof.
  intros H. unfold organizeChildrenMosaic. rewrite H. simpl. rewrite H.
  reflexivity.
Qed.

(** The theorem at a module of 100 registers. *)
Lemma compactor_idempotent_without_children_witness :
  organizeChildrenMosaic
    (organizeChildrenMosaic (container "m" 100 []) unitTech) unitTech
  = organizeChildrenMosaic (container "m" 100 []) unitTech.
Proof.
  apply (compactor_idempotent_without_children (container "m" 100 []) unitTech).
  reflexivity.
Defined.

(** * The application around the core: lookups, edits and the canvas *)

(** ** Lookups in the tree *)

Lemma findModuleById_eq node id :
  findModuleById node id =
  if String.eqb (n_id node) (realIdOf id) then Some node
  else firstFound (fun child => findModuleById child id) (children node).
Proof. destruct node; reflexivity. Qed.

Lemma findParentOf_eq node tid :
  findParentOf node tid =
  if includes ":internal" tid && String.eqb (n_id node) (realIdOf tid) then Some node
  else if existsb (fun c => String.eqb (n_id c) (realIdOf tid)) (children node)
  then Some node
  else firstFound (fun child => findParentOf child tid) (children node).
Proof. destruct node; reflexivity. Qed.

Lemma traverse_eq node : traverse node = node :: flat_map traverse (children node).
Proof. destruct node; reflexivity. Qed.

Lemma treeIds_traverse node : treeIds node = map n_id (traverse node).
Proof.
  induction node as [node IH] using ModuleNode_tree_ind.
  rewrite treeIds_eq, traverse_eq. simpl. f_equal.
  induction IH as [|c cs Hc _ IHcs]; simpl; [reflexivity|].
  rewrite map_app, Hc, IHcs. reflexivity.
Qed.

(** The search loop over the children is a search of their traversals. *)
Lemma firstFound_find (p : ModuleNode -> bool) (f : ModuleNode -> option ModuleNode)
    (cs : list ModuleNode) :
  Forall (fun c => f c = find p (traverse c)) cs ->
  firstFound f cs = find p (flat_map traverse cs).
Proof.
  induction 1 as [|c cs Hc _ IH]; simpl; [reflexivity|].
  rewrite Hc, IH. clear.
  induction (traverse c) as [|n l IHl]; simpl; [reflexivity|].
  destruct (p n); [reflexivity|exact IHl].
Qed.

(** [findModuleById] returns the first node, a node before its children,
    that carries the id. *)
Lemma findModuleById_find node id :
  findModuleById node id
  = find (fun n => String.eqb (n_id n) (realIdOf id)) (traverse node).
Proof.
  induction node as [node IH] using ModuleNode_tree_ind.
  rewrite findModuleById_eq, traverse_eq. simpl.
  destruct (String.eqb (n_id node) (realIdOf id)); [reflexivity|].
  apply firstFound_find, IH.
Qed.

Lemma realIdOf_app_colon s t : realIdOf (s ++ ":" ++ t) = realIdOf s.
Proof.
  induction s as [|c s IH]; simpl in *; [reflexivity|].
  destruct (Ascii.eqb c ":"); [reflexivity|]. rewrite IH. reflexivity.
Qed.

Lemma realIdOf_idem s : realIdOf (realIdOf s) = realIdOf s.
Proof.
  induction s as [|c s IH]; simpl; [reflexivity|].
  destruct (Ascii.eqb c ":") eqn:E; simpl; [reflexivity|]. rewrite E, IH. reflexivity.
Qed.

Lemma findModuleById_None node id :
  findModuleById node id = None <-> ~ In (realIdOf id) (treeIds node).
Proof.
  rewrite findModuleById_find, treeIds_traverse.
  induction (traverse node) as [|n l IHl]; simpl.
  - split; [intros _ []|reflexivity].
  - destruct (String.eqb (n_id n) (realIdOf id)) eqn:E.
    + apply String.eqb_eq in E. split; [discriminate|]. intros H. exfalso. auto.
    + apply String.eqb_neq in E. rewrite IHl. split.
      * intros H [H1|H1]; [exact (E H1)|exact (H H1)].
      * intros H H1. apply H. right. exact H1.
Qed.

(** X1.  [findModuleById] finds a node of the tree that carries the id up to its
    first colon, the first such node in [traverse] order; it finds none
    exactly when no node carries it; and it does not read past the first
    colon, so a virtual id [id:internal] finds the owner of [id]. *)
Theorem findModuleById_spec (node : ModuleNode) (id : string) :
  (forall found, findModuleById node id = Some found ->
     n_id found = realIdOf id
     /\ exists before after,
          traverse node = before ++ found :: after
          /\ Forall (fun n => n_id n <> realIdOf id) before)
  /\ (findModuleById node id = None <-> ~ In (realIdOf id) (treeIds node))
  /\ (forall suffix, findModuleById node (id ++ ":" ++ suffix) = findModuleById node id).
Proof.
  split; [|split].
  - intros found H. rewrite findModuleById_find in H.
    induction (traverse node) as [|n l IHl]; simpl in H; [discriminate|].
    destruct (String.eqb (n_id n) (realIdOf id)) eqn:E.
    + injection H as <-. apply String.eqb_eq in E. split; [exact E|].
      exists [], l. split; [reflexivity|constructor].
    + destruct (IHl H) as (Hid & before & after & Hl & Hb).
      split; [exact Hid|]. exists (n :: before), after. split.
      * simpl. rewrite Hl. reflexivity.
      * constructor; [|exact Hb]. apply String.eqb_neq, E.
  - apply findModuleById_None.
  - intros suffix. rewrite !findModuleById_find, realIdOf_app_colon. reflexivity.
Qed.

Lemma firstFound_Some {A B : Type} (f : A -> option B) l b :
  firstFound f l = Some b -> exists a, In a l /\ f a = Some b.
Proof.
  induction l as [|a l IH]; simpl; [discriminate|].
  destruct (f a) eqn:E.
  - intros H. injection H as <-. exists a. auto.
  - intros H. destruct (IH H) as (a' & Hin & Ha'). exists a'. auto.
Qed.

Lemma firstFound_None {A B : Type} (f : A -> option B) l :
  firstFound f l = None <-> Forall (fun a => f a = None) l.
Proof.
  induction l as [|a l IH]; simpl.
  - split; [constructor|reflexivity].
  - destruct (f a) eqn:E.
    + split; [discriminate|]. intros H. inversion H; congruence.
    + rewrite IH. split; [intros H; constructor; assumption|].
      intros H. inversion H; assumption.
Qed.

(** Below a node that has no child with the id, the search returns a node
    with such a child: the [:internal] rule cannot fire there. *)
Lemma findParentOf_below node tid :
  forall p, String.eqb (n_id node) (realIdOf tid) = false ->
  findParentOf node tid = Some p ->
  In p (traverse node) /\ hasChildWithId p (realIdOf tid) = true.
Proof.
  induction node as [node IH] using ModuleNode_tree_ind.
  intros p Hid H. rewrite findParentOf_eq, Hid, andb_false_r in H.
  rewrite traverse_eq.
  destruct (existsb _ (children node)) eqn:E.
  - injection H as <-. split; [left; reflexivity|exact E].
  - apply firstFound_Some in H as (c & Hin & Hc).
    rewrite Forall_forall in IH.
    assert (Hcid : String.eqb (n_id c) (realIdOf tid) = false).
    { destruct (String.eqb (n_id c) (realIdOf tid)) eqn:Ec; [|reflexivity].
      assert (existsb (fun c => String.eqb (n_id c) (realIdOf tid)) (children node) = true)
        by (apply existsb_exists; exists c; auto).
      congruence. }
    destruct (IH c Hin p Hcid Hc) as [Hp Hq]. split; [|exact Hq].
    right. apply in_flat_map. exists c. auto.
Qed.

(** What a parent search returns: a node with a child of that id, or the
    root itself under the [:internal] rule. *)
Lemma findParentOf_found root tid p :
  findParentOf root tid = Some p ->
  In p (traverse root)
  /\ (hasChildWithId p (realIdOf tid) = true
      \/ (p = root /\ includes ":internal" tid = true /\ n_id root = realIdOf tid)).
Proof.
  intros H.
  destruct (String.eqb (n_id root) (realIdOf tid)) eqn:Hid.
  - rewrite findParentOf_eq, Hid, andb_true_r in H.
    destruct (includes ":internal" tid) eqn:Hi.
    + injection H as <-. split; [rewrite traverse_eq; left; reflexivity|].
      right. apply String.eqb_eq in Hid. auto.
    + destruct (existsb _ (children root)) eqn:E.
      * injection H as <-. split; [rewrite traverse_eq; left; reflexivity|].
        left. exact E.
      * apply firstFound_Some in H as (c & Hin & Hc).
        assert (Hcid : String.eqb (n_id c) (realIdOf tid) = false).
        { destruct (String.eqb (n_id c) (realIdOf tid)) eqn:Ec; [|reflexivity].
          assert (existsb (fun c => String.eqb (n_id c) (realIdOf tid))
                    (children root) = true)
            by (apply existsb_exists; exists c; auto).
          congruence. }
        destruct (findParentOf_below c tid p Hcid Hc) as [Hp Hq].
        split; [|left; exact Hq]. rewrite traverse_eq. right.
        apply in_flat_map. exists c. auto.
  - destruct (findParentOf_below root tid p Hid H) as [Hp Hq]. auto.
Qed.

Lemma findParentOf_None root tid :
  findParentOf root tid = None <->
  (includes ":internal" tid && String.eqb (n_id root) (realIdOf tid) = false)
  /\ Forall (fun n => hasChildWithId n (realIdOf tid) = false) (traverse root).
Proof.
  induction root as [root IH] using ModuleNode_tree_ind.
  rewrite findParentOf_eq, traverse_eq.
  destruct (includes ":internal" tid && String.eqb (n_id root) (realIdOf tid)) eqn:E1.
  - split; [discriminate|]. intros [H _]. discriminate.
  - unfold hasChildWithId at 1.
    destruct (existsb _ (children root)) eqn:E2.
    + split; [discriminate|]. intros [_ H]. inversion H; congruence.
    + rewrite firstFound_None. split.
      * intros H. split; [reflexivity|]. constructor; [exact E2|].
        apply Forall_flat_map. rewrite Forall_forall in *.
        intros c Hin. apply (IH c Hin), (H c Hin).
      * intros [_ H]. inversion H as [|? ? _ Hrest]; subst.
        apply Forall_flat_map in Hrest. rewrite Forall_forall in *.
        intros c Hin. apply (IH c Hin). split; [|exact (Hrest c Hin)].
        destruct (includes ":internal" tid); [|reflexivity]. simpl.
        destruct (String.eqb (n_id c) (realIdOf tid)) eqn:Ec; [|reflexivity].
        assert (existsb (fun c => String.eqb (n_id c) (realIdOf tid))
                  (children root) = true)
          by (apply existsb_exists; exists c; auto).
        congruence.
Qed.

Lemma NoDup_flat_map_elim {A B : Type} (f : A -> list B) l a :
  NoDup (flat_map f l) -> In a l -> NoDup (f a).
Proof.
  induction l as [|x l IH]; simpl; intros H Hin; [contradiction|].
  destruct Hin as [->|Hin].
  - exact (NoDup_app_remove_r _ _ H).
  - apply IH; [exact (NoDup_app_remove_l _ _ H)|exact Hin].
Qed.

(** In a tree without repeated ids no node has a child with its own id. *)
Lemma subtree_ids root :
  NoDup (treeIds root) ->
  forall p, In p (traverse root) ->
  Forall (fun c => n_id c <> n_id p) (children p).
Proof.
  induction root as [root IH] using ModuleNode_tree_ind.
  intros Hnd p Hp. rewrite treeIds_eq in Hnd. inversion Hnd as [|? ? Hroot Hkids]; subst.
  rewrite traverse_eq in Hp. destruct Hp as [<-|Hp].
  - apply Forall_forall. intros c Hin E. apply Hroot.
    apply in_flat_map. exists c. split; [exact Hin|].
    rewrite treeIds_eq, E. left. reflexivity.
  - apply in_flat_map in Hp as (c & Hin & Hp).
    rewrite Forall_forall in IH. apply (IH c Hin); [|exact Hp].
    exact (NoDup_flat_map_elim treeIds _ c Hkids Hin).
Qed.

(** X2.  What [findParentOf] returns is a node of the tree that has a child
    with the id, or the root itself for its own [:internal] id; it returns
    nothing exactly when no node has such a child and the root rule does not
    apply.  So in a tree without repeated ids the node returned carries the
    id only if it is the root: for the local-logic block [id:internal] of a
    module below the root the answer is not the module but the module that
    has it as a child. *)
Theorem findParentOf_spec (root : ModuleNode) (tid : string) :
  (forall p, findParentOf root tid = Some p ->
     In p (traverse root)
     /\ (hasChildWithId p (realIdOf tid) = true
         \/ (p = root /\ includes ":internal" tid = true
             /\ n_id root = realIdOf tid)))
  /\ (findParentOf root tid = None <->
      (includes ":internal" tid && String.eqb (n_id root) (realIdOf tid) = false)
      /\ Forall (fun n => hasChildWithId n (realIdOf tid) = false) (traverse root))
  /\ (NoDup (treeIds root) ->
      forall p, findParentOf root tid = Some p ->
      (n_id p = realIdOf tid -> p = root)
      /\ (n_id root <> realIdOf tid ->
          n_id p <> realIdOf tid
          /\ exists c, In c (children p) /\ n_id c = realIdOf tid)).
Proof.
  split; [intros p; apply findParentOf_found|].
  split; [apply findParentOf_None|].
  intros Hnd p H. destruct (findParentOf_found root tid p H) as [Hp Hc].
  pose proof (subtree_ids root Hnd p Hp) as Hsub. rewrite Forall_forall in Hsub.
  split.
  - intros Hid. destruct Hc as [Hc|[-> _]]; [|reflexivity]. exfalso.
    apply existsb_exists in Hc as (c & Hin & Ec). apply String.eqb_eq in Ec.
    apply (Hsub c Hin). congruence.
  - intros Hroot. destruct Hc as [Hc|(_ & _ & E)]; [|contradiction].
    apply existsb_exists in Hc as (c & Hin & Ec). apply String.eqb_eq in Ec.
    split; [|exists c; auto]. intros E. apply (Hsub c Hin). congruence.
Qed.

(** In the tree the application starts with, the local-logic block of
    [cpu_sub] is looked up, and what comes back is the root. *)
Lemma findParentOf_spec_witness :
  NoDup (treeIds initialData)
  /\ n_id initialData <> realIdOf "cpu_sub:internal"
  /\ option_map n_id (findParentOf initialData "cpu_sub:internal") = Some "root"%string
  /\ (exists c, In c (children initialData) /\ n_id c = realIdOf "cpu_sub:internal").
Proof.
  assert (Hnd : NoDup (treeIds initialData)).
  { vm_compute. repeat constructor; simpl; intuition discriminate. }
  assert (Hroot : n_id initialData <> realIdOf "cpu_sub:internal") by discriminate.
  destruct (findParentOf_spec initialData "cpu_sub:internal") as (_ & _ & H).
  destruct (H Hnd initialData eq_refl) as [_ H2].
  exact (conj Hnd (conj Hroot (conj eq_refl (proj2 (H2 Hroot))))).
Defined.

(** ** Rewriting the tree: known ids *)

Lemma dropNull_cons_Some {A : Type} (a : A) l : dropNull (Some a :: l) = a :: dropNull l.
Proof. reflexivity. Qed.

Lemma dropNull_cons_None {A : Type} (l : list (option A)) : dropNull (None :: l) = dropNull l.
Proof. reflexivity. Qed.

Lemma dropNull_app {A : Type} (l l' : list (option A)) :
  dropNull (l ++ l') = dropNull l ++ dropNull l'.
Proof. unfold dropNull. apply flat_map_app. Qed.

(** What is left after a deletion: the ids of the survivors, none of them
    the deleted one. *)
Lemma deleteNodeInTree_ids root id :
  forall t, deleteNodeInTree root id = Some t ->
  n_id t = n_id root
  /\ ~ In id (treeIds t)
  /\ incl (treeIds t) (treeIds root).
Proof.
  induction root as [root IH] using ModuleNode_tree_ind.
  intros t H. rewrite deleteNodeInTree_eq in H.
  destruct (String.eqb (n_id root) id) eqn:E; [discriminate|].
  injection H as <-. apply String.eqb_neq in E.
  split; [reflexivity|].
  rewrite (treeIds_eq (withChildren _ _)), (treeIds_eq root). simpl.
  assert (Hkids : ~ In id (flat_map treeIds
                     (dropNull (map (fun child => deleteNodeInTree child id) (children root))))
                  /\ incl (flat_map treeIds
                     (dropNull (map (fun child => deleteNodeInTree child id) (children root))))
                          (flat_map treeIds (children root))).
  { induction IH as [|c cs Hc _ IHcs].
    - split; [intros []|apply incl_refl].
    - destruct IHcs as [Hn Hi]. rewrite map_cons. cbn [flat_map].
      destruct (deleteNodeInTree c id) as [t|] eqn:Ec.
      + rewrite dropNull_cons_Some. cbn [flat_map].
        destruct (Hc t eq_refl) as (_ & Hnt & Hit). split.
        * intros Hin. apply in_app_or in Hin as [Hin|Hin]; auto.
        * apply incl_app; [apply incl_appl, Hit|apply incl_appr, Hi].
      + rewrite dropNull_cons_None. split; [exact Hn|apply incl_appr, Hi]. }
  destruct Hkids as [Hn Hi]. split.
  - intros [Hin|Hin]; [exact (E Hin)|exact (Hn Hin)].
  - intros x [Hx|Hx]; [left; exact Hx|right; exact (Hi x Hx)].
Qed.

(** X3.  Deleting an id removes every node that carries it, and the nodes below
    them, and nothing else is added: the result is [null] exactly when the
    root carries the id; otherwise it is a tree with the same root id, whose
    ids are ids of the input, none of them the deleted one. *)
Theorem deleteNodeInTree_removes (root : ModuleNode) (id : string) :
  (deleteNodeInTree root id = None <-> n_id root = id)
  /\ (forall t, deleteNodeInTree root id = Some t ->
        n_id t = n_id root
        /\ ~ In id (treeIds t)
        /\ incl (treeIds t) (treeIds root)).
Proof.
  split; [|apply deleteNodeInTree_ids].
  rewrite deleteNodeInTree_eq.
  destruct (String.eqb (n_id root) id) eqn:E.
  - apply String.eqb_eq in E. split; auto.
  - apply String.eqb_neq in E. split; [discriminate|]. intros H. exfalso. auto.
Qed.

Lemma deleteNodeInTree_removes_witness :
  deleteNodeInTree initialData "cpu_sub"
  = Some (withChildren initialData (tl (children initialData)))
  /\ ~ In "cpu_sub"%string (treeIds (withChildren initialData (tl (children initialData))))
  /\ incl (treeIds (withChildren initialData (tl (children initialData))))
          (treeIds initialData).
Proof.
  assert (E : deleteNodeInTree initialData "cpu_sub"
              = Some (withChildren initialData (tl (children initialData))))
    by reflexivity.
  destruct (deleteNodeInTree_removes initialData "cpu_sub") as [_ H].
  destruct (H _ E) as (_ & Hn & Hi).
  exact (conj E (conj Hn Hi)).
Defined.

Lemma withChildren_withChildren root cs cs' :
  withChildren (withChildren root cs) cs' = withChildren root cs'.
Proof. reflexivity. Qed.

(** X4.  Adding a node whose id the tree does not have and then deleting that
    id gives back the tree, wherever the node was added, and also when the
    parent id was not found. *)
Theorem add_delete_round_trip (root : ModuleNode) (pId : string) (newNode : ModuleNode) :
  ~ In (n_id newNode) (treeIds root) ->
  deleteNodeInTree (addNodeToParent root pId newNode) (n_id newNode) = Some root.
Proof.
  revert root. induction root as [root IH] using ModuleNode_tree_ind. intros Hfresh.
  destruct (absent_id_inv _ _ Hfresh) as [Hroot Hkids].
  rewrite addNodeToParent_eq.
  destruct (String.eqb (n_id root) pId) eqn:E.
  - rewrite deleteNodeInTree_eq. cbn [n_id children withChildren]. rewrite Hroot. f_equal.
    fold (withChildren root (children root ++ [newNode])).
    rewrite withChildren_withChildren.
    rewrite map_app, dropNull_app. cbn [map].
    rewrite (deleteNodeInTree_eq newNode), String.eqb_refl, dropNull_cons_None.
    change (dropNull (@nil (option ModuleNode))) with (@nil ModuleNode).
    rewrite app_nil_r.
    rewrite dropNull_map_Some.
    + apply withChildren_same.
    + apply Forall_impl with (2 := Hkids). intros c Hc.
      apply deleteNodeInTree_absent, Hc.
  - rewrite deleteNodeInTree_eq. cbn [n_id children withChildren]. rewrite Hroot. f_equal.
    fold (withChildren root
            (map (fun child => addNodeToParent child pId newNode) (children root))).
    rewrite withChildren_withChildren.
    rewrite map_map.
    rewrite dropNull_map_Some.
    + apply withChildren_same.
    + rewrite Forall_forall in *. intros c Hin. apply (IH c Hin), (Hkids c Hin).
Qed.

Lemma add_delete_round_trip_witness :
  deleteNodeInTree (onAddChild initialData "cpu_sub" "m_1700000000000") "m_1700000000000"
  = Some initialData.
Proof.
  apply (add_delete_round_trip initialData "cpu_sub" (newBlock "m_1700000000000")).
  vm_compute. intuition discriminate.
Defined.

Lemma firstFound_map {A B C : Type} (g : A -> B) (f : B -> option C) l :
  firstFound f (map g l) = firstFound (fun a => f (g a)) l.
Proof.
  induction l as [|a l IH]; simpl; [reflexivity|]. rewrite IH. reflexivity.
Qed.

Lemma firstFound_ext {A B : Type} (f g : A -> option B) l :
  Forall (fun a => f a = g a) l -> firstFound f l = firstFound g l.
Proof.
  induction 1 as [|a l Ha _ IH]; simpl; [reflexivity|]. rewrite Ha, IH. reflexivity.
Qed.

Lemma firstFound_option_map {A B C : Type} (h : B -> C) (f : A -> option B) l :
  firstFound (fun a => option_map h (f a)) l = option_map h (firstFound f l).
Proof.
  induction l as [|a l IH]; simpl; [reflexivity|].
  destruct (f a); simpl; [reflexivity|exact IH].
Qed.

Lemma n_id_spread n updates : n_id (spread n updates) = override (n_id n) (u_id updates).
Proof. reflexivity. Qed.

(** Looking up an id after an update of that id. *)
Lemma find_after_update root id updates :
  realIdOf id = id ->
  override id (u_id updates) = id ->
  findModuleById (updateNodeInTree root id updates) id
  = option_map (fun n => spread n updates) (findModuleById root id).
Proof.
  intros Hreal Hkeep.
  induction root as [root IH] using ModuleNode_tree_ind.
  rewrite updateNodeInTree_eq, (findModuleById_eq root), Hreal.
  destruct (String.eqb (n_id root) id) eqn:E.
  - rewrite findModuleById_eq, Hreal, n_id_spread.
    apply String.eqb_eq in E. rewrite E, Hkeep, String.eqb_refl. reflexivity.
  - rewrite findModuleById_eq, Hreal. cbn [n_id children withChildren]. rewrite E.
    rewrite firstFound_map, <- firstFound_option_map.
    apply firstFound_ext, IH.
Qed.

(** X5.  Looking up an id after an update of that id finds the node that the
    lookup found before, with the update applied, whenever the update leaves
    the id as it is and the id has no colon. *)
Theorem update_then_find (root : ModuleNode) (id : string) (updates : PartialModuleNode) :
  realIdOf id = id ->
  override id (u_id updates) = id ->
  findModuleById (updateNodeInTree root id updates) id
  = option_map (fun n => spread n updates) (findModuleById root id).
Proof. apply find_after_update. Qed.

Lemma update_then_find_witness :
  findModuleById
    (updateNodeInTree initialData "core1" (justInternalAspectRatio 2)) "core1"
  = option_map (fun n => spread n (justInternalAspectRatio 2))
      (findModuleById initialData "core1").
Proof.
  apply (update_then_find initialData "core1" (justInternalAspectRatio 2));
    reflexivity.
Defined.

Lemma spread_spread n updates : spread (spread n updates) updates = spread n updates.
Proof.
  destruct n, updates as [a b c d e f g h i j k l m o]. unfold spread. simpl.
  destruct a, b, c, d, e, f, g, h, i, j, k, l, m, o; reflexivity.
Qed.

(** X6.  Sending the same update twice changes nothing more than sending it
    once, whenever the update leaves the id as it is. *)
Theorem update_twice (root : ModuleNode) (id : string) (updates : PartialModuleNode) :
  override id (u_id updates) = id ->
  updateNodeInTree (updateNodeInTree root id updates) id updates
  = updateNodeInTree root id updates.
Proof.
  intros Hkeep.
  induction root as [root IH] using ModuleNode_tree_ind.
  rewrite (updateNodeInTree_eq root).
  destruct (String.eqb (n_id root) id) eqn:E.
  - rewrite updateNodeInTree_eq, n_id_spread.
    apply String.eqb_eq in E. rewrite E, Hkeep, String.eqb_refl.
    apply spread_spread.
  - rewrite updateNodeInTree_eq. cbn [n_id children withChildren]. rewrite E.
    fold (withChildren root (map (fun child => updateNodeInTree child id updates)
                                 (children root))).
    rewrite withChildren_withChildren, map_map. f_equal.
    apply map_ext_Forall, IH.
Qed.

Lemma update_twice_witness :
  updateNodeInTree
    (updateNodeInTree initialData "core1" (justInternalAspectRatio 2))
    "core1" (justInternalAspectRatio 2)
  = updateNodeInTree initialData "core1" (justInternalAspectRatio 2).
Proof.
  apply (update_twice initialData "core1" (justInternalAspectRatio 2)). reflexivity.
Defined.

(** X7.  A node added under an id that the tree has can be looked up by its
    own id, and is found as it was added, whenever the tree did not have the
    new id before and the new id has no colon. *)
Theorem add_then_find (root : ModuleNode) (pId : string) (newNode : ModuleNode) :
  In pId (treeIds root) ->
  ~ In (n_id newNode) (treeIds root) ->
  realIdOf (n_id newNode) = n_id newNode ->
  findModuleById (addNodeToParent root pId newNode) (n_id newNode) = Some newNode.
Proof.
  intros Hp Hfresh Hreal. revert Hp Hfresh.
  induction root as [root IH] using ModuleNode_tree_ind. intros Hp Hfresh.
  destruct (absent_id_inv _ _ Hfresh) as [Hroot Hkids].
  assert (Hnone : forall cs, Forall (fun c => ~ In (n_id newNode) (treeIds c)) cs ->
            firstFound (fun child => findModuleById child (n_id newNode)) cs = None).
  { intros cs Hcs. apply firstFound_None. apply Forall_impl with (2 := Hcs).
    intros c Hc. apply findModuleById_None. rewrite Hreal. exact Hc. }
  rewrite addNodeToParent_eq, findModuleById_eq, Hreal.
  destruct (String.eqb (n_id root) pId) eqn:E.
  - cbn [n_id children withChildren]. rewrite Hroot. clear IH Hp.
    induction Hkids as [|c cs Hc Hcs IHcs]; simpl.
    + rewrite findModuleById_eq, Hreal, String.eqb_refl. reflexivity.
    + assert (Hn : findModuleById c (n_id newNode) = None)
        by (apply findModuleById_None; rewrite Hreal; exact Hc).
      rewrite Hn. apply IHcs.
  - cbn [n_id children withChildren]. rewrite Hroot.
    rewrite treeIds_eq in Hp. destruct Hp as [Hp|Hp];
      [apply String.eqb_neq in E; contradiction|].
    clear Hfresh Hroot E.
    induction (children root) as [|c cs IHcs]; simpl in *; [contradiction|].
    pose proof (Forall_inv IH) as IHc. pose proof (Forall_inv Hkids) as Hc.
    destruct (in_dec string_dec pId (treeIds c)) as [Hin|Hout].
    + rewrite (IHc Hin Hc). reflexivity.
    + rewrite (addNodeToParent_absent c pId newNode Hout).
      assert (Hn : findModuleById c (n_id newNode) = None)
        by (apply findModuleById_None; rewrite Hreal; exact Hc).
      rewrite Hn. apply IHcs.
      * exact (Forall_inv_tail IH).
      * apply in_app_or in Hp as [Hp|Hp]; [contradiction|exact Hp].
      * exact (Forall_inv_tail Hkids).
Qed.

Lemma add_then_find_witness :
  findModuleById (onAddChild initialData "gpu_sub" "m_1700000000000") "m_1700000000000"
  = Some (newBlock "m_1700000000000").
Proof.
  apply (add_then_find initialData "gpu_sub" (newBlock "m_1700000000000")).
  - vm_compute. intuition.
  - vm_compute. intuition discriminate.
  - reflexivity.
Defined.

(** ** The layout *)

Lemma place_eq config node absX absY parentId :
  place config node absX absY parentId =
  {| l_id := n_id node; l_parentId := parentId; l_name := n_name node;
     l_x := absX; l_y := absY;
     l_w := sz_w (calculatePhysicalSize node config);
     l_h := sz_h (calculatePhysicalSize node config);
     isInternal := false; actualNode := node |}
  :: {| l_id := n_id node ++ ":internal"; l_parentId := n_id node;
        l_name := "[Local Logic]";
        l_x := absX + GLOBAL_MARGIN + JS.or_num (internalX node) 0;
        l_y := absY + GLOBAL_HEADER + JS.or_num (internalY node) 0;
        l_w := fst (localBlock node config); l_h := snd (localBlock node config);
        isInternal := true; actualNode := node |}
  :: flat_map
       (fun child =>
          place config child
            (absX + GLOBAL_MARGIN + JS.or_num (n_x child) 0)
            (absY + GLOBAL_HEADER + JS.or_num (n_y child) 0)
            (n_id node))
       (children node).
Proof. destruct node; reflexivity. Qed.

Lemma filter_flat_map {A B : Type} (p : B -> bool) (f : A -> list B) l :
  filter p (flat_map f l) = flat_map (fun a => filter p (f a)) l.
Proof.
  induction l as [|a l IH]; simpl; [reflexivity|].
  rewrite filter_app, IH. reflexivity.
Qed.

Lemma map_flat_map {A B C : Type} (g : B -> C) (f : A -> list B) l :
  map g (flat_map f l) = flat_map (fun a => map g (f a)) l.
Proof.
  induction l as [|a l IH]; simpl; [reflexivity|].
  rewrite map_app, IH. reflexivity.
Qed.

Lemma flat_map_ext_Forall {A B : Type} (f g : A -> list B) l :
  Forall (fun a => f a = g a) l -> flat_map f l = flat_map g l.
Proof.
  induction 1 as [|a l Ha _ IH]; simpl; [reflexivity|]. rewrite Ha, IH. reflexivity.
Qed.

Lemma place_rects config node :
  forall absX absY parentId,
  let rs := place config node absX absY parentId in
  map actualNode (filter (fun r => negb (isInternal r)) rs) = traverse node
  /\ map actualNode (filter isInternal rs) = traverse node
  /\ Forall (drawsItsModule config) rs.
Proof.
  induction node as [node IH] using ModuleNode_tree_ind.
  intros absX absY parentId. cbv zeta. rewrite place_eq, traverse_eq.
  cbn [filter isInternal negb map actualNode].
  rewrite !filter_flat_map, !map_flat_map.
  rewrite Forall_forall in IH.
  split; [|split].
  - f_equal. apply flat_map_ext_Forall, Forall_forall. intros c Hin.
    apply (IH c Hin).
  - f_equal. apply flat_map_ext_Forall, Forall_forall. intros c Hin.
    apply (IH c Hin).
  - constructor; [|constructor].
    + unfold drawsItsModule. simpl. auto.
    + unfold drawsItsModule. simpl. repeat split.
    + apply Forall_flat_map, Forall_forall. intros c Hin. apply (IH c Hin).
Qed.

(** X8.  The layout draws every module of the tree exactly once as a module and
    once as local logic, in [traverse] order; a module rectangle carries the
    module's id, name and calculated width and height, a local-logic
    rectangle the id with [:internal] added and the sides of the local
    block; the first rectangle is the root's, at the origin, and [rootW] by
    [rootH] is its size. *)
Theorem performLayout_rects (root : ModuleNode) (config : TechNodeConfig) :
  let layout := performLayout root config in
  map actualNode (filter (fun r => negb (isInternal r)) (rects layout)) = traverse root
  /\ map actualNode (filter isInternal (rects layout)) = traverse root
  /\ List.length (rects layout) = (2 * List.length (traverse root))%nat
  /\ Forall (drawsItsModule config) (rects layout)
  /\ (exists r others,
        rects layout = r :: others
        /\ actualNode r = root /\ isInternal r = false
        /\ l_x r = 0 /\ l_y r = 0 /\ l_w r = rootW layout /\ l_h r = rootH layout).
Proof.
  cbv zeta. unfold performLayout. cbn [rects rootW rootH].
  destruct (place_rects config root 0 0 "root_parent") as (Hm & Hi & Hd).
  cbv zeta in *.
  split; [exact Hm|]. split; [exact Hi|]. split; [|split; [exact Hd|]].
  - rewrite <- Hm at 1. rewrite length_map.
    assert (Hlen : forall rs : list LayoutRect,
              List.length (filter (fun r => negb (isInternal r)) rs)
              = List.length (filter isInternal rs) ->
              List.length rs
              = (2 * List.length (filter (fun r => negb (isInternal r)) rs))%nat).
    { intros rs. induction rs as [|r rs IHrs]; simpl; [reflexivity|].
      assert (Hsum : (List.length (filter (fun r => negb (isInternal r)) rs)
                      + List.length (filter isInternal rs) = List.length rs)%nat).
      { clear. induction rs as [|r rs IH]; simpl; [reflexivity|].
        destruct (isInternal r); simpl; lia. }
      destruct (isInternal r); simpl; lia. }
    apply Hlen. rewrite <- (length_map actualNode), Hm.
    rewrite <- (length_map actualNode (filter isInternal _)), Hi. reflexivity.
  - rewrite place_eq. eexists. eexists. split; [reflexivity|]. simpl. repeat split.
Qed.

Lemma find_flat_map {A B : Type} (p : B -> bool) (f : A -> list B) l :
  find p (flat_map f l) = firstFound (fun a => find p (f a)) l.
Proof.
  induction l as [|a l IH]; simpl; [reflexivity|].
  rewrite <- IH. clear.
  induction (f a) as [|b bs IHb]; simpl; [reflexivity|].
  destruct (p b); [reflexivity|exact IHb].
Qed.

Lemma moduleRectOf_place config selectedId node :
  forall absX absY parentId,
  option_map actualNode (moduleRectOf (place config node absX absY parentId) selectedId)
  = findModuleById node selectedId.
Proof.
  unfold moduleRectOf.
  induction node as [node IH] using ModuleNode_tree_ind.
  intros absX absY parentId. rewrite place_eq, findModuleById_eq.
  cbn [find l_id isInternal negb].
  rewrite andb_true_r, andb_false_r.
  destruct (String.eqb (n_id node) (realIdOf selectedId)); [reflexivity|].
  rewrite find_flat_map, <- firstFound_option_map.
  apply firstFound_ext, Forall_forall. rewrite Forall_forall in IH.
  intros c Hin. apply (IH c Hin).
Qed.

(** X9.  The rectangle the canvas looks up for a selected id (for the overlap
    markers and the ideal outline) is the module rectangle of the node that
    [findModuleById] finds for that id, and there is none exactly when the
    id is not in the tree. *)
Theorem selected_rect_is_found_module
    (root : ModuleNode) (config : TechNodeConfig) (selectedId : string) :
  let rs := rects (performLayout root config) in
  option_map actualNode (moduleRectOf rs selectedId) = findModuleById root selectedId
  /\ (moduleRectOf rs selectedId = None <-> ~ In (realIdOf selectedId) (treeIds root))
  /\ (forall r, moduleRectOf rs selectedId = Some r ->
        isInternal r = false /\ l_id r = realIdOf selectedId
        /\ l_w r = sz_w (calculatePhysicalSize (actualNode r) config)
        /\ l_h r = sz_h (calculatePhysicalSize (actualNode r) config)).
Proof.
  cbv zeta. unfold performLayout. cbn [rects].
  pose proof (moduleRectOf_place config selectedId root 0 0 "root_parent") as H.
  split; [exact H|]. split.
  - rewrite <- findModuleById_None, <- H.
    destruct (moduleRectOf _ selectedId); simpl; split; congruence.
  - intros r Hr. unfold moduleRectOf in Hr.
    pose proof (find_some _ _ Hr) as [Hin Hp].
    apply andb_prop in Hp as [Hid Hint].
    apply String.eqb_eq in Hid. apply negb_true_iff in Hint.
    destruct (place_rects config root 0 0 "root_parent") as (_ & _ & Hd).
    cbv zeta in Hd. rewrite Forall_forall in Hd. specialize (Hd r Hin).
    unfold drawsItsModule in Hd. rewrite Hint in Hd.
    destruct Hd as (_ & _ & Hw & Hh). auto.
Qed.

Lemma selected_rect_is_found_module_witness :
  let rs := rects (performLayout initialData tech7nm) in
  option_map actualNode (moduleRectOf rs "core1:internal")
  = findModuleById initialData "core1:internal"
  /\ option_map l_id (moduleRectOf rs "core1:internal") = Some "core1"%string.
Proof.
  destruct (selected_rect_is_found_module initialData tech7nm "core1:internal")
    as (H & _ & _).
  exact (conj H eq_refl).
Defined.

(** All coordinates of the rectangles placed for a valid tree at a position
    that is not negative. *)
Lemma place_nonneg config :
  validConfig config = true ->
  forall node, validNode node = true ->
  forall absX absY parentId, nonneg absX -> nonneg absY ->
  Forall (fun r => nonneg (l_x r) /\ nonneg (l_y r)
                   /\ nonneg (l_w r) /\ nonneg (l_h r))
         (place config node absX absY parentId).
Proof.
  intros Hc. induction node as [node IH] using ModuleNode_tree_ind.
  intros Hv absX absY parentId Hx Hy. rewrite place_eq.
  destruct (validNode_inv _ Hv) as (_ & _ & _ & (_ & _ & Hix & Hiy) & Hkids).
  destruct (valid_sizes config Hc node Hv) as (Hw & Hh & _ & HwL & HhL).
  assert (Hm : nonneg (absX + GLOBAL_MARGIN))
    by (apply add_nonneg; [exact Hx|reflexivity]).
  assert (Hhd : nonneg (absY + GLOBAL_HEADER))
    by (apply add_nonneg; [exact Hy|reflexivity]).
  constructor; [|constructor].
  - simpl. repeat split; try assumption; apply pos_nonneg; assumption.
  - simpl. repeat split; try assumption; apply add_nonneg; try assumption;
      apply or_num_nonneg, nonneg_notneg; assumption.
  - apply Forall_flat_map. rewrite Forall_forall in *. intros c Hin.
    destruct (validNode_inv _ (Hkids c Hin)) as (_ & _ & _ & (Hcx & Hcy & _) & _).
    apply (IH c Hin (Hkids c Hin));
      apply add_nonneg; try assumption;
      apply or_num_nonneg, nonneg_notneg; assumption.
Qed.

(** X10.  For a valid tree under a valid technology nothing is drawn at a
    negative coordinate or with a negative side: every rectangle of the
    layout has [x], [y], [w] and [h] that are numbers and at least zero. *)
Theorem performLayout_nonneg (root : ModuleNode) (config : TechNodeConfig) :
  validConfig config = true -> validNode root = true ->
  Forall (fun r => (0 <=? l_x r) = true /\ (0 <=? l_y r) = true
                   /\ (0 <=? l_w r) = true /\ (0 <=? l_h r) = true)
         (rects (performLayout root config)).
Proof.
  intros Hc Hv. unfold performLayout. cbn [rects].
  apply (place_nonneg config Hc root Hv); reflexivity.
Qed.

(** The theorem at the tree and the technology the application starts
    with. *)
Lemma performLayout_nonneg_witness :
  Forall (fun r => (0 <=? l_x r) = true /\ (0 <=? l_y r) = true
                   /\ (0 <=? l_w r) = true /\ (0 <=? l_h r) = true)
         (rects (performLayout initialData tech7nm)).
Proof. exact (performLayout_nonneg initialData tech7nm eq_refl eq_refl). Defined.

(** ** The footprint encloses its content *)

Lemma max_upto_l a b : nonneg a -> nonneg b -> upto a (JS.max a b).
Proof.
  intros Ha Hb. split; [exact Ha|].
  apply max_ge. rewrite is_nan_spec. apply nonneg_not_nan, max_nonneg; assumption.
Qed.

Lemma max_upto_r a b : nonneg a -> nonneg b -> upto b (JS.max a b).
Proof.
  intros Ha Hb. split; [exact Hb|].
  apply max_ge. rewrite is_nan_spec. apply nonneg_not_nan, max_nonneg; assumption.
Qed.

(** The extent is at least where it started and at least the far corner of
    every child. *)
Lemma contentExtent_covers info :
  Forall (fun c => nonneg (JS.or_num (n_x (fst c)) 0 + sz_w (snd c))
                   /\ nonneg (JS.or_num (n_y (fst c)) 0 + sz_h (snd c))) info ->
  forall m : float * float, nonneg (fst m) -> nonneg (snd m) ->
  let f := fun (m : float * float) (c : ModuleNode * PhysicalSize) =>
             (JS.max (fst m) (JS.or_num (n_x (fst c)) 0 + sz_w (snd c)),
              JS.max (snd m) (JS.or_num (n_y (fst c)) 0 + sz_h (snd c))) in
  (upto (fst m) (fst (fold_left f info m)) /\ upto (snd m) (snd (fold_left f info m)))
  /\ Forall (fun c =>
               upto (JS.or_num (n_x (fst c)) 0 + sz_w (snd c)) (fst (fold_left f info m))
               /\ upto (JS.or_num (n_y (fst c)) 0 + sz_h (snd c))
                       (snd (fold_left f info m))) info.
Proof.
  induction 1 as [|c info [Hcx Hcy] _ IH]; intros m Hm1 Hm2; cbv zeta.
  - simpl. split; [split; apply upto_refl; assumption|constructor].
  - cbn [fold_left].
    set (m1 := (JS.max (fst m) (JS.or_num (n_x (fst c)) 0 + sz_w (snd c)),
                JS.max (snd m) (JS.or_num (n_y (fst c)) 0 + sz_h (snd c)))).
    assert (H1 : nonneg (fst m1)) by (apply max_nonneg; assumption).
    assert (H2 : nonneg (snd m1)) by (apply max_nonneg; assumption).
    destruct (IH m1 H1 H2) as [[Ix Iy] Irest]. cbv zeta in *.
    split; [split|constructor; [split|exact Irest]].
    + apply upto_trans with (fst m1); [|exact Ix]. apply max_upto_l; assumption.
    + apply upto_trans with (snd m1); [|exact Iy]. apply max_upto_l; assumption.
    + apply upto_trans with (fst m1); [|exact Ix]. apply max_upto_r; assumption.
    + apply upto_trans with (snd m1); [|exact Iy]. apply max_upto_r; assumption.
Qed.

(** X11.  For a valid tree under a valid technology the calculated footprint
    leaves room for the margins around the local-logic block and around every
    child where it is stored: the far edge of each, plus twice the margin (and
    the header, downwards), is at most [calculatedWidth] (resp.
    [calculatedHeight]). *)
Theorem footprint_encloses_content (node : ModuleNode) (config : TechNodeConfig) :
  validConfig config = true -> validNode node = true ->
  let st := stats (calculatePhysicalSize node config) in
  ((JS.or_num (internalX node) 0 + fst (localBlock node config) + GLOBAL_MARGIN * 2
    <=? calculatedWidth st) = true
   /\ (JS.or_num (internalY node) 0 + snd (localBlock node config)
       + GLOBAL_MARGIN * 2 + GLOBAL_HEADER <=? calculatedHeight st) = true)
  /\ Forall (fun c =>
               (JS.or_num (n_x c) 0 + sz_w (calculatePhysicalSize c config)
                + GLOBAL_MARGIN * 2 <=? calculatedWidth st) = true
               /\ (JS.or_num (n_y c) 0 + sz_h (calculatePhysicalSize c config)
                   + GLOBAL_MARGIN * 2 + GLOBAL_HEADER <=? calculatedHeight st) = true)
            (children node).
Proof.
  intros Hc Hv.
  destruct (validNode_inv _ Hv) as (_ & _ & _ & (_ & _ & Hix & Hiy) & Hkids).
  destruct (valid_sizes config Hc node Hv) as (_ & _ & _ & HwL & HhL).
  destruct (calculatePhysicalSize_fields node config)
    as (_ & _ & _ & _ & _ & _ & _ & Ecw & Ech & _).
  cbv zeta in *. rewrite Ecw, Ech. clear Ecw Ech.
  set (st := stats (calculatePhysicalSize node config)).
  assert (Hinfo : Forall (fun c => nonneg (JS.or_num (n_x (fst c)) 0 + sz_w (snd c))
                                   /\ nonneg (JS.or_num (n_y (fst c)) 0 + sz_h (snd c)))
                         (childrenInfoOf node config)).
  { unfold childrenInfoOf. apply Forall_map. rewrite Forall_forall in *.
    intros c Hin. simpl.
    destruct (validNode_inv _ (Hkids c Hin)) as (_ & _ & _ & (Hcx & Hcy & _) & _).
    destruct (valid_sizes config Hc c (Hkids c Hin)) as (Hw & Hh & _).
    split; apply add_nonneg; try (apply pos_nonneg; assumption);
      apply or_num_nonneg, nonneg_notneg; assumption. }
  assert (H0x : nonneg (JS.or_num (internalX node) 0 + fst (localBlock node config)))
    by (apply add_nonneg; [apply or_num_nonneg, nonneg_notneg|]; assumption).
  assert (H0y : nonneg (JS.or_num (internalY node) 0 + snd (localBlock node config)))
    by (apply add_nonneg; [apply or_num_nonneg, nonneg_notneg|]; assumption).
  destruct (contentExtent_covers _ Hinfo
              (JS.or_num (internalX node) 0 + fst (localBlock node config),
               JS.or_num (internalY node) 0 + snd (localBlock node config))
              H0x H0y) as [[Hx Hy] Hrest].
  cbv zeta in *. cbn [fst snd] in Hx, Hy.
  unfold minEnvelope. cbn [fst snd].
  fold (contentExtent node (fst (localBlock node config)) (snd (localBlock node config))
          (childrenInfoOf node config)) in Hx, Hy, Hrest.
  set (ext := contentExtent node _ _ _) in *.
  assert (Nx : nonneg (fst ext)) by exact (upto_r _ _ Hx).
  assert (Ny : nonneg (snd ext)) by exact (upto_r _ _ Hy).
  assert (NW : nonneg (fst ext + GLOBAL_MARGIN * 2))
    by (apply add_nonneg; [exact Nx|reflexivity]).
  assert (NH : nonneg (snd ext + GLOBAL_MARGIN * 2 + GLOBAL_HEADER))
    by (apply add_nonneg; [apply add_nonneg; [exact Ny|reflexivity]|reflexivity]).
  destruct (valid_sizes config Hc node Hv) as (Pw & Ph & _).
  destruct (calculatePhysicalSize_fields node config)
    as (_ & _ & _ & _ & _ & _ & _ & Ecw & Ech & _ & _ & _ & Esw & Esh).
  cbv zeta in Ecw, Ech, Esw, Esh. fold st in Ecw, Ech, Esw, Esh.
  unfold minEnvelope in Ecw, Ech. cbn [fst snd] in Ecw, Ech. fold ext in Ecw, Ech.
  rewrite Esw, Ecw in Pw. rewrite Esh, Ech in Ph.
  assert (UW : upto (fst ext + GLOBAL_MARGIN * 2)
                    (JS.max (idealWidth st) (fst ext + GLOBAL_MARGIN * 2))).
  { split; [exact NW|]. apply max_ge. apply pos_not_nan, Pw. }
  assert (UH : upto (snd ext + GLOBAL_MARGIN * 2 + GLOBAL_HEADER)
                    (JS.max (idealHeight st)
                       (snd ext + GLOBAL_MARGIN * 2 + GLOBAL_HEADER))).
  { split; [exact NH|]. apply max_ge. apply pos_not_nan, Ph. }
  assert (Hstep : forall a b,
            upto a (fst ext) -> upto b (snd ext) ->
            (a + GLOBAL_MARGIN * 2
             <=? JS.max (idealWidth st) (fst ext + GLOBAL_MARGIN * 2)) = true
            /\ (b + GLOBAL_MARGIN * 2 + GLOBAL_HEADER
                <=? JS.max (idealHeight st)
                      (snd ext + GLOBAL_MARGIN * 2 + GLOBAL_HEADER)) = true).
  { intros a b Ha Hb. split.
    - refine (proj2 (upto_trans _ _ _ _ UW)).
      apply add_upto_l; [exact Ha|reflexivity].
    - refine (proj2 (upto_trans _ _ _ _ UH)).
      apply add_upto_l; [apply add_upto_l; [exact Hb|reflexivity]|reflexivity]. }
  split; [apply Hstep; assumption|].
  unfold childrenInfoOf in Hrest. rewrite Forall_map in Hrest.
  apply Forall_impl with (2 := Hrest). intros c [Hcx Hcy]. simpl in Hcx, Hcy.
  apply Hstep; assumption.
Qed.

Lemma footprint_encloses_content_witness :
  let st := stats (calculatePhysicalSize initialData tech7nm) in
  Forall (fun c =>
            (JS.or_num (n_x c) 0 + sz_w (calculatePhysicalSize c tech7nm)
             + GLOBAL_MARGIN * 2 <=? calculatedWidth st) = true
            /\ (JS.or_num (n_y c) 0 + sz_h (calculatePhysicalSize c tech7nm)
                + GLOBAL_MARGIN * 2 + GLOBAL_HEADER <=? calculatedHeight st) = true)
         (children initialData).
Proof.
  exact (proj2 (footprint_encloses_content initialData tech7nm eq_refl eq_refl)).
Defined.

(** ** What the compactor keeps *)

Lemma sweepX_eq l : sweepX l = sweepWith bestX setX l [].
Proof. reflexivity. Qed.

Lemma sweepY_eq l : sweepY l = sweepWith bestY setY l [].
Proof. reflexivity. Qed.

(** Both passes keep the entities, in another order. *)
Lemma compact_kinds l : Permutation (map e_kind (compact l)) (map e_kind l).
Proof.
  unfold compact. rewrite sweepX_eq, sweepY_eq.
  rewrite (sweepWith_kinds bestX setX) by reflexivity. simpl.
  eapply Permutation_trans; [apply Permutation_map, sortBy_perm|].
  rewrite (sweepWith_kinds bestY setY) by reflexivity. simpl.
  apply Permutation_map, sortBy_perm.
Qed.

Lemma atOrigin_moved o x y :
  atOrigin
    (spread o
       {| u_id := None; u_name := None; u_registers := None;
          u_memoryBits := None; u_logicGates := None;
          u_x := Some x; u_y := Some y;
          u_internalX := None; u_internalY := None;
          u_aspectRatio := None; u_internalAspectRatio := None;
          u_isRatioLinked := None; u_children := None; u_color := None |})
  = atOrigin o.
Proof. reflexivity. Qed.

Lemma updatedChildrenOf_kinds es :
  map atOrigin (updatedChildrenOf es) = childrenOfKinds (map e_kind es).
Proof.
  unfold updatedChildrenOf, childrenOfKinds.
  induction es as [|e es IH]; simpl; [reflexivity|].
  rewrite map_app, IH. destruct (e_kind e); reflexivity.
Qed.

Lemma entitiesOf_kinds node config :
  childrenOfKinds (map e_kind (entitiesOf node config)) = map atOrigin (children node).
Proof.
  unfold entitiesOf. destruct (localBlock node config) as [w h]. simpl.
  unfold childrenOfKinds. rewrite map_map. simpl.
  induction (children node) as [|c cs IH]; simpl; [reflexivity|].
  rewrite IH. reflexivity.
Qed.

Lemma organizeChildrenMosaic_children node config :
  children node <> [] ->
  children (organizeChildrenMosaic node config)
  = updatedChildrenOf (compact (entitiesOf node config)).
Proof.
  intros H. unfold organizeChildrenMosaic.
  destruct (children node); [contradiction|]. reflexivity.
Qed.

Lemma compaction_children node config :
  Permutation (map atOrigin (children (organizeChildrenMosaic node config)))
              (map atOrigin (children node)).
Proof.
  destruct (children node) as [|c cs] eqn:E.
  - unfold organizeChildrenMosaic. rewrite E. simpl. rewrite E. constructor.
  - rewrite organizeChildrenMosaic_children by congruence.
    rewrite <- E, updatedChildrenOf_kinds, <- entitiesOf_kinds with (config := config).
    unfold childrenOfKinds. apply Permutation_flat_map, compact_kinds.
Qed.

Lemma organizeChildrenMosaic_keeps node config :
  inventory (organizeChildrenMosaic node config) = inventory node
  /\ n_x (organizeChildrenMosaic node config) = n_x node
  /\ n_y (organizeChildrenMosaic node config) = n_y node
  /\ color (organizeChildrenMosaic node config) = color node.
Proof.
  unfold organizeChildrenMosaic. destruct (children node); repeat split.
Qed.

(** X12.  The compactor only moves.  The children of its result are the
    children of the input, each with all its fields and its own subtree as
    they were except for [x] and [y], possibly in another order; and the node
    keeps its id, name, resource counts, link flag, colour and own
    position. *)
Theorem compaction_only_moves (node : ModuleNode) (config : TechNodeConfig) :
  let result := organizeChildrenMosaic node config in
  Permutation (map atOrigin (children result)) (map atOrigin (children node))
  /\ List.length (children result) = List.length (children node)
  /\ inventory result = inventory node
  /\ n_x result = n_x node /\ n_y result = n_y node /\ color result = color node.
Proof.
  cbv zeta. pose proof (compaction_children node config) as H.
  split; [exact H|]. split.
  - apply Permutation_length in H. rewrite !length_map in H. exact H.
  - apply organizeChildrenMosaic_keeps.
Qed.

(** ** Deep optimisation *)

Lemma optimizeLayoutRecursive_eq node config :
  optimizeLayoutRecursive node config =
  organizeChildrenMosaic
    (withChildren node
       (map (fun child => optimizeLayoutRecursive child config) (children node)))
    config.
Proof. destruct node; reflexivity. Qed.

Lemma Permutation_flat_map_pointwise {A B : Type} (f g : A -> list B) l :
  Forall (fun a => Permutation (f a) (g a)) l ->
  Permutation (flat_map f l) (flat_map g l).
Proof.
  induction 1 as [|a l Ha _ IH]; simpl; [constructor|].
  apply Permutation_app; assumption.
Qed.

Lemma inventory_atOrigin c :
  map inventory (traverse (atOrigin c)) = map inventory (traverse c).
Proof. rewrite !traverse_eq. reflexivity. Qed.

(** X13.  Deep optimisation keeps the inventory of the tree: the modules of the
    result are the modules of the input, each with its id, name, resource
    counts and link flag, possibly in another order; none is lost, added or
    duplicated. *)
Theorem optimizeLayoutRecursive_inventory (node : ModuleNode) (config : TechNodeConfig) :
  Permutation (map inventory (traverse (optimizeLayoutRecursive node config)))
              (map inventory (traverse node)).
Proof.
  induction node as [node IH] using ModuleNode_tree_ind.
  rewrite optimizeLayoutRecursive_eq.
  set (base := withChildren node
                 (map (fun child => optimizeLayoutRecursive child config)
                      (children node))).
  rewrite (traverse_eq (organizeChildrenMosaic base config)), (traverse_eq node).
  cbn [map].
  destruct (organizeChildrenMosaic_keeps base config) as (Hinv & _).
  rewrite Hinv. change (inventory base) with (inventory node).
  apply perm_skip.
  rewrite !map_flat_map.
  (* positions set aside, the children of the result are those of [base] *)
  assert (Hpos : forall cs,
            flat_map (fun c => map inventory (traverse c)) cs
            = flat_map (fun c => map inventory (traverse c)) (map atOrigin cs)).
  { intros cs. induction cs as [|c cs IHcs]; cbn [flat_map map]; [reflexivity|].
    rewrite inventory_atOrigin, IHcs. reflexivity. }
  rewrite (Hpos (children (organizeChildrenMosaic base config))).
  eapply Permutation_trans;
    [apply Permutation_flat_map, (compaction_children base config)|].
  rewrite <- Hpos. change (children base)
    with (map (fun child => optimizeLayoutRecursive child config) (children node)).
  rewrite flat_map_concat_map, map_map, <- flat_map_concat_map.
  apply Permutation_flat_map_pointwise, IH.
Qed.

(** ** The compacted layout starts at the origin *)

Section SweepFacts.
Variable best : list Entity -> Entity -> float.
Variable set : Entity -> float -> Entity.

Lemma sweepWith_keeps_done l : forall done e,
  In e done -> In e (sweepWith best set l done).
Proof.
  induction l as [|a l IH]; intros done e H; simpl; [exact H|].
  apply IH, in_or_app. left. exact H.
Qed.

(** Every entity comes out of a sweep, with the coordinate the sweep
    sets. *)
Lemma sweepWith_moves l : forall done e,
  In e l -> exists v, In (set e v) (sweepWith best set l done).
Proof.
  induction l as [|a l IH]; intros done e H; simpl; [contradiction|].
  destruct H as [<-|H].
  - exists (best done a). apply sweepWith_keeps_done, in_or_app. right. left.
    reflexivity.
  - apply IH, H.
Qed.

(** The first entity of a sweep goes to the value the sweep starts from. *)
Lemma sweepWith_first a l :
  In (set a (best [] a)) (sweepWith best set (a :: l) []).
Proof. simpl. apply sweepWith_keeps_done. left. reflexivity. Qed.
End SweepFacts.

Lemma sortBy_nonempty cmp l : l <> [] -> exists a l', sortBy cmp l = a :: l'.
Proof.
  intros H. destruct (sortBy cmp l) as [|a l'] eqn:E; [|eauto].
  pose proof (Permutation_length (sortBy_perm cmp l)) as Hl. rewrite E in Hl.
  destruct l; [contradiction|discriminate].
Qed.

(** After both passes one entity is at [x = 0] and one at [y = 0]. *)
Lemma compact_origin l :
  l <> [] ->
  (exists e, In e (compact l) /\ e_x e = 0)
  /\ (exists e, In e (compact l) /\ e_y e = 0).
Proof.
  intros H. unfold compact. rewrite sweepX_eq, sweepY_eq.
  destruct (sortBy_nonempty byYX l H) as (a & l1 & E1). rewrite E1.
  pose proof (sweepWith_first bestY setY a l1) as Hy.
  change (bestY [] a) with 0 in Hy.
  set (ys := sweepWith bestY setY (a :: l1) []) in *.
  assert (Hys : ys <> []) by (intros E; rewrite E in Hy; exact Hy).
  destruct (sortBy_nonempty byXY ys Hys) as (b & l2 & E2). rewrite E2.
  split.
  - exists (setX b 0). split; [|reflexivity].
    exact (sweepWith_first bestX setX b l2).
  - assert (Hin : In (setY a 0) (b :: l2)).
    { rewrite <- E2. apply (Permutation_in _ (Permutation_sym (sortBy_perm byXY ys))).
      exact Hy. }
    destruct (sweepWith_moves bestX setX (b :: l2) [] _ Hin) as (v & Hv).
    exists (setX (setY a 0) v). split; [exact Hv|reflexivity].
Qed.

(** There is one local entity, before the passes and after. *)
Lemma filter_isLocal_kinds l :
  List.length (filter isLocal l)
  = List.length (filter (fun k => match k with Local => true | Child _ => false end)
                        (map e_kind l)).
Proof.
  induction l as [|e l IH]; simpl; [reflexivity|].
  unfold isLocal at 1. destruct (e_kind e); simpl; rewrite IH; reflexivity.
Qed.

Lemma Permutation_filter_length {A : Type} (p : A -> bool) l l' :
  Permutation l l' -> List.length (filter p l) = List.length (filter p l').
Proof.
  induction 1 as [|a l l' _ IH|a b l|l l' l'' _ IH1 _ IH2]; simpl.
  - reflexivity.
  - destruct (p a); simpl; rewrite IH; reflexivity.
  - destruct (p a), (p b); reflexivity.
  - rewrite IH1. exact IH2.
Qed.

Lemma one_local node config :
  List.length (filter isLocal (compact (entitiesOf node config))) = 1%nat.
Proof.
  rewrite filter_isLocal_kinds.
  rewrite (Permutation_filter_length _ _ _ (compact_kinds (entitiesOf node config))).
  unfold entitiesOf. destruct (localBlock node config) as [w h]. simpl.
  rewrite map_map. simpl. f_equal.
  induction (children node) as [|c cs IH]; simpl; [reflexivity|exact IH].
Qed.

Lemma find_filter {A : Type} (p : A -> bool) l :
  find p l = hd_error (filter p l).
Proof.
  induction l as [|a l IH]; simpl; [reflexivity|].
  destruct (p a); [reflexivity|exact IH].
Qed.

(** The entity the compactor reads the local block from is the one local
    entity. *)
Lemma the_local_entity node config e :
  In e (compact (entitiesOf node config)) -> isLocal e = true ->
  find isLocal (compact (entitiesOf node config)) = Some e.
Proof.
  intros Hin Hl. rewrite find_filter.
  pose proof (one_local node config) as H1.
  assert (Hf : In e (filter isLocal (compact (entitiesOf node config))))
    by (apply filter_In; auto).
  destruct (filter isLocal (compact (entitiesOf node config))) as [|e0 [|e1 rest]];
    try discriminate.
  destruct Hf as [->|[]]. reflexivity.
Qed.

Lemma updatedChildrenOf_child es e o :
  In e es -> e_kind e = Child o ->
  exists c, In c (updatedChildrenOf es) /\ n_x c = e_x e /\ n_y c = e_y e.
Proof.
  intros Hin Hk. unfold updatedChildrenOf.
  eexists. split.
  - apply in_flat_map. exists e. split; [exact Hin|]. rewrite Hk. left. reflexivity.
  - split; reflexivity.
Qed.

Lemma organizeChildrenMosaic_internal node config e :
  children node <> [] ->
  find isLocal (compact (entitiesOf node config)) = Some e ->
  internalX (organizeChildrenMosaic node config) = e_x e
  /\ internalY (organizeChildrenMosaic node config) = e_y e.
Proof.
  intros H He. unfold organizeChildrenMosaic.
  destruct (children node); [contradiction|]. rewrite He. split; reflexivity.
Qed.

(** X14.  After the compactor ran on a module with children, the content starts
    at the origin of the module's content area: the local-logic block or a
    child is at [x = 0], and the local-logic block or a child is at
    [y = 0]. *)
Theorem compacted_layout_starts_at_origin (node : ModuleNode) (config : TechNodeConfig) :
  children node <> [] ->
  let result := organizeChildrenMosaic node config in
  (internalX result = 0 \/ Exists (fun c => n_x c = 0) (children result))
  /\ (internalY result = 0 \/ Exists (fun c => n_y c = 0) (children result)).
Proof.
  intros H. cbv zeta.
  assert (Hne : entitiesOf node config <> []).
  { unfold entitiesOf. destruct (localBlock node config). discriminate. }
  destruct (compact_origin _ Hne) as [(ex & Hinx & Hx) (ey & Hiny & Hy)].
  rewrite organizeChildrenMosaic_children by exact H.
  split.
  - destruct (e_kind ex) as [|o] eqn:Ek.
    + left.
      assert (Hl : isLocal ex = true) by (unfold isLocal; rewrite Ek; reflexivity).
      pose proof (the_local_entity node config ex Hinx Hl) as Hf.
      destruct (organizeChildrenMosaic_internal node config ex H Hf) as [-> _].
      exact Hx.
    + right. destruct (updatedChildrenOf_child _ ex o Hinx Ek) as (c & Hc & Hcx & _).
      apply Exists_exists. exists c. split; [exact Hc|]. rewrite Hcx. exact Hx.
  - destruct (e_kind ey) as [|o] eqn:Ek.
    + left.
      assert (Hl : isLocal ey = true) by (unfold isLocal; rewrite Ek; reflexivity).
      pose proof (the_local_entity node config ey Hiny Hl) as Hf.
      destruct (organizeChildrenMosaic_internal node config ey H Hf) as [_ ->].
      exact Hy.
    + right. destruct (updatedChildrenOf_child _ ey o Hiny Ek) as (c & Hc & _ & Hcy).
      apply Exists_exists. exists c. split; [exact Hc|]. rewrite Hcy. exact Hy.
Qed.

Lemma compacted_layout_starts_at_origin_witness :
  let result := organizeChildrenMosaic initialData tech7nm in
  (internalX result = 0 \/ Exists (fun c => n_x c = 0) (children result))
  /\ (internalY result = 0 \/ Exists (fun c => n_y c = 0) (children result)).
Proof.
  apply (compacted_layout_starts_at_origin initialData tech7nm). discriminate.
Defined.

(** ** How many markers *)






(** ** Import *)

Section RawInduction.
Variable P : RawNode -> Prop.
Hypothesis step :
  forall node,
    Forall P (match r_children node with Some cs => cs | None => [] end) -> P node.

Fixpoint RawNode_tree_ind (node : RawNode) : P node :=
  step node
    (match r_children node as o
           return Forall P (match o with Some cs => cs | None => [] end) with
     | Some cs =>
         (fix all (l : list RawNode) : Forall P l :=
            match l with
            | [] => Forall_nil P
            | c :: l' => Forall_cons c (RawNode_tree_ind c) (all l')
            end) cs
     | None => Forall_nil P
     end).
End RawInduction.

Lemma enhanceWithGeometry_eq node :
  enhanceWithGeometry node =
  let children' :=
    match r_children node with
    | Some cs => map enhanceWithGeometry cs
    | None => []
    end in
  {| n_id := r_id node; n_name := r_name node;
     registers := r_registers node; memoryBits := r_memoryBits node;
     logicGates := r_logicGates node;
     n_x := or_field (r_x node) 0;
     n_y := or_field (r_y node) 0;
     internalX := or_field (r_internalX node) 0;
     internalY := or_field (r_internalY node) 0;
     aspectRatio := or_field (r_aspectRatio node) 1;
     internalAspectRatio :=
       or_field (r_internalAspectRatio node) (or_field (r_aspectRatio node) 1);
     isRatioLinked :=
       match r_isRatioLinked node with
       | Some b => b
       | None => negb (negb (Nat.eqb (List.length children') 0))
       end;
     children := children';
     color := r_color node |}.
Proof. destruct node; reflexivity. Qed.

Lemma or_field_settled v : settled (or_field v 0).
Proof.
  unfold settled, or_field. destruct v as [x|]; [|reflexivity].
  unfold JS.or_num. destruct (JS.falsy x) eqn:E; [reflexivity|]. rewrite E. reflexivity.
Qed.

Lemma or_field_truthy v d : truthy d -> truthy (or_field v d).
Proof.
  unfold truthy, or_field. intros Hd. destruct v as [x|]; [|exact Hd].
  unfold JS.or_num. destruct (JS.falsy x) eqn:E; assumption.
Qed.

Lemma truthy_one : truthy 1.
Proof. reflexivity. Qed.

Lemma enhanceWithGeometry_wellFormed raw :
  Forall wellFormed (traverse (enhanceWithGeometry raw)).
Proof.
  induction raw as [raw IH] using RawNode_tree_ind.
  rewrite traverse_eq. constructor.
  - rewrite enhanceWithGeometry_eq. cbv zeta. unfold wellFormed. simpl.
    repeat split; try apply or_field_settled;
      repeat apply or_field_truthy; apply truthy_one.
  - rewrite enhanceWithGeometry_eq. cbv zeta. cbn [children].
    destruct (r_children raw) as [cs|]; [|constructor].
    apply Forall_flat_map. rewrite Forall_map. exact IH.
Qed.

(** X16.  Whatever is imported, every module of the tree that
    [enhanceWithGeometry] returns has positions that are numbers (zero only
    as [+0]) and ratios that are neither zero nor [NaN]: the calculator's own
    defaults ([|| 0], [|| 1.0]) change nothing on it, and its effective
    internal ratio is the stored ratio the link flag selects.  A module that
    came without a link flag is linked exactly when it has no children. *)
Theorem import_settles_geometry (raw : RawNode) :
  Forall (fun n =>
            JS.or_num (n_x n) 0 = n_x n /\ JS.or_num (n_y n) 0 = n_y n
            /\ JS.or_num (internalX n) 0 = internalX n
            /\ JS.or_num (internalY n) 0 = internalY n
            /\ JS.or_num (aspectRatio n) 1 = aspectRatio n
            /\ effectiveInternalAR n
               = (if isRatioLinked n then aspectRatio n else internalAspectRatio n)
            /\ JS.falsy (effectiveInternalAR n) = false)
         (traverse (enhanceWithGeometry raw))
  /\ (r_isRatioLinked raw = None ->
      isRatioLinked (enhanceWithGeometry raw)
      = match children (enhanceWithGeometry raw) with [] => true | _ => false end).
Proof.
  split.
  - apply Forall_impl with (2 := enhanceWithGeometry_wellFormed raw).
    intros n (Hx & Hy & Hix & Hiy & Har & Hiar).
    unfold settled, truthy in *.
    repeat (split; [assumption|]).
    assert (H1 : forall v, JS.falsy v = false -> JS.or_num v 1 = v)
      by (intros v Hv; unfold JS.or_num; rewrite Hv; reflexivity).
    split; [apply H1, Har|].
    unfold effectiveInternalAR. rewrite (H1 _ Hiar).
    split; [reflexivity|]. destruct (isRatioLinked n); assumption.
  - intros E. rewrite enhanceWithGeometry_eq. cbv zeta. cbn [isRatioLinked children].
    rewrite E. destruct (r_children raw) as [[|c cs]|]; reflexivity.
Qed.

Lemma asRaw_eq n :
  asRaw n =
  {| r_id := n_id n; r_name := n_name n; r_registers := registers n;
     r_memoryBits := memoryBits n; r_logicGates := logicGates n;
     r_x := Some (n_x n); r_y := Some (n_y n);
     r_internalX := Some (internalX n); r_internalY := Some (internalY n);
     r_aspectRatio := Some (aspectRatio n);
     r_internalAspectRatio := Some (internalAspectRatio n);
     r_isRatioLinked := Some (isRatioLinked n);
     r_children := Some (map asRaw (children n));
     r_color := color n |}.
Proof. destruct n; reflexivity. Qed.

(** Importing a tree whose geometry is settled gives the tree. *)
Lemma enhanceWithGeometry_asRaw n :
  Forall wellFormed (traverse n) -> enhanceWithGeometry (asRaw n) = n.
Proof.
  induction n as [n IH] using ModuleNode_tree_ind. intros H.
  rewrite traverse_eq in H. inversion H as [|? ? Hn Hrest]; subst.
  apply Forall_flat_map in Hrest.
  rewrite enhanceWithGeometry_eq, asRaw_eq. cbv zeta. simpl.
  destruct Hn as (Hx & Hy & Hix & Hiy & Har & Hiar). unfold settled, truthy in *.
  assert (H1 : forall v d, JS.falsy v = false -> JS.or_num v d = v)
    by (intros v d Hv; unfold JS.or_num; rewrite Hv; reflexivity).
  rewrite Hx, Hy, Hix, Hiy, (H1 _ _ Har), (H1 _ _ Hiar).
  rewrite map_map.
  assert (Hk : map (fun c => enhanceWithGeometry (asRaw c)) (children n) = children n).
  { apply map_id_on. rewrite Forall_forall in *. intros c Hin.
    apply (IH c Hin), (Hrest c Hin). }
  rewrite Hk. destruct n; reflexivity.
Qed.

(** X17.  Importing twice is importing once: the tree that [enhanceWithGeometry]
    returns, read back as import data, is returned as it is. *)
Theorem import_idempotent (raw : RawNode) :
  enhanceWithGeometry (asRaw (enhanceWithGeometry raw)) = enhanceWithGeometry raw.
Proof. apply enhanceWithGeometry_asRaw, enhanceWithGeometry_wellFormed. Qed.

(** ** Deleting from the application state *)

(** X18.  [onDelete] never loses the root: the state after it has the root id it
    had, and only ids it had; the id ["root"] is refused, and so is the id
    of the root node; any other id is gone from the tree afterwards. *)
Theorem onDelete_keeps_root (data : ModuleNode) (id : string) :
  n_id (onDelete data id) = n_id data
  /\ incl (treeIds (onDelete data id)) (treeIds data)
  /\ (id = "root"%string \/ id = n_id data -> onDelete data id = data)
  /\ (id <> "root"%string -> id <> n_id data -> ~ In id (treeIds (onDelete data id))).
Proof.
  unfold onDelete.
  destruct (String.eqb id "root") eqn:E.
  - apply String.eqb_eq in E.
    split; [reflexivity|]. split; [apply incl_refl|]. split; [reflexivity|].
    intros H. contradiction.
  - apply String.eqb_neq in E.
    destruct (deleteNodeInTree data id) as [t|] eqn:Ed.
    + destruct (deleteNodeInTree_ids data id t Ed) as (Hid & Hn & Hi).
      split; [exact Hid|]. split; [exact Hi|]. split.
      * intros [H|H]; [contradiction|]. exfalso.
        rewrite deleteNodeInTree_eq in Ed. rewrite H, String.eqb_refl in Ed.
        discriminate.
      * intros _ _. exact Hn.
    + split; [reflexivity|]. split; [apply incl_refl|]. split; [reflexivity|].
      intros _ Hne. exfalso. rewrite deleteNodeInTree_eq in Ed.
      destruct (String.eqb (n_id data) id) eqn:E2; [|discriminate].
      apply String.eqb_eq in E2. auto.
Qed.

Lemma onDelete_keeps_root_witness :
  onDelete initialData "root" = initialData
  /\ ~ In "gpu_sub"%string (treeIds (onDelete initialData "gpu_sub")).
Proof.
  destruct (onDelete_keeps_root initialData "root") as (_ & _ & H1 & _).
  destruct (onDelete_keeps_root initialData "gpu_sub") as (_ & _ & _ & H2).
  refine (conj (H1 (or_introl eq_refl)) (H2 _ _)); discriminate.
Defined.

(** ** Ratios entered in the form *)





(** ** Picking a rectangle *)

Lemma SFltb_trans x y z :
  SFltb x y = true -> SFltb y z = true -> SFltb x z = true.
Proof.
  unfold SFltb.
  destruct x as [[]|[]| |[] m1 e1], y as [[]|[]| |[] m2 e2], z as [[]|[]| |[] m3 e3];
    simpl; try discriminate; try reflexivity;
    change (Pos.compare_cont Eq m1 m2) with (Pos.compare m1 m2);
    change (Pos.compare_cont Eq m2 m3) with (Pos.compare m2 m3);
    change (Pos.compare_cont Eq m1 m3) with (Pos.compare m1 m3);
    destruct (Z.compare_spec e1 e2), (Z.compare_spec e2 e3), (Z.compare_spec e1 e3);
    try discriminate; try reflexivity; try lia;
    destruct (Pos.compare_spec m1 m2), (Pos.compare_spec m2 m3),
      (Pos.compare_spec m1 m3); simpl; try discriminate; try reflexivity; lia.
Qed.

Lemma ltb_trans a b c : (a <? b) = true -> (b <? c) = true -> (a <? c) = true.
Proof. rewrite !ltb_spec. apply SFltb_trans. Qed.

Lemma ltb_irrefl a : (a <? a) = false.
Proof.
  rewrite ltb_spec. unfold SFltb.
  destruct (SFcompare (Prim2SF a) (Prim2SF a)) as [c|] eqn:E; [|reflexivity].
  destruct (SFcompare_Some _ _ _ E) as [Hn _].
  rewrite (SFcompare_refl _ Hn) in E. injection E as <-. reflexivity.
Qed.

Lemma smaller_cases prev curr :
  ((area curr <? area prev) = true /\ smaller prev curr = curr)
  \/ ((area curr <? area prev) = false /\ smaller prev curr = prev).
Proof.
  unfold smaller, area. destruct (_ <? _); [left|right]; split; reflexivity.
Qed.

(** The running choice only moves to a smaller area. *)
Lemma smallest_decreases others : forall first,
  (area (fold_left smaller others first) <? area first) = true
  \/ fold_left smaller others first = first.
Proof.
  induction others as [|r others IH]; intros first; simpl; [right; reflexivity|].
  destruct (smaller_cases first r) as [[E ->]|[E ->]].
  - left. destruct (IH r) as [H| ->]; [exact (ltb_trans _ _ _ H E)|exact E].
  - apply IH.
Qed.

(** The running choice is one of the rectangles seen, and none of them has
    a smaller area. *)
Lemma smallest_fold others : forall first,
  In (fold_left smaller others first) (first :: others)
  /\ Forall (fun r => (area r <? area (fold_left smaller others first)) = false)
            (first :: others).
Proof.
  induction others as [|r others IH]; intros first; cbn [fold_left].
  - split; [left; reflexivity|]. constructor; [apply ltb_irrefl|constructor].
  - destruct (IH (smaller first r)) as [Hin Hall].
    pose proof (smallest_decreases others (smaller first r)) as Hdec.
    set (best := fold_left smaller others (smaller first r)) in *.
    inversion Hall as [|? ? Hs Hrest]; subst.
    assert (Hfr : (area first <? area best) = false /\ (area r <? area best) = false).
    { destruct (smaller_cases first r) as [[E Es]|[E Es]]; rewrite Es in *.
      - split; [|exact Hs].
        destruct (area first <? area best) eqn:E2; [|reflexivity].
        rewrite (ltb_trans _ _ _ E E2) in Hs. discriminate.
      - split; [exact Hs|].
        destruct (area r <? area best) eqn:E2; [|reflexivity].
        destruct Hdec as [H|H].
        + rewrite (ltb_trans _ _ _ E2 H) in E. discriminate.
        + rewrite H in E2. rewrite E2 in E. discriminate. }
    destruct Hfr as [Hf Hr]. split.
    + destruct Hin as [Hin|Hin]; [|right; right; exact Hin].
      destruct (smaller_cases first r) as [[_ Es]|[_ Es]]; rewrite Es in Hin;
        [right; left|left]; exact Hin.
    + constructor; [exact Hf|]. constructor; [exact Hr|exact Hrest].
Qed.

(** X20.  The rectangle picked under a point is one of the rectangles of the
    layout, it contains the point, and no rectangle that contains the point
    has a smaller area; nothing is picked exactly when no rectangle contains
    the point. *)
Theorem getSmallestRectAt_spec (rs : list LayoutRect) (x y : float) :
  (forall r, getSmallestRectAt rs x y = Some r ->
     In r rs
     /\ (l_x r <=? x) = true /\ (x <=? l_x r + l_w r) = true
     /\ (l_y r <=? y) = true /\ (y <=? l_y r + l_h r) = true
     /\ Forall (fun r' => (l_w r' * l_h r' <? l_w r * l_h r) = false) (hitsAt rs x y))
  /\ (getSmallestRectAt rs x y = None <-> hitsAt rs x y = []).
Proof.
  unfold getSmallestRectAt. split.
  - intros r H. destruct (hitsAt rs x y) as [|first others] eqn:E; [discriminate|].
    injection H as <-.
    destruct (smallest_fold others first) as [Hin Hall].
    rewrite <- E in Hin. unfold hitsAt in Hin. apply filter_In in Hin as [Hin Hp].
    apply andb_prop in Hp as [Hp H4]. apply andb_prop in Hp as [Hp H3].
    apply andb_prop in Hp as [H1 H2].
    repeat (split; [assumption|]). exact Hall.
  - destruct (hitsAt rs x y); split; congruence.
Qed.

Lemma getSmallestRectAt_spec_witness :
  let rs := rects (performLayout initialData tech7nm) in
  option_map l_id (getSmallestRectAt rs 100 100) = Some "root:internal"%string
  /\ (getSmallestRectAt rs (-1) (-1) = None <-> hitsAt rs (-1) (-1) = []).
Proof.
  exact (conj eq_refl
           (proj2 (getSmallestRectAt_spec
                     (rects (performLayout initialData tech7nm)) (-1) (-1)))).
Defined.

(** ** The selection and the tidy-up button *)

Lemma findNode_eq realId node :
  findNode realId node =
  if String.eqb (n_id node) realId then Some node
  else firstFound (findNode realId) (children node).
Proof. destruct node; reflexivity. Qed.

(** The search of the application is the search of [utils.ts]. *)
Lemma findNode_findModuleById node id :
  findNode (realIdOf id) node = findModuleById node id.
Proof.
  induction node as [node IH] using ModuleNode_tree_ind.
  rewrite findNode_eq, findModuleById_eq.
  destruct (String.eqb (n_id node) (realIdOf id)); [reflexivity|].
  apply firstFound_ext, IH.
Qed.

Lemma findModuleById_realIdOf node id :
  findModuleById node (realIdOf id) = findModuleById node id.
Proof. rewrite !findModuleById_find, realIdOf_idem. reflexivity. Qed.

Lemma findModuleById_id node id found :
  findModuleById node id = Some found -> n_id found = realIdOf id.
Proof.
  rewrite findModuleById_find. intros H. apply find_some in H as [_ H].
  apply String.eqb_eq, H.
Qed.

(** A whole node spread over a node of the same colour gives the node. *)
Lemma spread_allFields n m : color m = color n -> spread n (allFields m) = m.
Proof.
  intros H. destruct n as [? ? ? ? ? ? ? ? ? ? ? ? ? cn], m as [? ? ? ? ? ? ? ? ? ? ? ? ? cm].
  simpl in H. subst cm. unfold spread, allFields. simpl.
  destruct cn; reflexivity.
Qed.

Lemma organizeChildrenMosaic_id node config :
  n_id (organizeChildrenMosaic node config) = n_id node
  /\ color (organizeChildrenMosaic node config) = color node.
Proof. unfold organizeChildrenMosaic. destruct (children node); split; reflexivity. Qed.

(** The selection after a whole node was written back under its id. *)
Lemma selection_after_full_update data selectedId node m :
  selectedNode data selectedId = Some node ->
  n_id m = n_id node -> color m = color node ->
  selectedNode (handleFullUpdateNode data m) selectedId = Some m.
Proof.
  intros H Ho Hc.
  destruct selectedId as [[|c s]|]; try discriminate.
  unfold selectedNode in *. remember (String c s) as id eqn:Eid. clear Eid.
  rewrite findNode_findModuleById in *.
  pose proof (findModuleById_id _ _ _ H) as Hid.
  unfold handleFullUpdateNode. rewrite Ho, Hid.
  rewrite <- findModuleById_realIdOf.
  rewrite find_after_update.
  - rewrite findModuleById_realIdOf, H. simpl. f_equal.
    apply spread_allFields, Hc.
  - apply realIdOf_idem.
  - simpl. rewrite Ho. exact Hid.
Qed.

Lemma optimizeLayoutRecursive_id node config :
  n_id (optimizeLayoutRecursive node config) = n_id node
  /\ color (optimizeLayoutRecursive node config) = color node.
Proof.
  rewrite optimizeLayoutRecursive_eq.
  destruct (organizeChildrenMosaic_id
              (withChildren node
                 (map (fun child => optimizeLayoutRecursive child config)
                      (children node))) config) as [-> ->].
  split; reflexivity.
Qed.

(** X21.  After the tidy-up button the selection is the compacted module: the
    node the form is given for the same selected id is what
    [organizeChildrenMosaic] returned for the node it was given before;
    without a selected node the state stays as it is. *)
Theorem handleTidyUp_selection
    (data : ModuleNode) (config : TechNodeConfig) (selectedId : option string) :
  (forall node, selectedNode data selectedId = Some node ->
     selectedNode (handleTidyUp data config selectedId) selectedId
     = Some (organizeChildrenMosaic node config))
  /\ (selectedNode data selectedId = None ->
      handleTidyUp data config selectedId = data).
Proof.
  unfold handleTidyUp. split.
  - intros node H. rewrite H.
    apply (selection_after_full_update data selectedId node _ H);
      apply organizeChildrenMosaic_id.
  - intros H. rewrite H. reflexivity.
Qed.

Lemma handleTidyUp_selection_witness :
  selectedNode (handleTidyUp initialData tech7nm (Some "cpu_sub:internal"%string))
    (Some "cpu_sub:internal"%string)
  = option_map (fun n => organizeChildrenMosaic n tech7nm)
      (findModuleById initialData "cpu_sub").
Proof.
  exact (proj1 (handleTidyUp_selection initialData tech7nm
                  (Some "cpu_sub:internal"%string)) _ eq_refl).
Defined.

(** X22.  The optimise button changes nothing while the detector reports an
    overlap in the selected module; when it reports none, the selection
    afterwards is the module compacted, or optimised through all its levels
    when deep optimisation is on. *)
Theorem handleOptimize_selection
    (data : ModuleNode) (config : TechNodeConfig) (selectedId : option string)
    (deepOptimize : bool) (node : ModuleNode) :
  selectedNode data selectedId = Some node ->
  (checkOverlapsInModule node config <> [] ->
   handleOptimize data config selectedId deepOptimize = data)
  /\ (checkOverlapsInModule node config = [] ->
      selectedNode (handleOptimize data config selectedId deepOptimize) selectedId
      = Some (if deepOptimize then optimizeLayoutRecursive node config
              else organizeChildrenMosaic node config)).
Proof.
  intros H. unfold handleOptimize. rewrite H. split.
  - intros Hne. destruct (checkOverlapsInModule node config); congruence.
  - intros ->. apply (selection_after_full_update data selectedId node _ H);
      destruct deepOptimize;
      first [apply optimizeLayoutRecursive_id | apply organizeChildrenMosaic_id].
Qed.

(** The tree the application starts with has overlaps at its top level: the
    button leaves it as it is. *)
Lemma handleOptimize_selection_witness :
  handleOptimize initialData tech7nm (Some "root"%string) true = initialData.
Proof.
  apply (proj1 (handleOptimize_selection initialData tech7nm (Some "root"%string)
                  true initialData eq_refl)).
  vm_compute. discriminate.
Defined.

(** ** Resolving the rectangle under the pointer *)

Lemma find_unique {A : Type} (f : A -> string) (l : list A) (a : A) :
  NoDup (map f l) -> In a l ->
  find (fun x => String.eqb (f x) (f a)) l = Some a.
Proof.
  induction l as [|x l IH]; simpl; intros Hnd Hin; [contradiction|].
  inversion Hnd as [|? ? Hx Hl]; subst.
  destruct Hin as [->|Hin]; [rewrite String.eqb_refl; reflexivity|].
  destruct (String.eqb (f x) (f a)) eqn:E; [|apply IH; assumption].
  apply String.eqb_eq in E. exfalso. apply Hx. rewrite E. apply in_map, Hin.
Qed.

(** In a tree without repeated ids a node is found under every id that
    reads as its own up to the first colon. *)
Lemma findModuleById_own data m id :
  NoDup (treeIds data) -> In m (traverse data) -> realIdOf id = n_id m ->
  findModuleById data id = Some m.
Proof.
  intros Hnd Hin E.
  rewrite findModuleById_find, E. rewrite treeIds_traverse in Hnd.
  apply find_unique; assumption.
Qed.

Lemma place_In config node :
  forall absX absY parentId r, In r (place config node absX absY parentId) ->
  In (actualNode r) (traverse node).
Proof.
  intros absX absY parentId r Hin.
  destruct (place_rects config node absX absY parentId) as (Hm & Hi & _).
  cbv zeta in *.
  destruct (isInternal r) eqn:E.
  - rewrite <- Hi. apply in_map, filter_In. auto.
  - rewrite <- Hm. apply in_map, filter_In. rewrite E. auto.
Qed.

(** X23.  In a tree without repeated ids and without colons in them, what the
    canvas resolves a rectangle of the layout to is always a rectangle of the
    layout for the same module, and it is the local-logic rectangle only for
    a module with children: the local logic of a module without children
    stands for the module. *)
Theorem resolveTargetRect_spec (data : ModuleNode) (config : TechNodeConfig) :
  NoDup (treeIds data) ->
  Forall (fun id => realIdOf id = id) (treeIds data) ->
  let rs := rects (performLayout data config) in
  forall rect, In rect rs ->
  exists r,
    resolveTargetRect data rs (Some rect) = Some r
    /\ In r rs
    /\ actualNode r = actualNode rect
    /\ isInternal r
       = isInternal rect
         && match children (actualNode rect) with [] => false | _ :: _ => true end.
Proof.
  intros Hnd Hcolon. cbv zeta. unfold performLayout. cbn [rects].
  set (rs := place config data 0 0 "root_parent").
  intros rect Hin. unfold resolveTargetRect.
  destruct (isInternal rect) eqn:Eint;
    [|exists rect; rewrite Eint; repeat split; assumption].
  pose proof (place_In config data _ _ _ rect Hin) as Hm.
  destruct (place_rects config data 0 0 "root_parent") as (_ & _ & Hd).
  cbv zeta in Hd. fold rs in Hd. rewrite Forall_forall in Hd.
  pose proof (Hd rect Hin) as Hrect. unfold drawsItsModule in Hrect.
  rewrite Eint in Hrect. destruct Hrect as (Hid & _ & _).
  set (m := actualNode rect) in *.
  assert (Hreal : realIdOf (n_id m) = n_id m).
  { rewrite Forall_forall in Hcolon. apply Hcolon.
    rewrite treeIds_traverse. apply in_map, Hm. }
  assert (Hown : findModuleById data (l_id rect) = Some m).
  { apply (findModuleById_own data m _ Hnd Hm). rewrite Hid.
    change (":internal"%string) with (":" ++ "internal")%string.
    rewrite realIdOf_app_colon. exact Hreal. }
  rewrite Hown.
  destruct (children m) as [|c cs] eqn:Ekids;
    [|exists rect; rewrite Eint; repeat split; assumption].
  pose proof (moduleRectOf_place config (n_id m) data 0 0 "root_parent") as Hmod.
  fold rs in Hmod. unfold moduleRectOf in Hmod. rewrite Hreal in Hmod.
  assert (Hself : findModuleById data (n_id m) = Some m)
    by exact (findModuleById_own data m _ Hnd Hm Hreal).
  rewrite Hself in Hmod.
  destruct (find _ rs) as [r|] eqn:Ef; [|discriminate].
  simpl in Hmod. injection Hmod as Hr.
  apply find_some in Ef as [Hrin Hp]. apply andb_prop in Hp as [_ Hp].
  apply negb_true_iff in Hp.
  exists r. repeat split; assumption.
Qed.

(** The local logic of [gpu_sub], a module without children, under the
    pointer: the canvas takes it for [gpu_sub]. *)
Lemma resolveTargetRect_spec_witness :
  let rs := rects (performLayout initialData tech7nm) in
  exists rect r,
    l_id rect = "gpu_sub:internal"%string
    /\ In rect rs
    /\ resolveTargetRect initialData rs (Some rect) = Some r
    /\ In r rs
    /\ actualNode r = actualNode rect
    /\ isInternal r = false.
Proof.
  cbv zeta.
  assert (Hnd : NoDup (treeIds initialData))
    by (vm_compute; repeat constructor; simpl; intuition discriminate).
  assert (Hcolon : Forall (fun id => realIdOf id = id) (treeIds initialData))
    by (vm_compute; repeat constructor).
  destruct (find (fun r => String.eqb (l_id r) "gpu_sub:internal")
              (rects (performLayout initialData tech7nm))) as [rect|] eqn:E;
    [|discriminate E].
  pose proof (find_some _ _ E) as [Hin Hid]. apply String.eqb_eq in Hid.
  destruct (resolveTargetRect_spec initialData tech7nm Hnd Hcolon rect Hin)
    as (r & Hr & Hrin & Hnode & Hint).
  exists rect, r. repeat (split; [assumption|]).
  rewrite Hint.
  assert (Hk : children (actualNode rect) = []).
  { revert E. vm_compute. intros E. injection E as <-. reflexivity. }
  rewrite Hk. apply andb_false_r.
Defined.
